(** * street-tracker: walk classification and street coverage

    A shallow embedding of the geometric matching and classification core of
    the street-tracker pipeline, followed by the properties established for
    it.  The embedded Python modules are

      - [src/utils/config.py]                       (module [config])
      - [src/utils/geo_utils.py]                    (module [geo_utils])
      - [src/data/walk_analyzer.py]                 (module [walk_analyzer])
      - [src/scripts/analyze_walks.py]              (module [analyze_walks])
      - [src/scripts/analyze_walks_city_specific.py](module [city_specific])
      - [src/scripts/match_walks_to_streets.py]     (module [match_walks])
      - [src/data/tcx_processor.py]                 (module [tcx_processor])

    Conventions of the embedding.

      - Python numbers are exact rationals ([Q]).  [float('inf')] is the extra
        value [Inf] of [xfloat]; a division whose divisor is zero raises
        [ZeroDivisionError], as Python's [/] does on ints and floats.  What
        is proved over [Q] is stated so that rounding does not decide it;
        where rounding does decide, the arithmetic is written a second time
        over binary64 floats (module [binary64]).
      - The time values of the walk tables carry no time zone information:
        the subtraction of a datetime with a zone and one without, which
        Python refuses with [TypeError], is outside what [Timestamp]
        represents.  The datetimes read from TCX files
        ([tcx_processor.Moment]) do carry it.
      - A Python function that may raise returns a [result]; a [try/except]
        block is [try_except].
      - shapely, pyproj and the [math] module are libraries the program calls
        but does not contain: their operations are the fields of the classes
        [Shapely] and [MathLib].  Module [Cells] gives a small executable
        instance of the former (geometry on a line made of unit cells) and
        module [Meridian] one of the latter (distances along a meridian), on
        which concrete runs are evaluated.
      - A loop body that the source writes inline is a definition of its
        own, named after what it computes. *)

From Stdlib Require Import QArith Qminmax Qabs Qround Lia.
From Stdlib Require Floats.
From stdpp Require Import base option list gmap strings.

Set Default Proof Using "Type".

(** ** The Python runtime *)

Module Py.

Inductive exn : Type :=
| KeyError | IndexError | ValueError | TypeError
| AttributeError | ZeroDivisionError | CRSError.

Inductive result (A : Type) : Type :=
| Ok (a : A)
| Raise (e : exn).
Arguments Ok {A} a.
Arguments Raise {A} e.

#[export] Instance result_ret : MRet result := fun A a => Ok a.
#[export] Instance result_bind : MBind result := fun A B f r =>
  match r with
  | Ok a => f a
  | Raise e => Raise e
  end.
#[export] Instance result_fmap : FMap result := fun A B f r =>
  match r with
  | Ok a => Ok (f a)
  | Raise e => Raise e
  end.

(** [try: body / except: handler]. *)
Definition try_except {A} (body : result A) (handler : A) : A :=
  match body with
  | Ok a => a
  | Raise _ => handler
  end.

(** [for x in xs: ...] collecting one value per iteration; the first
    exception aborts the loop. *)
Fixpoint for_each {A B} (f : A -> result B) (xs : list A) : result (list B) :=
  match xs with
  | [] => Ok []
  | x :: xs' => y ← f x; ys ← for_each f xs'; Ok (y :: ys)
  end.

(** Comparisons [a > b] and [a < b]. *)
Definition Qgtb (a b : Q) : bool := negb (Qle_bool a b).
Definition Qltb (a b : Q) : bool := Qgtb b a.

(** [a / b]. *)
Definition truediv (a b : Q) : result Q :=
  if Qeq_bool b 0 then Raise ZeroDivisionError else Ok (a / b)%Q.

(** [min(a, b)]: the first argument unless the second is smaller. *)
Definition pymin (a b : Q) : Q := if Qltb b a then b else a.

(** [xs[0]] and [xs[-1]]. *)
Definition item_first {A} (xs : list A) : result A :=
  match xs with
  | [] => Raise IndexError
  | x :: _ => Ok x
  end.
Definition item_last {A} (xs : list A) : result A :=
  match last xs with
  | None => Raise IndexError
  | Some x => Ok x
  end.

(** A float that may be [float('inf')]. *)
Inductive xfloat : Type :=
| Finite (q : Q)
| Inf.

Definition xlt (a : xfloat) (b : Q) : bool :=
  match a with
  | Finite q => Qltb q b
  | Inf => false
  end.

(** [len(xs)] as a number. *)
Definition len {A} (xs : list A) : Q := inject_Z (Z.of_nat (length xs)).

End Py.
Export Py.

(** ** Shared data: coordinates, timestamps, metrics *)

(** A coordinate tuple [(lon, lat)]: [c[0]] is the longitude and [c[1]] the
    latitude. *)
Definition Coord : Type := Q * Q.

(** A coordinate reference system, by its name (['EPSG:4326'], ...). *)
Definition CRS : Type := string.

(** A time value as the program meets it: a datetime object, or a string
    together with what the parser ([pd.to_datetime],
    [datetime.fromisoformat]) makes of it, in seconds ([None] when the
    string is malformed). *)
Inductive Timestamp : Type :=
| Datetime (seconds : Q)
| IsoString (parsed : option Q).

(** [pd.to_datetime(t)] *)
Definition to_datetime (t : Timestamp) : result Q :=
  match t with
  | Datetime s => Ok s
  | IsoString (Some s) => Ok s
  | IsoString None => Raise ValueError
  end.

(** The metrics dictionary of [calculate_path_metrics] (both copies). *)
Record PathMetrics : Type := mkPathMetrics {
  direct_distance : Q;
  path_distance : Q;
  duration : Q;
  avg_speed : Q;
  sinuosity : Q
}.

(** One entry of [CITY_PARAMS]. *)
Record CityParams : Type := mkCityParams {
  buffer_distance : Q;
  max_walking_speed : Q;
  min_walking_speed : Q;
  max_sinuosity : Q;
  max_direct_distance : Q
}.

(** ** The libraries the program calls *)

(** The functions of Python's [math] module used by [haversine_distance]. *)
Class MathLib : Type := {
  radians : Q -> Q;
  sin : Q -> Q;
  cos : Q -> Q;
  sqrt : Q -> Q;
  atan2 : Q -> Q -> Q
}.

(** The shapely / pyproj operations used by the coverage code.  A
    [LineString] is a walk or a street, a [Polygon] a buffer, a [Geometry]
    whatever an intersection returns. *)
Class Shapely : Type := {
  LineString : Type;
  Polygon : Type;
  Geometry : Type;
  (** [list(g.coords)] *)
  coords : LineString -> list Coord;
  (** [g.length] of a line *)
  line_length : LineString -> Q;
  (** [Point(a).distance(Point(b))] *)
  point_distance : Coord -> Coord -> Q;
  (** [g.buffer(d)] *)
  buffer : LineString -> Q -> Polygon;
  (** [a.union(b)] *)
  poly_union : Polygon -> Polygon -> Polygon;
  (** [p.intersects(s)] *)
  intersects : Polygon -> LineString -> bool;
  (** [s.intersection(p)] *)
  intersection : LineString -> Polygon -> Geometry;
  (** [g.is_empty] *)
  is_empty : Geometry -> bool;
  (** [isinstance(g, (LineString, MultiLineString))] *)
  is_lineal : Geometry -> bool;
  (** [g.length] of an intersection *)
  geom_length : Geometry -> Q;
  (** [transform(Transformer.from_crs(src, dst, always_xy=True).transform, g)] *)
  transform_line : CRS -> CRS -> LineString -> LineString;
  transform_polygon : CRS -> CRS -> Polygon -> Polygon
}.

(** What the coverage properties need to know about shapely: lengths are
    not negative, [intersects] says whether the intersection is non-empty,
    and a line meets a union exactly when it meets one of its parts. *)
Class ShapelyLaws (K : Shapely) : Prop := {
  length_nonneg : forall g : Geometry, (0 <= geom_length g)%Q;
  line_length_nonneg : forall s : LineString, (0 <= line_length s)%Q;
  intersects_spec : forall (p : Polygon) (s : LineString),
    intersects p s = negb (is_empty (intersection s p));
  intersection_union_empty : forall (s : LineString) (a b : Polygon),
    is_empty (intersection s (poly_union a b))
    = is_empty (intersection s a) && is_empty (intersection s b)
}.

(** Attribute access on a shapely geometry.  [crs] and [to_crs] are
    attributes of geopandas' GeoSeries and GeoDataFrame; a shapely geometry
    has neither, so reading them raises [AttributeError]. *)
Definition geom_crs `{Shapely} (g : LineString) : result CRS :=
  Raise AttributeError.
Definition geom_to_crs `{Shapely} (g : LineString) (crs : CRS) : result LineString :=
  Raise AttributeError.

(** ** GeoDataFrames *)

(** The tables are records over the type [G] of their geometries, so that a
    table does not carry the geometry library with it. *)

(** A row of the walks table.  [timestamps] is [None] when the row has no
    such attribute. *)
Record WalkRowOf (G : Type) : Type := mkWalkRow {
  start_time : Timestamp;
  end_time : Timestamp;
  source_file : string;
  geometry : G;
  timestamps : option (list Timestamp)
}.
Arguments mkWalkRow {G} _ _ _ _ _.
Arguments start_time {G} _.
Arguments end_time {G} _.
Arguments source_file {G} _.
Arguments geometry {G} _.
Arguments timestamps {G} _.

Record WalksFrameOf (G : Type) : Type := mkWalksFrame {
  walks_crs : option CRS;
  walks_rows : list (WalkRowOf G)
}.
Arguments mkWalksFrame {G} _ _.
Arguments walks_crs {G} _.
Arguments walks_rows {G} _.

(** A row of the streets table.  The two output columns are [None] while
    the table does not have them. *)
Record StreetRowOf (G : Type) : Type := mkStreetRow {
  street_id : Z;
  street_geometry : G;
  covered : option bool;
  coverage_percent : option Q
}.
Arguments mkStreetRow {G} _ _ _ _.
Arguments street_id {G} _.
Arguments street_geometry {G} _.
Arguments covered {G} _.
Arguments coverage_percent {G} _.

Record StreetsFrameOf (G : Type) : Type := mkStreetsFrame {
  streets_crs : option CRS;
  streets_rows : list (StreetRowOf G)
}.
Arguments mkStreetsFrame {G} _ _.
Arguments streets_crs {G} _.
Arguments streets_rows {G} _.

(** The tables of the program hold shapely LineStrings. *)
Abbreviation WalkRow := (WalkRowOf LineString).
Abbreviation WalksFrame := (WalksFrameOf LineString).
Abbreviation StreetRow := (StreetRowOf LineString).
Abbreviation StreetsFrame := (StreetsFrameOf LineString).

Section Frames.
Context `{K : Shapely}.

(** [gdf.to_crs(target)]: a table without a CRS cannot be transformed, and
    a target is required. *)
Definition walks_to_crs (gdf : WalksFrame) (target : option CRS) : result WalksFrame :=
  match walks_crs gdf, target with
  | Some src, Some dst =>
      Ok (mkWalksFrame (Some dst)
            (map (fun w => mkWalkRow (start_time w) (end_time w) (source_file w)
                              (transform_line src dst (geometry w)) (timestamps w))
                 (walks_rows gdf)))
  | _, _ => Raise ValueError
  end.

(** The street row with its two output cells written. *)
Definition set_coverage (s : StreetRow) (c : bool) (p : Q) : StreetRow :=
  mkStreetRow (street_id s) (street_geometry s) (Some c) (Some p).

End Frames.

(** [gpd.GeoDataFrame(rows, crs=crs)] built from a list of rows.  Without a
    row the frame has no geometry column, and geopandas refuses to give
    such a frame a reference system. *)
Definition frame_of_rows {G : Type} (rows : list (WalkRowOf G)) (crs : option CRS)
  : result (WalksFrameOf G) :=
  match rows, crs with
  | [], Some _ => Raise ValueError
  | _, _ => Ok (mkWalksFrame crs rows)
  end.

(** [for i in range(len(coords) - 1): total += dist(coords[i], coords[i+1])] *)
Fixpoint sum_consecutive (dist : Coord -> Coord -> Q) (total : Q) (cs : list Coord) : Q :=
  match cs with
  | a :: (b :: _) as rest => sum_consecutive dist (total + dist a b)%Q rest
  | _ => total
  end.

(** ** [src/utils/config.py] *)

Module config.

Definition CITY_PARAMS : gmap string CityParams :=
  {[ "london"     := mkCityParams 8 2.5 0.2 3.0 8000;
     "blacksburg" := mkCityParams 10 2.8 0.2 3.5 5000;
     "mumbai"     := mkCityParams 6 2.2 0.1 3.2 6000 ]}.

Definition DEFAULT_CRS : CRS := "EPSG:4326".
Definition METRIC_CRS : CRS := "EPSG:3857".

Definition KEPLER_DATA_DIR : string := "kepler_data".

(** Seconds and metres. *)
Definition MIN_WALK_DURATION : Q := 60.
Definition MIN_WALK_DISTANCE : Q := 100.

(** [CITY_PARAMS[city]] *)
Definition city_params (city : string) : result CityParams :=
  match CITY_PARAMS !! city with
  | Some p => Ok p
  | None => Raise KeyError
  end.

End config.

(** ** [src/scripts/analyze_walks.py]: segment-level analysis *)

Module analyze_walks.

(** The metrics dictionary of [calculate_segment_metrics]. *)
Record SegmentMetrics : Type := mkSegmentMetrics {
  direct_distance : Q;
  path_distance : Q;
  duration_hours : Q;
  avg_speed_kmh : Q;
  sinuosity : Q;
  point_density : xfloat
}.

Section Haversine.
Context `{M : MathLib}.
Local Open Scope Q_scope.

Definition haversine_distance (lat1 lon1 lat2 lon2 : Q) : Q :=
  let R := 6371 in
  let lat1 := radians lat1 in
  let lon1 := radians lon1 in
  let lat2 := radians lat2 in
  let lon2 := radians lon2 in
  let dlat := lat2 - lat1 in
  let dlon := lon2 - lon1 in
  let a := sin (dlat / 2) ^ 2 + cos lat1 * cos lat2 * sin (dlon / 2) ^ 2 in
  let c := 2 * atan2 (sqrt a) (sqrt (1 - a)) in
  R * c.

(** The distance between two coordinate tuples as the callers pass them:
    [haversine_distance(p[1], p[0], q[1], q[0])]. *)
Definition haversine_between (p q : Coord) : Q :=
  haversine_distance p.2 p.1 q.2 q.1.
End Haversine.

Section Split.
Context {A T : Type}.

(** The four lists the loop of [split_path_into_segments] works on. *)
Record split_state : Type := mkSplit {
  segments : list (list A);
  segment_timestamps : list (list T);
  current_segment : list A;
  current_timestamps : list T
}.

(** One iteration of the loop. *)
Definition split_step (segment_size : Z) (st : split_state) (item : A * T)
  : split_state :=
  let '(coord, timestamp) := item in
  let current_segment' := current_segment st ++ [coord] in
  let current_timestamps' := current_timestamps st ++ [timestamp] in
  if (segment_size <=? Z.of_nat (length current_segment'))%Z then
    if (2 <=? length current_segment')%nat then
      mkSplit (segments st ++ [current_segment'])
              (segment_timestamps st ++ [current_timestamps'])
              [coord] [timestamp]
    else
      mkSplit (segments st) (segment_timestamps st) [coord] [timestamp]
  else
    mkSplit (segments st) (segment_timestamps st)
            current_segment' current_timestamps'.

Definition split_loop (segment_size : Z) (items : list (A * T)) : split_state :=
  fold_left (split_step segment_size) items (mkSplit [] [] [] []).

Definition split_path_into_segments
    (coords : list A) (timestamps : list T) (segment_size : Z)
  : list (list A) * list (list T) :=
  let st := split_loop segment_size (zip coords timestamps) in
  if (2 <=? length (current_segment st))%nat then
    (segments st ++ [current_segment st],
     segment_timestamps st ++ [current_timestamps st])
  else
    (segments st, segment_timestamps st).

(** The default [segment_size=5]. *)
Definition default_segment_size : Z := 5.
End Split.

(** [isinstance(t, str)] *)
Definition is_str (t : Timestamp) : bool :=
  match t with
  | IsoString _ => true
  | Datetime _ => false
  end.

(** [datetime.fromisoformat(t.replace('Z', '+00:00'))]; a datetime has no
    string [replace]. *)
Definition fromisoformat (t : Timestamp) : result Timestamp :=
  match t with
  | IsoString (Some s) => Ok (Datetime s)
  | IsoString None => Raise ValueError
  | Datetime _ => Raise TypeError
  end.

(** [(b - a).total_seconds()] *)
Definition seconds_between (b a : Timestamp) : result Q :=
  match b, a with
  | Datetime x, Datetime y => Ok (x - y)%Q
  | _, _ => Raise TypeError
  end.

Section Metrics.
Context `{M : MathLib}.
Local Open Scope Q_scope.

Definition calculate_segment_metrics
    (coords : list Coord) (timestamps : list Timestamp)
  : result (option SegmentMetrics) :=
  if (length coords <? 2)%nat then Ok None
  else
    t0 ← item_first timestamps;
    timestamps ← (if is_str t0 then for_each fromisoformat timestamps
                  else Ok timestamps);
    start_point ← item_first coords;
    end_point ← item_last coords;
    let direct_distance := haversine_between start_point end_point in
    let path_distance := sum_consecutive haversine_between 0 coords in
    t_end ← item_last timestamps;
    t_start ← item_first timestamps;
    seconds ← seconds_between t_end t_start;
    let duration := seconds / 3600 in
    let avg_speed := if Qgtb duration 0 then path_distance / duration else 0 in
    let sinuosity :=
      if Qgtb direct_distance 0 then path_distance / direct_distance else 1 in
    let point_density :=
      if Qgtb path_distance 0 then Finite (len coords / path_distance) else Inf in
    Ok (Some (mkSegmentMetrics direct_distance path_distance duration
                               avg_speed sinuosity point_density)).
End Metrics.

Definition MAX_WALKING_SPEED : Q := 7.
Definition MIN_POINT_DENSITY : Q := 50.
Definition MIN_SINUOSITY : Q := 1.05.

Definition is_probable_transit_segment (metrics : option SegmentMetrics) : bool :=
  match metrics with
  | None => true
  | Some metrics =>
      Qgtb (avg_speed_kmh metrics) MAX_WALKING_SPEED
      || (Qltb (sinuosity metrics) MIN_SINUOSITY
          && Qgtb (path_distance metrics) 0.5
          && xlt (point_density metrics) MIN_POINT_DENSITY)
  end.

Section Analyze.
Context `{M : MathLib} `{K : Shapely}.

(** The body of the loop over the rows of [walks_gdf]: the segments of
    one walk that are kept as walking, each with its metrics. *)
Definition walking_segments_of (row : WalkRow)
  : result (list (list Coord * SegmentMetrics)) :=
  let coords := coords (geometry row) in
  let timestamps :=
    match timestamps row with
    | None => replicate (length coords) (start_time row)
    | Some ts => ts
    end in
  let '(segments, segment_timestamps) :=
    split_path_into_segments coords timestamps default_segment_size in
  kept ← for_each
    (fun '(segment_coords, seg_timestamps) =>
       metrics ← calculate_segment_metrics segment_coords seg_timestamps;
       match metrics with
       | Some m =>
           if negb (is_probable_transit_segment (Some m))
           then Ok [(segment_coords, m)] else Ok []
       | None => Ok []
       end)
    (zip segments segment_timestamps);
  Ok (concat kept).

(** [sum(len(list(geom.coords)) - 1 for geom in ...)] *)
Definition count_steps (geoms : list (list Coord)) : Z :=
  foldr Z.add 0%Z (map (fun cs => (Z.of_nat (length cs) - 1)%Z) geoms).

Definition analyze_walks (walks_gdf : WalksFrame)
  : result (list (list Coord * SegmentMetrics)) :=
  per_row ← for_each walking_segments_of (walks_rows walks_gdf);
  let walks_filtered := concat per_row in
  let total_segments :=
    count_steps (map (fun r => coords (geometry r)) (walks_rows walks_gdf)) in
  let kept_segments := count_steps (map fst walks_filtered) in
  _ ← truediv (inject_Z kept_segments) (inject_Z total_segments);
  Ok walks_filtered.
End Analyze.

End analyze_walks.

(** ** [src/utils/geo_utils.py] *)

Module geo_utils.
Import config.

Section WithShapely.
Context `{K : Shapely}.
Local Open Scope Q_scope.

(** [path] is a GeoDataFrame; the whole body sits in a [try] whose
    [except Exception] returns [None]. *)
Definition calculate_path_metrics (path : WalksFrame) (city : string)
  : option PathMetrics :=
  try_except
    (start_cell ← item_first (map start_time (walks_rows path));
     start_time ← to_datetime start_cell;
     end_cell ← item_last (map end_time (walks_rows path));
     end_time ← to_datetime end_cell;
     let duration := end_time - start_time in
     path_geom ← item_first (map geometry (walks_rows path));
     crs ← geom_crs path_geom;
     path_geom ← (if bool_decide (crs ≠ METRIC_CRS)
                  then geom_to_crs path_geom METRIC_CRS
                  else Ok path_geom);
     let path_distance := line_length path_geom in
     start_point ← item_first (coords path_geom);
     end_point ← item_last (coords path_geom);
     let direct_distance := point_distance start_point end_point in
     let avg_speed := if Qgtb duration 0 then path_distance / duration else 0 in
     let sinuosity :=
       if Qgtb direct_distance 0 then path_distance / direct_distance else 1 in
     Ok (Some (mkPathMetrics direct_distance path_distance duration
                             avg_speed sinuosity)))
    None.

Definition reproject_geometry (geom : LineString) (source_crs target_crs : CRS)
  : LineString :=
  transform_line source_crs target_crs geom.

Definition reproject_polygon (geom : Polygon) (source_crs target_crs : CRS)
  : Polygon :=
  transform_polygon source_crs target_crs geom.

(** [crs] is the [.crs] of the walks table; pyproj rejects a missing
    one. *)
Definition create_buffer (geom : LineString) (distance : Q) (crs : option CRS)
  : result Polygon :=
  match crs with
  | None => Raise CRSError
  | Some crs =>
      let geom :=
        if bool_decide (crs ≠ METRIC_CRS)
        then reproject_geometry geom crs METRIC_CRS else geom in
      let buffered := buffer geom distance in
      Ok (if bool_decide (crs ≠ METRIC_CRS)
          then reproject_polygon buffered METRIC_CRS crs else buffered)
  end.

Definition calculate_coverage (street_geom : LineString) (walk_buffers : list Polygon)
  : result Q :=
  match walk_buffers with
  | [] => Ok 0
  | first_buffer :: others =>
      let combined_buffer := fold_left poly_union others first_buffer in
      let intersection := intersection street_geom combined_buffer in
      if is_empty intersection then Ok 0
      else
        ratio ← truediv (geom_length intersection) (line_length street_geom);
        let coverage := ratio * 100 in
        Ok (pymin coverage 100)
  end.
End WithShapely.

End geo_utils.

(** ** [src/data/walk_analyzer.py] *)

Module walk_analyzer.
Import config.

Record Stats : Type := mkStats {
  total_walks : nat;
  valid_walks : nat;
  total_streets : nat;
  covered_streets : nat;
  total_length_km : Q;
  covered_length_km : Q;
  stats_coverage_percent : Q
}.

(** The dictionary [analyze_walks] returns. *)
Record AnalysisOf (G : Type) : Type := mkAnalysis {
  result_valid_walks : list (WalkRowOf G);
  result_streets : StreetsFrameOf G;
  result_stats : Stats
}.
Arguments mkAnalysis {G} _ _ _.
Arguments result_valid_walks {G} _.
Arguments result_streets {G} _.
Arguments result_stats {G} _.
Abbreviation Analysis := (AnalysisOf LineString).

Section WithShapely.
Context `{K : Shapely}.
Local Open Scope Q_scope.

(** The part of [is_probable_transit] below the two assignments. *)
Definition transit_rule (params : CityParams) (metrics : option PathMetrics) : bool :=
  match metrics with
  | None => false
  | Some metrics =>
      if Qgtb (direct_distance metrics) (max_direct_distance params) then true
      else if Qgtb (avg_speed metrics) (max_walking_speed params * 1.2) then true
      else if Qgtb (direct_distance metrics) 2000
              && Qltb (sinuosity metrics) 1.05 then true
      else if Qltb (avg_speed metrics) (min_walking_speed params)
              && Qgtb (direct_distance metrics) 500 then true
      else false
  end.

Definition is_probable_transit (path : WalksFrame) (city : string) : result bool :=
  params ← city_params city;
  let metrics := geo_utils.calculate_path_metrics path city in
  Ok (transit_rule params metrics).

(** The first loop of [analyze_walks]: the walks that are not probable
    transit. *)
Fixpoint filter_valid_walks (crs : option CRS) (rows : list WalkRow) (city : string)
  : result (list WalkRow) :=
  match rows with
  | [] => Ok []
  | walk :: rest =>
      let walk_df := mkWalksFrame crs [walk] in
      transit ← is_probable_transit walk_df city;
      valid ← filter_valid_walks crs rest city;
      Ok (if negb transit then walk :: valid else valid)
  end.


(** [streets_gdf[streets_gdf.covered]] *)
Definition covered_rows (rows : list StreetRow) : list StreetRow :=
  filter (fun s => covered s = Some true) rows.

(** [gdf.geometry.length.sum()] *)
Definition total_line_length (rows : list StreetRow) : Q :=
  foldr Qplus 0 (map (fun s => line_length (street_geometry s)) rows).

Definition analyze_walks (walks_gdf : WalksFrame) (streets_gdf : StreetsFrame)
    (city : string) : result Analysis :=
  valid_walks ← filter_valid_walks (walks_crs walks_gdf) (walks_rows walks_gdf) city;
  valid_walks_gdf ← frame_of_rows valid_walks (walks_crs walks_gdf);
  params ← city_params city;
  let buffer_distance := buffer_distance params in
  walk_buffers ← for_each
    (fun walk => geo_utils.create_buffer (geometry walk) buffer_distance
                                         (walks_crs walks_gdf))
    valid_walks;
  rows ← for_each
    (fun street =>
       coverage ← geo_utils.calculate_coverage (street_geometry street) walk_buffers;
       Ok (set_coverage street (Qgtb coverage 0) coverage))
    (streets_rows streets_gdf);
  let total_length := total_line_length rows in
  let covered_length := total_line_length (covered_rows rows) in
  let coverage_percent :=
    if Qgtb total_length 0 then covered_length / total_length * 100 else 0 in
  Ok (mkAnalysis (walks_rows valid_walks_gdf)
        (mkStreetsFrame (streets_crs streets_gdf) rows)
        (mkStats (length (walks_rows walks_gdf)) (length (walks_rows valid_walks_gdf))
                 (length rows) (length (covered_rows rows))
                 (total_length / 1000) (covered_length / 1000)
                 coverage_percent)).
End WithShapely.

End walk_analyzer.

(** ** [src/scripts/analyze_walks_city_specific.py] *)

Module city_specific.

Definition CITY_PARAMS : gmap string CityParams :=
  {[ "london"     := mkCityParams 8 2.5 0.2 3.0 8000;
     "blacksburg" := mkCityParams 10 2.8 0.2 3.5 5000;
     "mumbai"     := mkCityParams 6 2.2 0.1 3.2 6000 ]}.

(** [CITY_PARAMS[city]] *)
Definition city_params (city : string) : result CityParams :=
  match CITY_PARAMS !! city with
  | Some p => Ok p
  | None => Raise KeyError
  end.

Section WithShapely.
Context `{K : Shapely}.
Local Open Scope Q_scope.

(** [path] is one row of the walks table. *)
Definition calculate_path_metrics (path : WalkRow) (city : string)
  : result (option PathMetrics) :=
  params ← city_params city;
  match (start_time ← to_datetime (start_time path);
         end_time ← to_datetime (end_time path);
         Ok (start_time, end_time)) with
  | Raise _ => Ok None
  | Ok (start_time, end_time) =>
      let duration := end_time - start_time in
      let coords := coords (geometry path) in
      if (length coords <? 2)%nat then Ok None
      else
        start_point ← item_first coords;
        end_point ← item_last coords;
        let direct_distance := point_distance start_point end_point in
        let path_distance := sum_consecutive point_distance 0 coords in
        let avg_speed := if Qgtb duration 0 then path_distance / duration else 0 in
        let sinuosity :=
          if Qgtb direct_distance 0 then path_distance / direct_distance else 1 in
        Ok (Some (mkPathMetrics direct_distance path_distance duration
                                avg_speed sinuosity))
  end.

(** The part of [is_probable_transit] below the two assignments. *)
Definition transit_rule (params : CityParams) (metrics : option PathMetrics) : bool :=
  match metrics with
  | None => false
  | Some metrics =>
      if Qgtb (direct_distance metrics) (max_direct_distance params) then true
      else if Qgtb (avg_speed metrics) (max_walking_speed params * 1.2) then true
      else if Qgtb (direct_distance metrics) 2000
              && Qltb (sinuosity metrics) 1.05 then true
      else if Qltb (avg_speed metrics) (min_walking_speed params)
              && Qgtb (direct_distance metrics) 500 then true
      else false
  end.

Definition is_probable_transit (path : WalkRow) (city : string) : result bool :=
  params ← city_params city;
  metrics ← calculate_path_metrics path city;
  Ok (transit_rule params metrics).

(** The inner loop over the valid walks: the covered length of one
    street. *)
Definition covered_length_of (buffer_distance : Q) (street_geom : LineString)
    (valid_walks : list WalkRow) : Q :=
  fold_left
    (fun covered_length walk =>
       let buffered_walk := buffer (geometry walk) buffer_distance in
       let intersection := intersection street_geom buffered_walk in
       if negb (is_empty intersection)
       then covered_length + geom_length intersection
       else covered_length)
    valid_walks 0.

(** The body of the loop over the streets.  [street] already has its two
    output cells (see [init_columns]). *)
Definition update_street (buffer_distance : Q) (valid_walks : list WalkRow)
    (street : StreetRow) : StreetRow :=
  let street_geom := street_geometry street in
  let covered_length := covered_length_of buffer_distance street_geom valid_walks in
  if Qgtb (line_length street_geom) 0 then
    let coverage_percent := covered_length / line_length street_geom * 100 in
    set_coverage street (Qgtb coverage_percent 0) (pymin coverage_percent 100)
  else street.

(** [if 'covered' not in streets.columns: streets['covered'] = False],
    and the same for [coverage_percent] with [0.0]. *)
Definition init_columns (street : StreetRow) : StreetRow :=
  mkStreetRow (street_id street) (street_geometry street)
              (Some (default false (covered street)))
              (Some (default 0 (coverage_percent street))).

Fixpoint filter_valid_walks (rows : list WalkRow) (city : string)
  : result (list WalkRow) :=
  match rows with
  | [] => Ok []
  | walk :: rest =>
      transit ← is_probable_transit walk city;
      valid ← filter_valid_walks rest city;
      Ok (if negb transit then walk :: valid else valid)
  end.

Definition analyze_walks (walks_gdf : WalksFrame) (streets_gdf : StreetsFrame)
    (city : string) : result (StreetsFrame * WalksFrame) :=
  params ← city_params city;
  let streets := map init_columns (streets_rows streets_gdf) in
  valid_walks ← filter_valid_walks (walks_rows walks_gdf) city;
  let valid_walks_gdf := mkWalksFrame (walks_crs walks_gdf) valid_walks in
  let streets := map (update_street (buffer_distance params) valid_walks) streets in
  Ok (mkStreetsFrame (streets_crs streets_gdf) streets, valid_walks_gdf).
End WithShapely.

End city_specific.

(** ** [src/scripts/match_walks_to_streets.py] *)

Module match_walks.

Section WithShapely.
Context `{K : Shapely}.
Local Open Scope Q_scope.

(** The walk buffers: the walks in the streets' CRS, projected to Web
    Mercator, buffered, and brought back to the streets' CRS. *)
Definition make_buffers (walks_gdf : WalksFrame) (streets_crs : option CRS)
    (buffer_distance : Q) : result (list Polygon) :=
  walks_gdf ← (if bool_decide (walks_crs walks_gdf ≠ streets_crs)
               then walks_to_crs walks_gdf streets_crs
               else Ok walks_gdf);
  walks_projected ← walks_to_crs walks_gdf (Some "EPSG:3857"%string);
  let walks_buffer :=
    map (fun w => buffer (geometry w) buffer_distance) (walks_rows walks_projected) in
  match streets_crs with
  | None => Raise ValueError
  | Some crs => Ok (map (transform_polygon "EPSG:3857" crs) walks_buffer)
  end.

(** The inner loop over the intersecting buffers. *)
Definition covered_length_of (street_geom : LineString)
    (intersecting_buffers : list Polygon) : Q :=
  fold_left
    (fun covered_length walk_buffer =>
       let intersection := intersection street_geom walk_buffer in
       if negb (is_empty intersection) then
         if is_lineal intersection
         then covered_length + geom_length intersection
         else covered_length
       else covered_length)
    intersecting_buffers 0.

(** The body of the loop over the streets; [street] has its two output
    cells initialised to [False] and [0.0]. *)
Definition match_street (walks_buffer : list Polygon) (street : StreetRow)
  : result StreetRow :=
  let street_geom := street_geometry street in
  let intersecting_buffers :=
    filter (fun b => intersects b street_geom = true) walks_buffer in
  if negb (bool_decide (intersecting_buffers = [])) then
    let covered_length := covered_length_of street_geom intersecting_buffers in
    ratio ← truediv covered_length (line_length street_geom);
    let coverage_percent := pymin 100 (ratio * 100) in
    Ok (set_coverage street true coverage_percent)
  else Ok street.

Definition match_walks_to_streets (walks_gdf : WalksFrame)
    (streets_gdf : StreetsFrame) (buffer_distance : Q) : result StreetsFrame :=
  if bool_decide (walks_rows walks_gdf = []) || bool_decide (streets_rows streets_gdf = [])
  then Ok streets_gdf
  else
    walks_buffer ← make_buffers walks_gdf (streets_crs streets_gdf) buffer_distance;
    let streets_result :=
      map (fun s => set_coverage s false 0) (streets_rows streets_gdf) in
    rows ← for_each (match_street walks_buffer) streets_result;
    Ok (mkStreetsFrame (streets_crs streets_gdf) rows).

(** The default [buffer_distance=5]. *)
Definition default_buffer_distance : Q := 5.
End WithShapely.

End match_walks.

(** ** The city-specific metrics in double precision

    The numbers of the program are IEEE 754 doubles, which the definitions
    above idealise as rationals.  Here the arithmetic of
    [calculate_path_metrics] of [analyze_walks_city_specific.py] is written
    over the kernel's binary64 floats, every operation in the place where
    the source performs it.  [Point(a).distance(Point(b))] is the
    Euclidean distance as GEOS computes it, [sqrt(dx*dx + dy*dy)]. *)

Module binary64.
Import Floats.PrimFloat.
Local Open Scope float_scope.

Definition Coord : Type := float * float.

Record PathMetrics : Type := mkPathMetrics {
  direct_distance : float;
  path_distance : float;
  duration : float;
  avg_speed : float;
  sinuosity : float
}.

Definition point_distance (a b : Coord) : float :=
  let dx := a.1 - b.1 in
  let dy := a.2 - b.2 in
  sqrt (dx * dx + dy * dy).

(** [for i in range(len(coords) - 1): path_distance += p1.distance(p2)] *)
Fixpoint sum_consecutive (total : float) (cs : list Coord) : float :=
  match cs with
  | a :: (b :: _) as rest => sum_consecutive (total + point_distance a b) rest
  | _ => total
  end.

(** [duration] is what [(end_time - start_time).total_seconds()] gives,
    [None] when one of the two times cannot be parsed; [coords] are the
    coordinates of the geometry. *)
Definition calculate_path_metrics (duration : option float) (coords : list Coord)
    (city : string) : result (option PathMetrics) :=
  params ← city_specific.city_params city;
  match duration with
  | None => Ok None
  | Some duration =>
      if (length coords <? 2)%nat then Ok None
      else
        start_point ← item_first coords;
        end_point ← item_last coords;
        let direct_distance := point_distance start_point end_point in
        let path_distance := sum_consecutive 0 coords in
        let avg_speed := if 0 <? duration then path_distance / duration else 0 in
        let sinuosity :=
          if 0 <? direct_distance then path_distance / direct_distance else 1 in
        Ok (Some (mkPathMetrics direct_distance path_distance duration
                                avg_speed sinuosity))
  end.

End binary64.

(** ** [src/data/tcx_processor.py] *)

Module tcx_processor.
Import config.

(** A [datetime]: an instant in seconds, and whether it carries a time
    zone.  Python refuses to subtract an aware and a naive datetime. *)
Record Moment : Type := mkMoment {
  instant : Q;
  aware : bool
}.

(** [(b - a).total_seconds()] *)
Definition seconds_from (b a : Moment) : result Q :=
  if eqb (aware b) (aware a) then Ok (instant b - instant a)%Q else Raise TypeError.

(** What the parser reads of a TCX document.  An element that may be
    missing is an [option]; the text of an element is kept as the value
    that the conversion applied to it returns ([datetime.fromisoformat]
    after the replacement of [Z], or [float]), [None] when the conversion
    raises. *)
Record Position : Type := mkPosition {
  LatitudeDegrees : option (option Q);
  LongitudeDegrees : option (option Q)
}.

Record Trackpoint : Type := mkTrackpoint {
  Time : option (option Moment);
  position : option Position
}.

(** [activity] is the first [Activity] element with its [Sport] attribute,
    [trackpoints] are all the [Trackpoint] elements in document order. *)
Record Document : Type := mkDocument {
  activity : option (option string);
  trackpoints : list Trackpoint
}.

(** The dictionary [parse_tcx_file] returns. *)
Record WalkDataOf (G : Type) : Type := mkWalkData {
  walk_geometry : G;
  walk_start_time : Moment;
  walk_end_time : Moment;
  walk_source_file : string
}.
Arguments mkWalkData {G} _ _ _ _.
Arguments walk_geometry {G} _.
Arguments walk_start_time {G} _.
Arguments walk_end_time {G} _.
Arguments walk_source_file {G} _.
Abbreviation WalkData := (WalkDataOf LineString).

(** A conversion of an element's text. *)
Definition converted {A} (text : option A) : result A :=
  match text with
  | Some a => Ok a
  | None => Raise ValueError
  end.

(** The body of the loop over the trackpoints: the entry appended to
    [trackpoints], if any. *)
Definition read_trackpoint (trackpoint : Trackpoint) : result (list (Moment * Q * Q)) :=
  match Time trackpoint, position trackpoint with
  | Some time, Some position =>
      match LatitudeDegrees position, LongitudeDegrees position with
      | Some lat, Some lon =>
          time ← converted time;
          lat ← converted lat;
          lon ← converted lon;
          Ok [(time, lat, lon)]
      | _, _ => Ok []
      end
  | _, _ => Ok []
  end.

Section WithShapely.
Context `{K : Shapely}.
(** The constructor [LineString(coords)]. *)
Variable make_line : list Coord -> LineString.
Local Open Scope Q_scope.

(** [name] is the last component of [file_path], and [file] the document
    at that path, [None] when [ET.parse] raises.  The whole body sits in a
    [try] whose [except Exception] returns [None]. *)
Definition parse_tcx_file (name : string) (file : option Document) : option WalkData :=
  try_except
    (root ← converted file;
     match activity root with
     | None => Ok None
     | Some activity_type =>
         if bool_decide (activity_type ≠ Some "Walking"%string) then Ok None
         else
           read ← for_each read_trackpoint (trackpoints root);
           let trackpoints := concat read in
           if (length trackpoints <? 2)%nat then Ok None
           else
             let coords := map (fun tp => (tp.2, tp.1.2)) trackpoints in
             let times := map (fun tp => tp.1.1) trackpoints in
             start_time ← item_first times;
             end_time ← item_last times;
             Ok (Some (mkWalkData (make_line coords) start_time end_time name))
     end)
    None.

(** The body of the loop over the files: the entry appended to [walks],
    if any. *)
Definition keep_walk (entry : string * option Document) : result (list WalkData) :=
  match parse_tcx_file entry.1 entry.2 with
  | Some walk_data =>
      duration ← seconds_from (walk_end_time walk_data) (walk_start_time walk_data);
      let distance := line_length (walk_geometry walk_data) in
      if Qle_bool MIN_WALK_DURATION duration && Qle_bool MIN_WALK_DISTANCE distance
      then Ok [walk_data] else Ok []
  | None => Ok []
  end.

(** The row of the GeoDataFrame built from a dictionary. *)
Definition walk_row (walk_data : WalkData) : WalkRow :=
  mkWalkRow (Datetime (instant (walk_start_time walk_data)))
            (Datetime (instant (walk_end_time walk_data)))
            (walk_source_file walk_data) (walk_geometry walk_data) None.

(** [tcx_files] is what [Path(directory).glob('*.tcx')] lists: the names
    of the files and their documents. *)
Definition process_tcx_files (tcx_files : list (string * option Document))
  : result WalksFrame :=
  kept ← for_each keep_walk tcx_files;
  let walks := concat kept in
  if bool_decide (walks = []) then Ok (mkWalksFrame None [])
  else Ok (mkWalksFrame (Some DEFAULT_CRS) (map walk_row walks)).

End WithShapely.

End tcx_processor.

(** ** An executable geometry: unit cells on a line

    All geometries lie on the x axis and have integer vertices.  The axis is
    cut into atoms: the atom [2k] is the vertex at [x = k], the atom [2k+1]
    the open unit segment between [x = k] and [x = k+1].  A geometry is the
    finite set of atoms it covers; its length is the number of unit segments
    among them.  A line is kept as the list of its vertices, like the
    coordinate sequence of a shapely LineString.  The distance between two
    points is the sum of their coordinate differences, which for points of
    the axis is the Euclidean distance; a buffer reaches as far as the whole
    units of its radius; and all reference systems coincide, so that a
    transformation changes nothing. *)

Module Cells.

(** The atoms of the closed segment between the vertices [a] and [b]. *)
Definition span (a b : Z) : gset Z :=
  list_to_set (seqZ (2 * Z.min a b) (2 * Z.abs (b - a) + 1)).

(** The atoms of a polyline. *)
Fixpoint cells (line : list Z) : gset Z :=
  match line with
  | [] => ∅
  | [a] => {[ (2 * a)%Z ]}
  | a :: (b :: _) as rest => span a b ∪ cells rest
  end.

(** The length of a polyline: the sum of its steps. *)
Fixpoint polyline_length (line : list Z) : Z :=
  match line with
  | a :: (b :: _) as rest => (Z.abs (b - a) + polyline_length rest)%Z
  | _ => 0%Z
  end.

(** All atoms within [r] units of a set of atoms. *)
Definition dilate (r : Z) (s : gset Z) : gset Z :=
  list_to_set (concat (map (fun a => seqZ (a - 2 * r) (4 * r + 1)) (elements s))).

Definition is_edge (a : Z) : bool := Z.odd a.

(** A lineal geometry is not empty and each of its vertices ends one of
    its unit segments; an isolated vertex makes it a point or a
    collection. *)
Definition lineal (g : gset Z) : bool :=
  negb (bool_decide (g = ∅))
  && forallb (fun a => is_edge a
                       || bool_decide ((a - 1)%Z ∈ g)
                       || bool_decide ((a + 1)%Z ∈ g))
             (elements g).

#[export] Instance kernel : Shapely := {|
  LineString := list Z;
  Polygon := gset Z;
  Geometry := gset Z;
  coords := map (fun x => (inject_Z x, 0%Q));
  line_length := fun s => inject_Z (polyline_length s);
  point_distance := fun p q => (Qabs (p.1 - q.1) + Qabs (p.2 - q.2))%Q;
  buffer := fun s d => dilate (Qfloor d) (cells s);
  poly_union := fun a b => a ∪ b;
  intersects := fun p s => bool_decide (cells s ∩ p ≠ ∅);
  intersection := fun s p => cells s ∩ p;
  is_empty := fun g => bool_decide (g = ∅);
  is_lineal := lineal;
  geom_length := fun g => inject_Z (Z.of_nat (size (filter (fun a => is_edge a = true) g)));
  transform_line := fun _ _ s => s;
  transform_polygon := fun _ _ p => p
|}.

End Cells.

(** ** A stand-in [math] module

    With [cos] constantly [0] the longitude term of the haversine formula
    vanishes, and with the small-angle readings [sin x = x] and
    [atan2 y x = y] the formula gives [R * |lat2 - lat1|], the length of the
    meridian arc between two latitudes given in radians.  [sqrt] is exact on
    the squares of rationals, which is all the formula asks of it here. *)

Module Meridian.

Definition rational_sqrt (q : Q) : Q :=
  Z.sqrt (Qnum q) # Z.to_pos (Z.sqrt (Zpos (Qden q))).

#[export] Instance math : MathLib := {|
  radians := fun x => x;
  sin := fun x => x;
  cos := fun _ => 0%Q;
  sqrt := rational_sqrt;
  atan2 := fun y _ => y
|}.

End Meridian.

(** ** The vocabulary of the properties *)

Section Conditions.
Local Open Scope Q_scope.

(** The four conditions of the trajectory-level decision rule. *)
Definition transit_conditions (params : CityParams) (m : PathMetrics) : Prop :=
  max_direct_distance params < direct_distance m
  \/ max_walking_speed params * 1.2 < avg_speed m
  \/ (2000 < direct_distance m /\ sinuosity m < 1.05)
  \/ (avg_speed m < min_walking_speed params /\ 500 < direct_distance m).

(** The two conditions of the segment-level rule. *)
Definition segment_conditions (m : analyze_walks.SegmentMetrics) : Prop :=
  analyze_walks.MAX_WALKING_SPEED < analyze_walks.avg_speed_kmh m
  \/ (analyze_walks.sinuosity m < 1.05
      /\ 0.5 < analyze_walks.path_distance m
      /\ exists d, analyze_walks.point_density m = Finite d
                   /\ d < analyze_walks.MIN_POINT_DENSITY).

(** What the metrics promise about the sinuosity, given the direct and the
    path distance. *)
Definition sinuosity_ok (direct path sinuosity : Q) : Prop :=
  (0 < direct -> direct <= path /\ 1 <= sinuosity)
  /\ (direct == 0 -> sinuosity = 1).

(** A percentage. *)
Definition percent (v : Q) : Prop := 0 <= v /\ v <= 100.

(** The street comes without coverage columns, or with their initial
    values [False] and [0.0]. *)
Definition starts_uncovered `{K : Shapely} (street : StreetRow) : Prop :=
  default false (covered street) = false
  /\ default 0 (coverage_percent street) == 0.

End Conditions.

Section Runs.
Context {X : Type}.

(** What one iteration does to the finished segments and the current run of
    one of the two sequences. *)
Definition step1 (N : Z) (s : list (list X) * list X) (x : X)
  : list (list X) * list X :=
  let cur' := s.2 ++ [x] in
  if (N <=? Z.of_nat (length cur'))%Z then
    if (2 <=? length cur')%nat then (s.1 ++ [cur'], [x]) else (s.1, [x])
  else (s.1, cur').

(** Each run starts with the last point of the run before it. *)
Fixpoint chained (l : list (list X)) : Prop :=
  match l with
  | s :: (s' :: _) as rest => last s = head s' /\ chained rest
  | _ => True
  end.

(** The runs put back together, the shared points taken once. *)
Definition join (l : list (list X)) : list X :=
  match l with
  | [] => []
  | s :: rest => s ++ concat (map (drop 1) rest)
  end.

(** The state of the loop after the points [done]: [n] is the segment
    size. *)
Record split_inv (n : nat) (done : list X) (s : list (list X) * list X) : Prop := {
  inv_full : Forall (fun run => length run = n) s.1;
  inv_short : length s.2 < n;
  inv_nonempty : s.2 = [] -> s.1 = [];
  inv_chained : chained (s.1 ++ [s.2]);
  inv_join : join (s.1 ++ [s.2]) = done
}.

End Runs.

Section Lockstep.
Import analyze_walks.

(** The two halves of the state grow in step. *)
Definition in_step {A T : Type} (st : split_state (A:=A) (T:=T)) : Prop :=
  Forall2 (fun s t => length s = length t) (segments st) (segment_timestamps st)
  /\ length (current_segment st) = length (current_timestamps st).

(** Every point of the state satisfies [P] and every timestamp [R]. *)
Definition all_from {A T : Type} (P : A -> Prop) (R : T -> Prop)
    (st : split_state (A:=A) (T:=T)) : Prop :=
  Forall (Forall P) (segments st) /\ Forall (Forall R) (segment_timestamps st)
  /\ Forall P (current_segment st) /\ Forall R (current_timestamps st).

End Lockstep.

(** The timestamps [walking_segments_of] works with. *)
Definition row_timestamps `{K : Shapely} (row : WalkRow) : list Timestamp :=
  match timestamps row with
  | None => replicate (length (coords (geometry row))) (start_time row)
  | Some ts => ts
  end.

Section Pairs.
Context {X : Type}.

(** The pairs of neighbours of a sequence: [[x0; x1]; [x1; x2]; ...]. *)
Fixpoint pairs (l : list X) : list (list X) :=
  match l with
  | a :: (b :: _) as rest => [a; b] :: pairs rest
  | _ => []
  end.

End Pairs.

Section Tables.
Context {G : Type}.

(** Two street tables with the same reference system and the same
    identifiers and geometries, row by row; the coverage columns may
    differ. *)
Definition same_streets (a b : StreetsFrameOf G) : Prop :=
  streets_crs a = streets_crs b
  /\ map street_id (streets_rows a) = map street_id (streets_rows b)
  /\ map street_geometry (streets_rows a) = map street_geometry (streets_rows b).


End Tables.

(** The columns of a walk that the city-specific analysis carries over to
    its table of valid walks. *)
Definition walk_columns {G : Type} (walk : WalkRowOf G)
  : Timestamp * Timestamp * string * G :=
  (start_time walk, end_time walk, source_file walk, geometry walk).

(** A walk that the city-specific classifier does not take for transit. *)
Definition is_walk `{K : Shapely} (city : string) (walk : WalkRow) : bool :=
  match city_specific.is_probable_transit walk city with
  | Ok false => true
  | _ => false
  end.

(** The thresholds of a city that the trajectory rule reads. *)
Definition rule_thresholds (params : CityParams) : Q * Q * Q :=
  (max_direct_distance params, max_walking_speed params, min_walking_speed params).

Section Trackpoints.
Import tcx_processor.
Local Open Scope Q_scope.

(** The entry of a trackpoint that has a time and a position with both
    coordinates, all of which convert. *)
Definition fix_of (trackpoint : Trackpoint) : option (Moment * Q * Q) :=
  time ← Time trackpoint;
  position ← position trackpoint;
  lat ← LatitudeDegrees position;
  lon ← LongitudeDegrees position;
  time ← time; lat ← lat; lon ← lon;
  Some (time, lat, lon).

(** A trackpoint without a time, without a position, or without one of
    the two coordinates. *)
Definition incomplete (trackpoint : Trackpoint) : Prop :=
  Time trackpoint = None
  \/ position trackpoint = None
  \/ exists position,
       tcx_processor.position trackpoint = Some position
       /\ (LatitudeDegrees position = None \/ LongitudeDegrees position = None).

(** A trackpoint that has all its elements, one of which does not
    convert. *)
Definition malformed (trackpoint : Trackpoint) : Prop :=
  exists time position lat lon,
    Time trackpoint = Some time
    /\ tcx_processor.position trackpoint = Some position
    /\ LatitudeDegrees position = Some lat
    /\ LongitudeDegrees position = Some lon
    /\ (time = None \/ lat = None \/ lon = None).

(** A walk of at least a minute and at least 100 units of length. *)
Definition long_enough `{K : Shapely} (walk_data : WalkData) : Prop :=
  60 <= instant (walk_end_time walk_data) - instant (walk_start_time walk_data)
  /\ 100 <= line_length (walk_geometry walk_data).

(** All the times of a document carry a time zone. *)
Definition all_aware (file : option Document) : Prop :=
  forall root trackpoint moment,
    file = Some root -> trackpoint ∈ trackpoints root ->
    Time trackpoint = Some (Some moment) -> aware moment = true.

End Trackpoints.

(** ** Sample inputs

    Concrete walks, segments and streets on which the functions above are
    run. *)

Module Samples.
Import Cells Meridian.

Definition london : CityParams := mkCityParams 8 2.5 0.2 3.0 8000.

(** A straight 3 km walk along the axis, covered in 1800 s. *)
Definition straight_walk : WalkRow :=
  mkWalkRow (Datetime 0) (Datetime 1800) "walk.tcx" [0; 3000]%Z None.

Definition straight_walk_metrics : PathMetrics :=
  Eval vm_compute in
    match city_specific.calculate_path_metrics straight_walk "london" with
    | Ok (Some m) => m
    | _ => mkPathMetrics 0 0 0 0 0
    end.

(** Three fixes on a meridian, a few metres apart, one every ten
    seconds. *)
Definition short_segment : list Coord :=
  [(0, 0); (0, 1 # 1000000); (0, 3 # 1000000)]%Q.
Definition short_segment_times : list Timestamp :=
  [Datetime 0; Datetime 10; Datetime 20].

Definition short_segment_metrics : analyze_walks.SegmentMetrics :=
  Eval vm_compute in
    match analyze_walks.calculate_segment_metrics short_segment short_segment_times with
    | Ok (Some m) => m
    | _ => analyze_walks.mkSegmentMetrics 0 0 0 0 0 Inf
    end.

(** A walk whose start time is not a date. *)
Definition garbled_walk : WalkRow :=
  mkWalkRow (IsoString None) (Datetime 1800) "broken.tcx" [0; 3000]%Z None.

(** One degree of longitude along the equator (about 111 km), in an hour:
    the coordinates are degrees, as in a table read from GeoJSON. *)
Definition degree_walk : WalkRow :=
  mkWalkRow (Datetime 0) (Datetime 3600) "drive.tcx" [0; 1]%Z None.

Definition degree_walk_metrics : PathMetrics :=
  Eval vm_compute in
    match city_specific.calculate_path_metrics degree_walk "london" with
    | Ok (Some m) => m
    | _ => mkPathMetrics 0 0 0 0 0
    end.

(** A stroll of 10 m in 20 s and a ride of 40 m in 2 s. *)
Definition stroll : WalkRow :=
  mkWalkRow (Datetime 0) (Datetime 20) "stroll.tcx" [0; 10]%Z None.
Definition ride : WalkRow :=
  mkWalkRow (Datetime 100) (Datetime 102) "ride.tcx" [20; 60]%Z None.

Definition sample_walks : WalksFrame :=
  mkWalksFrame (Some "EPSG:4326") [stroll; ride].

(** Four streets: one under the stroll, one under the ride, one that the
    buffer of the stroll only touches at its end point (buffer distance 8),
    and one far away. *)
Definition sample_streets : StreetsFrame :=
  mkStreetsFrame (Some "EPSG:4326")
    [ mkStreetRow 1 [0; 10]%Z None None;
      mkStreetRow 2 [30; 35]%Z None None;
      mkStreetRow 3 [18; 19]%Z None None;
      mkStreetRow 4 [100; 110]%Z None None ].

(** What [walk_analyzer.analyze_walks] returns for them in London. *)
Definition sample_analysis : walk_analyzer.Analysis :=
  walk_analyzer.mkAnalysis
    [stroll; ride]
    (mkStreetsFrame (Some "EPSG:4326")
       [ mkStreetRow 1 [0; 10]%Z (Some true) (Some 100.0%Q);
         mkStreetRow 2 [30; 35]%Z (Some true) (Some (500 # 5)%Q);
         mkStreetRow 3 [18; 19]%Z (Some true) (Some 100%Q);
         mkStreetRow 4 [100; 110]%Z (Some false) (Some 0%Q) ])
    (walk_analyzer.mkStats 2 2 4 3 0.026 0.016 (1600 # 26)).

(** The stroll alone, and three streets of their own tables: one that the
    buffer of the stroll (8 m) only touches, at the vertex 18; one of length
    zero under the stroll; and one under the stroll. *)
Definition stroll_only : WalksFrame := mkWalksFrame (Some "EPSG:4326") [stroll].

Definition touched_street : StreetRow := mkStreetRow 3 [18; 19]%Z None None.
Definition touched_streets : StreetsFrame :=
  mkStreetsFrame (Some "EPSG:4326") [touched_street].

Definition point_street : StreetRow := mkStreetRow 5 [5; 5]%Z None None.
Definition point_streets : StreetsFrame :=
  mkStreetsFrame (Some "EPSG:4326") [point_street].

Definition walked_street : StreetRow := mkStreetRow 1 [0; 10]%Z None None.

(** The buffers of the stroll and of a second walk over the same ground. *)
Definition stroll_buffer : Polygon := buffer [0; 10]%Z 8.
Definition overlapping_buffers : list Polygon := [stroll_buffer; buffer [5; 15]%Z 8].

End Samples.

(** ** Sample outputs

    What the three coverage functions return for the stroll and the street
    that its buffer only touches. *)

Module Outputs.
Import Cells Samples.

Definition touched_analysis : walk_analyzer.Analysis :=
  walk_analyzer.mkAnalysis
    [stroll]
    (mkStreetsFrame (Some "EPSG:4326") [mkStreetRow 3 [18; 19]%Z (Some false) (Some 0%Q)])
    (walk_analyzer.mkStats 1 1 1 0 0.001 (0 # 1000) 0).

Definition touched_matched : StreetsFrame :=
  mkStreetsFrame (Some "EPSG:4326") [mkStreetRow 3 [18; 19]%Z (Some true) (Some 0%Q)].

Definition touched_updated : StreetsFrame :=
  mkStreetsFrame (Some "EPSG:4326") [mkStreetRow 3 [18; 19]%Z (Some false) (Some 0%Q)].

(** What the city-specific [analyze_walks] returns for the sample streets
    and walks in London, where only the stroll is a valid walk. *)
Definition sample_updated : StreetsFrame :=
  mkStreetsFrame (Some "EPSG:4326")
    [ mkStreetRow 1 [0; 10]%Z (Some true) (Some 100.0%Q);
      mkStreetRow 2 [30; 35]%Z (Some false) (Some (0 # 5)%Q);
      mkStreetRow 3 [18; 19]%Z (Some false) (Some 0%Q);
      mkStreetRow 4 [100; 110]%Z (Some false) (Some 0.0%Q) ].

End Outputs.

(** ** A straight path in double precision *)

Module Straight.
Import Floats.PrimFloat.

(** Three points on one straight line, in a projected reference system,
    walked in ten minutes. *)
Definition collinear_path : list binary64.Coord :=
  [(0, 0); (24, 39); (216, 351)]%float.

Definition ten_minutes : float := 600%float.

Definition collinear_metrics : binary64.PathMetrics :=
  match binary64.calculate_path_metrics (Some ten_minutes) collinear_path "london" with
  | Ok (Some m) => m
  | _ => binary64.mkPathMetrics 0 0 0 0 0
  end.

End Straight.

(** ** Sample TCX documents *)

Module Tracks.
Import Cells tcx_processor.

(** On the axis of the unit cells a line is made of the floors of the
    first coordinates. *)
Definition axis_line (coords : list Coord) : list Z := map (fun c => Qfloor c.1) coords.

Definition fix_at (seconds lon : Q) : Trackpoint :=
  mkTrackpoint (Some (Some (mkMoment seconds true)))
               (Some (mkPosition (Some (Some 0%Q)) (Some (Some lon)))).

(** A trackpoint without a position, and one whose latitude is not a
    number. *)
Definition no_position : Trackpoint :=
  mkTrackpoint (Some (Some (mkMoment 60 true))) None.
Definition bad_latitude : Trackpoint :=
  mkTrackpoint (Some (Some (mkMoment 60 true)))
               (Some (mkPosition (Some None) (Some (Some 75%Q)))).

(** A walk of 150 m in two minutes, with and without the trackpoint that
    has no position; a walk of 150 m in half a minute; and a run. *)
Definition long_walk : Document :=
  mkDocument (Some (Some "Walking")) [fix_at 0 0; no_position; fix_at 120 150].
Definition long_walk_fixes : Document :=
  mkDocument (Some (Some "Walking")) [fix_at 0 0; fix_at 120 150].
Definition quick_walk : Document :=
  mkDocument (Some (Some "Walking")) [fix_at 0 0; fix_at 30 150].
Definition run : Document :=
  mkDocument (Some (Some "Running")) [fix_at 0 0; fix_at 120 150].

(** A walk whose first time carries a time zone and whose last time does
    not. *)
Definition mixed_walk : Document :=
  mkDocument (Some (Some "Walking"))
    [fix_at 0 0;
     mkTrackpoint (Some (Some (mkMoment 120 false)))
                  (Some (mkPosition (Some (Some 0%Q)) (Some (Some 150%Q))))].

Definition long_walk_data : WalkData :=
  mkWalkData [0; 150]%Z (mkMoment 0 true) (mkMoment 120 true) "long.tcx".

Definition tcx_files : list (string * option Document) :=
  [("long.tcx", Some long_walk); ("quick.tcx", Some quick_walk);
   ("run.tcx", Some run); ("broken.tcx", None)]%string.

Definition processed : WalksFrame :=
  mkWalksFrame (Some "EPSG:4326")
    [mkWalkRow (Datetime 0) (Datetime 120) "long.tcx" [0; 150]%Z None].

End Tracks.

(** * Properties *)

Import Samples.

(** ** Comparisons, [min] and the exception monad *)

Section Comparisons.
Local Open Scope Q_scope.

Lemma Qgtb_true (a b : Q) : Qgtb a b = true <-> b < a.
Proof.
  unfold Qgtb. rewrite negb_true_iff, <- not_true_iff_false, Qle_bool_iff.
  split; [apply Qnot_le_lt | apply Qlt_not_le].
Qed.

Lemma Qgtb_false (a b : Q) : Qgtb a b = false <-> a <= b.
Proof. unfold Qgtb. rewrite negb_false_iff. apply Qle_bool_iff. Qed.

Lemma Qltb_true (a b : Q) : Qltb a b = true <-> a < b.
Proof. apply Qgtb_true. Qed.

Lemma Qltb_false (a b : Q) : Qltb a b = false <-> b <= a.
Proof. apply Qgtb_false. Qed.

Lemma xlt_true (a : xfloat) (b : Q) :
  xlt a b = true <-> exists q, a = Finite q /\ q < b.
Proof.
  destruct a as [q|]; simpl.
  - rewrite Qltb_true. split; [eauto | intros (q' & [= <-] & ?); done].
  - split; [done | intros (q & ? & _); done].
Qed.

Lemma pymin_le_l (a b : Q) : pymin a b <= a.
Proof.
  unfold pymin. destruct (Qltb b a) eqn:E.
  - apply Qltb_true in E. by apply Qlt_le_weak.
  - apply Qle_refl.
Qed.

Lemma pymin_le_r (a b : Q) : pymin a b <= b.
Proof.
  unfold pymin. destruct (Qltb b a) eqn:E.
  - apply Qle_refl.
  - by apply Qltb_false in E.
Qed.

Lemma pymin_glb (a b c : Q) : c <= a -> c <= b -> c <= pymin a b.
Proof. unfold pymin. by destruct (Qltb b a). Qed.

Lemma truediv_Ok (a b q : Q) : truediv a b = Ok q -> ~ b == 0 /\ q = a / b.
Proof.
  unfold truediv. destruct (Qeq_bool b 0) eqn:E; [done|].
  intros [= <-]. split; [|done].
  intros Hb. apply Qeq_bool_iff in Hb. congruence.
Qed.

Lemma truediv_nonzero (a b : Q) : ~ b == 0 -> truediv a b = Ok (a / b).
Proof.
  intros Hb. unfold truediv. destruct (Qeq_bool b 0) eqn:E; [|done].
  by apply Qeq_bool_iff in E.
Qed.

Lemma truediv_zero (a b : Q) : b == 0 -> truediv a b = Raise ZeroDivisionError.
Proof.
  intros Hb. unfold truediv. by apply Qeq_bool_iff in Hb as ->.
Qed.

Lemma Qdiv_nonneg (a b : Q) : 0 <= a -> 0 <= b -> 0 <= a / b.
Proof.
  intros Ha Hb. apply Qmult_le_0_compat; [done | by apply Qinv_le_0_compat].
Qed.

End Comparisons.

Lemma bind_Ok {A B} (r : result A) (f : A -> result B) (b : B) :
  r ≫= f = Ok b -> exists a, r = Ok a /\ f a = Ok b.
Proof. destruct r as [a|e]; [eauto | done]. Qed.

Lemma for_each_Ok {A B} (f : A -> result B) (xs : list A) (ys : list B) :
  for_each f xs = Ok ys -> Forall2 (fun x y => f x = Ok y) xs ys.
Proof.
  revert ys. induction xs as [|x xs IH]; intros ys; simpl.
  - intros [= <-]. constructor.
  - intros (y & Hy & H)%bind_Ok. apply bind_Ok in H as (ys' & Hys & [= <-]).
    constructor; auto.
Qed.

Lemma for_each_total {A B} (f : A -> result B) (xs : list A) :
  (forall x, x ∈ xs -> exists y, f x = Ok y) -> exists ys, for_each f xs = Ok ys.
Proof.
  induction xs as [|x xs IH]; intros Hf; simpl; [eauto|].
  destruct (Hf x) as [y ->]; [left|]. simpl.
  destruct IH as [ys ->]; [intros; apply Hf; by right|]. simpl. eauto.
Qed.

Lemma frame_of_rows_Ok {G} (rows : list (WalkRowOf G)) (crs : option CRS)
    (frame : WalksFrameOf G) :
  frame_of_rows rows crs = Ok frame -> frame = mkWalksFrame crs rows.
Proof. destruct rows, crs; simpl; congruence. Qed.

(** ** The transit classifier *)

Section Classifier.
Local Open Scope Q_scope.

Ltac split_rule :=
  repeat match goal with
  | |- context [Qgtb ?a ?b] =>
      let E := fresh "E" in
      destruct (Qgtb a b) eqn:E;
      [apply Qgtb_true in E | apply Qgtb_false in E]
  | |- context [Qltb ?a ?b] =>
      let E := fresh "E" in
      destruct (Qltb a b) eqn:E;
      [apply Qltb_true in E | apply Qltb_false in E]
  end; simpl.

Ltac refute_rule :=
  repeat match goal with
  | H : _ \/ _ |- _ => destruct H as [H|H]
  | H : _ /\ _ |- _ => destruct H as [? ?]
  | H1 : ?a <= ?b, H2 : ?b < ?a |- _ =>
      exact (False_ind _ (Qlt_not_le _ _ H2 H1))
  end.

Lemma city_transit_rule_spec (params : CityParams) (m : PathMetrics) :
  city_specific.transit_rule params (Some m) = true <-> transit_conditions params m.
Proof.
  unfold city_specific.transit_rule, transit_conditions.
  split_rule; split; intros H; try done; try (by auto 6); refute_rule.
Qed.

Lemma walk_analyzer_transit_rule_spec (params : CityParams) (m : PathMetrics) :
  walk_analyzer.transit_rule params (Some m) = true <-> transit_conditions params m.
Proof.
  unfold walk_analyzer.transit_rule, transit_conditions.
  split_rule; split; intros H; try done; try (by auto 6); refute_rule.
Qed.

Lemma segment_rule_spec (m : analyze_walks.SegmentMetrics) :
  analyze_walks.is_probable_transit_segment (Some m) = true <-> segment_conditions m.
Proof.
  unfold analyze_walks.is_probable_transit_segment, segment_conditions.
  rewrite orb_true_iff, !andb_true_iff, Qgtb_true, Qltb_true, Qgtb_true, xlt_true.
  unfold analyze_walks.MIN_SINUOSITY. tauto.
Qed.

End Classifier.

Lemma city_params_Ok (city : string) (params : CityParams) :
  city_specific.city_params city = Ok params
  <-> city_specific.CITY_PARAMS !! city = Some params.
Proof.
  unfold city_specific.city_params.
  destruct (city_specific.CITY_PARAMS !! city); split; congruence.
Qed.

Lemma config_city_params_Ok (city : string) (params : CityParams) :
  config.city_params city = Ok params <-> config.CITY_PARAMS !! city = Some params.
Proof.
  unfold config.city_params.
  destruct (config.CITY_PARAMS !! city); split; congruence.
Qed.

(** C3.  For a walk whose metrics [m] are computed, the trajectory-level
    classifier of [analyze_walks_city_specific.py] returns, and returns
    [True] exactly when one of the four conditions of the decision rule holds
    for [m] (so [False] when none does); the rule of [walk_analyzer.py]
    decides the same way on the same metrics. *)
Theorem trajectory_rule_iff `{K : Shapely}
    (path : WalkRow) (city : string) (params : CityParams) (m : PathMetrics) :
  city_specific.CITY_PARAMS !! city = Some params ->
  city_specific.calculate_path_metrics path city = Ok (Some m) ->
  (exists transit : bool,
      city_specific.is_probable_transit path city = Ok transit
      /\ (transit = true <-> transit_conditions params m))
  /\ (walk_analyzer.transit_rule params (Some m) = true <-> transit_conditions params m).
Proof.
  intros Hcity Hm. split; [|apply walk_analyzer_transit_rule_spec].
  exists (city_specific.transit_rule params (Some m)).
  split; [|apply city_transit_rule_spec].
  unfold city_specific.is_probable_transit.
  apply city_params_Ok in Hcity. rewrite Hcity. simpl. by rewrite Hm.
Qed.

Lemma trajectory_rule_iff_witness :
  (exists transit : bool,
      city_specific.is_probable_transit straight_walk "london" = Ok transit
      /\ (transit = true <-> transit_conditions london straight_walk_metrics))
  /\ (walk_analyzer.transit_rule london (Some straight_walk_metrics) = true
      <-> transit_conditions london straight_walk_metrics).
Proof.
  apply (trajectory_rule_iff straight_walk "london" london straight_walk_metrics).
  - vm_compute. reflexivity.
  - vm_compute. reflexivity.
Defined.

(** C8.  For a segment whose metrics [m] are computed, the segment-level
    classifier returns [True] exactly when the average speed exceeds the
    maximum walking speed, or the sinuosity is below 1.05 over a path longer
    than 0.5 km with a point density below the walking minimum; otherwise it
    returns [False]. *)
Theorem segment_rule_iff `{M : MathLib}
    (coords : list Coord) (timestamps : list Timestamp)
    (m : analyze_walks.SegmentMetrics) :
  analyze_walks.calculate_segment_metrics coords timestamps = Ok (Some m) ->
  (analyze_walks.is_probable_transit_segment (Some m) = true <-> segment_conditions m)
  /\ (analyze_walks.is_probable_transit_segment (Some m) = false <-> ~ segment_conditions m).
Proof.
  intros _. split; [apply segment_rule_spec|].
  rewrite <- segment_rule_spec.
  destruct (analyze_walks.is_probable_transit_segment (Some m)); split; congruence.
Qed.

Lemma segment_rule_iff_witness :
  (analyze_walks.is_probable_transit_segment (Some short_segment_metrics) = true
   <-> segment_conditions short_segment_metrics)
  /\ (analyze_walks.is_probable_transit_segment (Some short_segment_metrics) = false
      <-> ~ segment_conditions short_segment_metrics).
Proof.
  apply (segment_rule_iff (M:=Meridian.math) short_segment short_segment_times).
  vm_compute. reflexivity.
Defined.

(** ** The segment splitter *)

Section Splitter.
Context {X : Type}.
Implicit Types (l segs : list (list X)) (cur run done xs : list X) (x : X).

Lemma join_snoc l run : l <> [] -> join (l ++ [run]) = join l ++ drop 1 run.
Proof.
  destruct l as [|s l]; [done|]. intros _. simpl.
  by rewrite map_app, concat_app, app_assoc; simpl; rewrite app_nil_r.
Qed.

Lemma chained_snoc l run :
  chained (l ++ [run]) <-> chained l /\ (forall s, last l = Some s -> last s = head run).
Proof.
  induction l as [|a [|b l] IH]; simpl in *.
  - split; [|done]. intros _. split; [done|]. by intros s.
  - split.
    + intros [H _]. split; [done|]. by intros s [= <-].
    + intros [_ H]. split; [|done]. by apply H.
  - rewrite IH. tauto.
Qed.

Lemma chained_lookup l i s s' :
  chained l -> l !! i = Some s -> l !! S i = Some s' -> head s' = last s.
Proof.
  revert i. induction l as [|a [|b l] IH]; intros i Hc Hs Hs'.
  - done.
  - by destruct i.
  - destruct Hc as [Hab Hc]. destruct i as [|i].
    + simpl in *. congruence.
    + by apply (IH i).
Qed.

Lemma join_length l : length (join l) <= sum_list (map length l).
Proof.
  destruct l as [|s l]; simpl; [done|]. rewrite length_app.
  apply Nat.add_le_mono_l. induction l as [|a l IH]; simpl; [done|].
  rewrite length_app, length_drop. lia.
Qed.

Lemma split_inv_init n : 2 <= n -> split_inv (X:=X) n [] ([], []).
Proof. intros Hn. split; simpl; try done. lia. Qed.

Lemma split_inv_step n done s x :
  2 <= n -> split_inv n done s ->
  split_inv n (done ++ [x]) (step1 (Z.of_nat n) s x).
Proof.
  intros Hn [Hfull Hshort Hne Hch Hjoin]. destruct s as [segs cur]. simpl in *.
  assert (Hhead : cur <> [] -> head (cur ++ [x]) = head cur)
    by (by destruct cur).
  assert (Hjoin' : join (segs ++ [cur ++ [x]]) = done ++ [x]).
  { destruct segs as [|s0 segs]; [simpl in *; rewrite !app_nil_r in *; by subst|].
    rewrite join_snoc in * by done. rewrite <- Hjoin.
    destruct cur as [|c cur]; [by specialize (Hne eq_refl)|].
    simpl. rewrite !drop_0. by rewrite app_assoc. }
  assert (Hch' : chained (segs ++ [cur ++ [x]])).
  { apply chained_snoc in Hch as [Hch Hlast]. apply chained_snoc. split; [done|].
    intros s Hs. destruct cur as [|c cur].
    - rewrite (Hne eq_refl) in Hs. done.
    - rewrite Hhead by done. by apply Hlast. }
  unfold step1. cbn [fst snd]. rewrite length_app. cbn [length].
  destruct (Z.leb_spec (Z.of_nat n) (Z.of_nat (length cur + 1))) as [Hge|Hlt].
  - assert (length cur + 1 = n) as Hlen by lia.
    destruct (Nat.leb_spec 2 (length cur + 1)) as [_|?]; [|lia].
    split; simpl.
    + apply Forall_app. split; [done|]. constructor; [|done].
      rewrite length_app. simpl. lia.
    + lia.
    + done.
    + apply chained_snoc. split; [done|].
      intros s. rewrite last_snoc. intros [= <-]. by rewrite last_snoc.
    + rewrite join_snoc by (by destruct segs).
      simpl. by rewrite app_nil_r.
  - split; simpl; try done.
    + rewrite length_app. simpl. lia.
    + by destruct cur.
Qed.

Lemma split_inv_fold n xs : forall done s,
  2 <= n -> split_inv n done s ->
  split_inv n (done ++ xs) (fold_left (step1 (Z.of_nat n)) xs s).
Proof.
  induction xs as [|x xs IH]; intros done s Hn Hinv; simpl.
  - by rewrite app_nil_r.
  - rewrite (cons_middle x), (assoc_L (++)) . apply IH; [done|].
    by apply split_inv_step.
Qed.

(** The runs that are returned, read off the state at the end of the
    loop: put together they are the input, and each starts where the one
    before it ends. *)
Lemma split_inv_result n done s :
  2 <= length done ->
  split_inv n done s ->
  let runs := if (2 <=? length s.2)%nat then s.1 ++ [s.2] else s.1 in
  join runs = done
  /\ (forall i run run', runs !! i = Some run -> runs !! S i = Some run' ->
                         head run' = last run).
Proof.
  intros Hdone [_ _ _ Hch Hjoin]. destruct s as [full partial]. cbn [fst snd] in *.
  split.
  - destruct (Nat.leb_spec 2 (length partial)) as [|Hp]; [done|].
    destruct full as [|s0 full'] eqn:Efull.
    + simpl in Hjoin. rewrite app_nil_r in Hjoin. subst done. lia.
    + rewrite join_snoc in Hjoin by done. rewrite <- Hjoin.
      rewrite drop_ge by lia. by rewrite app_nil_r.
  - intros i run run' Hrun Hrun'. destruct (2 <=? length partial)%nat.
    + by eapply chained_lookup.
    + apply chained_snoc in Hch as [Hch _]. by eapply chained_lookup.
Qed.

End Splitter.

Section SplitterLoop.
Context {A T : Type}.
Import analyze_walks.

Lemma split_step_coords (N : Z) (st : split_state (A:=A) (T:=T)) (item : A * T) :
  let st' := split_step N st item in
  (segments st', current_segment st')
  = step1 N (segments st, current_segment st) item.1.
Proof.
  destruct item as [coord timestamp]. unfold split_step, step1. cbn [fst snd].
  by repeat case_match.
Qed.

Lemma split_loop_coords (N : Z) (items : list (A * T)) : forall st,
  let st' := fold_left (split_step N) items st in
  (segments st', current_segment st')
  = fold_left (step1 N) items.*1 (segments st, current_segment st).
Proof.
  induction items as [|item items IH]; intros st; [done|].
  simpl. rewrite <- split_step_coords. apply IH.
Qed.

Lemma split_step_in_step (N : Z) (st : split_state) (item : A * T) :
  in_step st -> in_step (split_step N st item).
Proof.
  destruct item as [coord timestamp]. intros [Hsegs Hcur].
  assert (length (current_segment st ++ [coord])
          = length (current_timestamps st ++ [timestamp])) as Hlen
    by (rewrite !length_app; simpl; lia).
  unfold split_step. repeat case_match; split; simpl; try done.
  apply Forall2_app; [done|]. by constructor.
Qed.

Lemma split_loop_in_step (N : Z) (items : list (A * T)) : forall st,
  in_step st -> in_step (fold_left (split_step N) items st).
Proof.
  induction items as [|item items IH]; intros st Hst; [done|].
  simpl. by apply IH, split_step_in_step.
Qed.

Lemma split_step_timestamps (N : Z) (st : split_state (A:=A) (T:=T)) (item : A * T) :
  in_step st ->
  let st' := split_step N st item in
  (segment_timestamps st', current_timestamps st')
  = step1 N (segment_timestamps st, current_timestamps st) item.2.
Proof.
  destruct item as [coord timestamp]. intros [_ Hcur].
  unfold split_step, step1. cbn [fst snd].
  replace (length (current_timestamps st ++ [timestamp]))
    with (length (current_segment st ++ [coord]))
    by (rewrite !length_app; simpl; lia).
  by repeat case_match.
Qed.

Lemma split_loop_timestamps (N : Z) (items : list (A * T)) : forall st,
  in_step st ->
  let st' := fold_left (split_step N) items st in
  (segment_timestamps st', current_timestamps st')
  = fold_left (step1 N) items.*2 (segment_timestamps st, current_timestamps st).
Proof.
  induction items as [|item items IH]; intros st Hst; [done|].
  simpl. rewrite <- split_step_timestamps by done.
  by apply IH, split_step_in_step.
Qed.

End SplitterLoop.

(** C9.  For a coordinate sequence of at least two points, timestamps of the
    same number and a segment size [N >= 2], the segments returned by
    [split_path_into_segments] all have at least two points; every segment
    but the last has exactly [N] points; each segment after the first starts
    with the last point of the one before it; the segments are the full runs
    followed by the final partial run when that run has at least two points,
    and the full runs alone when it has not; the point counts add up to at
    least the length of the input (no input point is lost); the timestamp
    segments have the same lengths as the coordinate segments; and they
    leave no time gap: each timestamp segment after the first starts with
    the last timestamp of the one before it, and put together, the shared
    timestamps taken once, they are the timestamps of the input. *)
Theorem split_segments_spec {A T : Type}
    (coords : list A) (timestamps : list T) (N : Z)
    (segs : list (list A)) (tsegs : list (list T)) :
  2 <= length coords ->
  length timestamps = length coords ->
  (2 <= N)%Z ->
  analyze_walks.split_path_into_segments coords timestamps N = (segs, tsegs) ->
  Forall (fun s => 2 <= length s) segs
  /\ (forall i s, segs !! i = Some s -> S i < length segs -> Z.of_nat (length s) = N)
  /\ (forall i s s', segs !! i = Some s -> segs !! S i = Some s' -> head s' = last s)
  /\ (exists full partial,
         Forall (fun s => Z.of_nat (length s) = N) full
         /\ (Z.of_nat (length partial) < N)%Z
         /\ join (full ++ [partial]) = coords
         /\ segs = if (2 <=? length partial)%nat then full ++ [partial] else full)
  /\ join segs = coords
  /\ length coords <= sum_list (map length segs)
  /\ Forall2 (fun s t => length s = length t) segs tsegs
  /\ (forall i t t', tsegs !! i = Some t -> tsegs !! S i = Some t' -> head t' = last t)
  /\ join tsegs = timestamps.
Proof.
  intros HL Hts HN Hsplit.
  assert (exists n, N = Z.of_nat n /\ 2 <= n) as (n & -> & Hn)
    by (exists (Z.to_nat N); lia).
  clear HN.
  unfold analyze_walks.split_path_into_segments in Hsplit.
  set (st := analyze_walks.split_loop (Z.of_nat n) (zip coords timestamps)) in *.
  assert (in_step (analyze_walks.mkSplit (A:=A) (T:=T) [] [] [] [])) as Hinit
    by (split; [constructor | done]).
  assert (in_step st) as [Hstep Hstep'] by by apply split_loop_in_step.
  pose proof (split_loop_coords (Z.of_nat n) (zip coords timestamps)
                (analyze_walks.mkSplit [] [] [] [])) as Hfst.
  pose proof (split_loop_timestamps (Z.of_nat n) (zip coords timestamps)
                (analyze_walks.mkSplit [] [] [] []) Hinit) as Hsnd.
  cbn zeta in Hfst, Hsnd.
  fold (analyze_walks.split_loop (Z.of_nat n) (zip coords timestamps)) in Hfst, Hsnd.
  fold st in Hfst, Hsnd.
  rewrite fst_zip in Hfst by lia. rewrite snd_zip in Hsnd by lia. simpl in Hfst, Hsnd.
  pose proof (split_inv_fold n coords [] _ Hn (split_inv_init n Hn)) as Hinv.
  pose proof (split_inv_fold n timestamps [] _ Hn (split_inv_init n Hn)) as Hinvt.
  rewrite <- Hfst, app_nil_l in Hinv. rewrite <- Hsnd, app_nil_l in Hinvt.
  destruct (split_inv_result n timestamps _ ltac:(lia) Hinvt) as [Hjoint Hcht].
  destruct (split_inv_result n coords _ HL Hinv) as [Hjoin' Hch'].
  destruct Hinv as [Hfull Hshort Hne Hch Hjoin]. cbn [fst snd] in *.
  rewrite <- Hstep' in Hjoint, Hcht.
  set (full := analyze_walks.segments st) in *.
  set (partial := analyze_walks.current_segment st) in *.
  set (tfull := analyze_walks.segment_timestamps st) in *.
  set (tpartial := analyze_walks.current_timestamps st) in *.
  clearbody full partial tfull tpartial.
  assert (Hsegs : segs = if (2 <=? length partial)%nat then full ++ [partial] else full).
  { by destruct (2 <=? length partial)%nat; inversion Hsplit. }
  assert (Htsegs : tsegs = if (2 <=? length partial)%nat
                           then tfull ++ [tpartial] else tfull).
  { by destruct (2 <=? length partial)%nat; inversion Hsplit. }
  rewrite <- Hsegs in Hjoin', Hch'. rewrite <- Htsegs in Hjoint, Hcht.
  assert (Hall : Forall (fun s => 2 <= length s) segs).
  { rewrite Hsegs. destruct (Nat.leb_spec 2 (length partial)) as [Hp|Hp].
    - apply Forall_app. split; [|by repeat constructor].
      eapply Forall_impl; [exact Hfull|]. simpl. lia.
    - eapply Forall_impl; [exact Hfull|]. simpl. lia. }
  split_and!.
  - done.
  - intros i s Hs Hi. rewrite Hsegs in Hs, Hi.
    assert (full !! i = Some s) as Hs'.
    { destruct (2 <=? length partial)%nat; [|done].
      rewrite length_app in Hi. simpl in Hi.
      rewrite lookup_app_l in Hs by lia. done. }
    rewrite Forall_lookup in Hfull. specialize (Hfull i s Hs'). simpl in Hfull. lia.
  - done.
  - exists full, partial. split_and!; try done.
    + eapply Forall_impl; [exact Hfull|]. simpl. lia.
    + lia.
  - done.
  - rewrite <- Hjoin' at 1. apply join_length.
  - destruct (2 <=? length partial)%nat; inversion Hsplit; subst; [|done].
    apply Forall2_app; [done|]. by constructor.
  - done.
  - done.
Qed.

Lemma split_segments_spec_witness :
  let segs := [[1; 2; 3]; [3; 4; 5]; [5; 6]] in
  let tsegs := [[10; 20; 30]; [30; 40; 50]; [50; 60]] in
  Forall (fun s => 2 <= length s) segs
  /\ (forall i s, segs !! i = Some s -> S i < length segs -> Z.of_nat (length s) = 3%Z)
  /\ (forall i s s', segs !! i = Some s -> segs !! S i = Some s' -> head s' = last s)
  /\ (exists full partial,
         Forall (fun s => Z.of_nat (length s) = 3%Z) full
         /\ (Z.of_nat (length partial) < 3)%Z
         /\ join (full ++ [partial]) = [1; 2; 3; 4; 5; 6]
         /\ segs = if (2 <=? length partial)%nat then full ++ [partial] else full)
  /\ join segs = [1; 2; 3; 4; 5; 6]
  /\ length [1; 2; 3; 4; 5; 6] <= sum_list (map length segs)
  /\ Forall2 (fun s t => length s = length t) segs tsegs
  /\ (forall i t t', tsegs !! i = Some t -> tsegs !! S i = Some t' -> head t' = last t)
  /\ join tsegs = [10; 20; 30; 40; 50; 60].
Proof.
  apply (split_segments_spec [1; 2; 3; 4; 5; 6] [10; 20; 30; 40; 50; 60] 3).
  - simpl. lia.
  - reflexivity.
  - lia.
  - reflexivity.
Defined.

(** ** The metrics calculator *)

Section Polyline.
Local Open Scope Q_scope.
Variable dist : Coord -> Coord -> Q.

Lemma sum_consecutive_acc (cs : list Coord) : forall total,
  sum_consecutive dist total cs == total + sum_consecutive dist 0 cs.
Proof.
  induction cs as [|a [|b cs] IH]; intros total; simpl in *.
  - by rewrite Qplus_0_r.
  - by rewrite Qplus_0_r.
  - rewrite (IH (total + dist a b)), (IH (0 + dist a b)). ring.
Qed.

Hypothesis triangle : forall a b c, dist a c <= dist a b + dist b c.

(** The straight line from the first to the last point is no longer than
    the path through the points between them. *)
Lemma direct_le_path (cs : list Coord) : forall a b z,
  last (a :: b :: cs) = Some z ->
  dist a z <= sum_consecutive dist 0 (a :: b :: cs).
Proof using triangle.
  induction cs as [|c cs IH]; intros a b z Hz.
  - simpl in *. injection Hz as ->. rewrite Qplus_0_l. apply Qle_refl.
  - change (sum_consecutive dist 0 (a :: b :: c :: cs))
      with (sum_consecutive dist (0 + dist a b) (b :: c :: cs)).
    rewrite sum_consecutive_acc, Qplus_0_l.
    eapply Qle_trans; [apply (triangle a b z)|].
    apply Qplus_le_r. apply IH. exact Hz.
Qed.

End Polyline.

Section Sinuosity.
Local Open Scope Q_scope.

Lemma sinuosity_ok_ratio (direct path : Q) :
  (0 < direct -> direct <= path) ->
  sinuosity_ok direct path (if Qgtb direct 0 then path / direct else 1).
Proof.
  intros Hle. split.
  - intros Hpos. split; [by apply Hle|].
    apply Qgtb_true in Hpos as Hgt. rewrite Hgt.
    apply Qle_shift_div_l; [done|]. rewrite Qmult_1_l. by apply Hle.
  - intros Hzero. destruct (Qgtb direct 0) eqn:E; [|done].
    apply Qgtb_true in E. rewrite Hzero in E. by apply Qlt_irrefl in E.
Qed.

Lemma item_first_Ok {A} (xs : list A) (x : A) :
  item_first xs = Ok x -> head xs = Some x.
Proof. destruct xs; [done|]. by intros [= ->]. Qed.

Lemma item_last_Ok {A} (xs : list A) (x : A) :
  item_last xs = Ok x -> last xs = Some x.
Proof. unfold item_last. destruct (last xs); [|done]. by intros [= ->]. Qed.

Lemma at_least_two {A} (xs : list A) :
  (length xs <? 2)%nat = false -> exists a b rest, xs = a :: b :: rest.
Proof.
  intros H%Nat.ltb_ge. destruct xs as [|a [|b rest]]; simpl in *; try lia. eauto.
Qed.

(** What [calculate_segment_metrics] returns when it returns metrics. *)
Lemma calculate_segment_metrics_Some `{M : MathLib}
    (coords : list Coord) (timestamps : list Timestamp)
    (m : analyze_walks.SegmentMetrics) :
  analyze_walks.calculate_segment_metrics coords timestamps = Ok (Some m) ->
  exists a b rest z,
    coords = a :: b :: rest /\ last coords = Some z
    /\ analyze_walks.direct_distance m = analyze_walks.haversine_between a z
    /\ analyze_walks.path_distance m
       = sum_consecutive analyze_walks.haversine_between 0 coords
    /\ analyze_walks.sinuosity m
       = if Qgtb (analyze_walks.direct_distance m) 0
         then analyze_walks.path_distance m / analyze_walks.direct_distance m
         else 1.
Proof.
  unfold analyze_walks.calculate_segment_metrics.
  destruct (length coords <? 2)%nat eqn:Hlen; [done|].
  apply at_least_two in Hlen as (a & b & rest & ->).
  intros (t0 & _ & H)%bind_Ok.
  apply bind_Ok in H as (ts & _ & H).
  apply bind_Ok in H as (start_point & [= <-] & H).
  apply bind_Ok in H as (z & Hz%item_last_Ok & H).
  apply bind_Ok in H as (t_end & _ & H).
  apply bind_Ok in H as (t_start & _ & H).
  apply bind_Ok in H as (seconds & _ & [= <-]).
  exists a, b, rest, z. by simpl.
Qed.

(** What the city-specific [calculate_path_metrics] returns when it returns
    metrics. *)
Lemma calculate_path_metrics_Some `{K : Shapely}
    (path : WalkRow) (city : string) (m : PathMetrics) :
  city_specific.calculate_path_metrics path city = Ok (Some m) ->
  exists a b rest z s e,
    coords (geometry path) = a :: b :: rest
    /\ last (coords (geometry path)) = Some z
    /\ to_datetime (start_time path) = Ok s
    /\ to_datetime (end_time path) = Ok e
    /\ direct_distance m = point_distance a z
    /\ path_distance m = sum_consecutive point_distance 0 (coords (geometry path))
    /\ duration m = e - s
    /\ avg_speed m
       = (if Qgtb (duration m) 0 then path_distance m / duration m else 0)
    /\ sinuosity m
       = if Qgtb (direct_distance m) 0
         then path_distance m / direct_distance m else 1.
Proof.
  unfold city_specific.calculate_path_metrics.
  intros (params & _ & H)%bind_Ok.
  destruct (to_datetime (start_time path)) as [s|]; [|done].
  destruct (to_datetime (end_time path)) as [e|]; [|done].
  simpl in H.
  destruct (length (coords (geometry path)) <? 2)%nat eqn:Hlen; [done|].
  apply at_least_two in Hlen as (a & b & rest & Hcoords).
  rewrite Hcoords in H |- *.
  apply bind_Ok in H as (start_point & [= <-] & H).
  apply bind_Ok in H as (z & Hz%item_last_Ok & [= <-]).
  exists a, b, rest, z, s, e. by simpl.
Qed.

End Sinuosity.

(** What the double-precision [calculate_path_metrics] returns when it
    returns metrics. *)
Lemma binary64_metrics_Some (duration : option PrimFloat.float)
    (points : list binary64.Coord) (city : string) (m : binary64.PathMetrics) :
  binary64.calculate_path_metrics duration points city = Ok (Some m) ->
  2 <= length points
  /\ binary64.sinuosity m
     = if PrimFloat.ltb PrimFloat.zero (binary64.direct_distance m)
       then PrimFloat.div (binary64.path_distance m) (binary64.direct_distance m)
       else PrimFloat.one.
Proof.
  unfold binary64.calculate_path_metrics.
  intros (params & _ & H)%bind_Ok.
  destruct duration as [duration|]; [|done].
  destruct (Nat.ltb_spec (length points) 2) as [|Hlen]; [done|].
  apply bind_Ok in H as (start_point & _ & H).
  apply bind_Ok in H as (end_point & _ & [= <-]). done.
Qed.

(** C10 (counterexample).  Three points of one straight line,
    (0, 0), (24, 39) and (216, 351): in the program's double arithmetic the
    two steps add up to 412.13711310679116 while the direct distance is
    412.13711310679122, so the city-specific [calculate_path_metrics]
    returns metrics with [direct_distance > 0], [path_distance] below
    [direct_distance] and a [sinuosity] below 1. *)
Lemma sinuosity_below_one :
  exists m,
    binary64.calculate_path_metrics (Some Straight.ten_minutes) Straight.collinear_path "london"
    = Ok (Some m)
    /\ PrimFloat.ltb PrimFloat.zero (binary64.direct_distance m) = true
    /\ PrimFloat.ltb (binary64.path_distance m) (binary64.direct_distance m) = true
    /\ PrimFloat.ltb (binary64.sinuosity m) PrimFloat.one = true.
Proof. eexists. split_and!; vm_compute; reflexivity. Qed.

(** C10 (amended).  In exact arithmetic, when the distance functions under
    the two metrics calculators satisfy the triangle inequality, the
    metrics computed for a coordinate sequence of at least two points have
    [path_distance >= direct_distance] and [sinuosity >= 1] whenever
    [direct_distance > 0], and [sinuosity = 1] when [direct_distance = 0];
    this holds for [calculate_segment_metrics] (haversine distance) and for
    the city-specific [calculate_path_metrics] (shapely's point distance).
    In the double arithmetic of the program, the city-specific
    [calculate_path_metrics] returns [sinuosity = 1] when
    [direct_distance] is not positive, and otherwise the rounded quotient
    of the rounded [path_distance] by the rounded [direct_distance], with
    nothing that keeps it from falling below 1. *)
Theorem sinuosity_at_least_one `{M : MathLib} `{K : Shapely}
    (points : list Coord) (timestamps : list Timestamp)
    (sm : analyze_walks.SegmentMetrics)
    (path : WalkRow) (city : string) (pm : PathMetrics)
    (duration : option PrimFloat.float) (points64 : list binary64.Coord)
    (pm64 : binary64.PathMetrics) :
  (forall a b c, (analyze_walks.haversine_between a c
                  <= analyze_walks.haversine_between a b
                     + analyze_walks.haversine_between b c)%Q) ->
  (forall a b c, (point_distance a c <= point_distance a b + point_distance b c)%Q) ->
  analyze_walks.calculate_segment_metrics points timestamps = Ok (Some sm) ->
  city_specific.calculate_path_metrics path city = Ok (Some pm) ->
  binary64.calculate_path_metrics duration points64 city = Ok (Some pm64) ->
  (2 <= length points
   /\ 2 <= length (coords (geometry path))
   /\ sinuosity_ok (analyze_walks.direct_distance sm) (analyze_walks.path_distance sm)
                   (analyze_walks.sinuosity sm)
   /\ sinuosity_ok (direct_distance pm) (path_distance pm) (sinuosity pm))
  /\ (2 <= length points64
      /\ (PrimFloat.ltb PrimFloat.zero (binary64.direct_distance pm64) = false ->
          binary64.sinuosity pm64 = PrimFloat.one)
      /\ (PrimFloat.ltb PrimFloat.zero (binary64.direct_distance pm64) = true ->
          binary64.sinuosity pm64
          = PrimFloat.div (binary64.path_distance pm64) (binary64.direct_distance pm64))).
Proof.
  intros Hhav Hpt Hsm Hpm Hpm64.
  apply calculate_segment_metrics_Some in Hsm
    as (a & b & rest & z & -> & Hz & Hd & Hp & ->).
  apply calculate_path_metrics_Some in Hpm
    as (a' & b' & rest' & z' & s & e & Hcs & Hz' & _ & _ & Hd' & Hp' & _ & _ & ->).
  apply binary64_metrics_Some in Hpm64 as [Hlen64 ->].
  split; split_and!.
  - simpl. lia.
  - rewrite Hcs. simpl. lia.
  - apply sinuosity_ok_ratio. intros _. rewrite Hd, Hp.
    by apply direct_le_path.
  - apply sinuosity_ok_ratio. intros _. rewrite Hd', Hp', Hcs.
    apply direct_le_path; [done|]. by rewrite <- Hcs.
  - done.
  - by intros ->.
  - by intros ->.
Qed.

(** *** The stand-in libraries satisfy the triangle inequality *)

Section StandIns.
Local Open Scope Q_scope.

Lemma rational_sqrt_exact (n a : Z) (d b : positive) :
  (0 <= a)%Z -> n = (a * a)%Z -> d = (b * b)%positive ->
  Meridian.rational_sqrt (n # d) = a # b.
Proof.
  intros Ha -> ->. unfold Meridian.rational_sqrt. cbn [Qnum Qden].
  rewrite Pos2Z.inj_mul, !Z.sqrt_square by lia. done.
Qed.

Lemma rational_sqrt_square (x y : Q) :
  Meridian.rational_sqrt (x ^ 2 + 0 * 0 * y ^ 2) == Qabs x.
Proof.
  destruct x as [nx dx], y as [ny dy].
  destruct ((nx # dx) ^ 2 + 0 * 0 * (ny # dy) ^ 2) as [n d] eqn:E.
  assert (n = (Z.abs nx * Z.pos dy) * (Z.abs nx * Z.pos dy))%Z as Hn
    by (apply (f_equal Qnum) in E; cbn in E; lia).
  assert (d = (dx * dy) * (dx * dy))%positive as Hd
    by (apply (f_equal Qden) in E; cbn in E; lia).
  rewrite (rational_sqrt_exact n (Z.abs nx * Z.pos dy) d (dx * dy)) by (done || lia).
  unfold Qabs, Qeq. cbn [Qnum Qden]. lia.
Qed.

Lemma meridian_haversine (p q : Coord) :
  analyze_walks.haversine_between (M:=Meridian.math) p q == 6371 * Qabs (q.2 - p.2).
Proof.
  unfold analyze_walks.haversine_between, analyze_walks.haversine_distance.
  cbn [radians sin cos sqrt atan2 Meridian.math].
  rewrite rational_sqrt_square.
  rewrite <- (Qabs_pos 2) at 1 by done.
  rewrite <- Qabs_Qmult.
  apply Qmult_comp; [done|]. apply Qabs_wd. field.
Qed.

Lemma meridian_triangle (a b c : Coord) :
  analyze_walks.haversine_between (M:=Meridian.math) a c
  <= analyze_walks.haversine_between (M:=Meridian.math) a b
     + analyze_walks.haversine_between (M:=Meridian.math) b c.
Proof.
  rewrite !meridian_haversine, <- Qmult_plus_distr_r.
  apply Qmult_le_l; [done|].
  setoid_replace (c.2 - a.2) with ((b.2 - a.2) + (c.2 - b.2)) using relation Qeq by ring.
  apply Qabs_triangle.
Qed.

Lemma cells_point_triangle (a b c : Coord) :
  point_distance (Shapely:=Cells.kernel) a c
  <= point_distance (Shapely:=Cells.kernel) a b
     + point_distance (Shapely:=Cells.kernel) b c.
Proof.
  cbn [point_distance Cells.kernel].
  setoid_replace (a.1 - c.1) with ((a.1 - b.1) + (b.1 - c.1)) using relation Qeq by ring.
  setoid_replace (a.2 - c.2) with ((a.2 - b.2) + (b.2 - c.2)) using relation Qeq by ring.
  eapply Qle_trans;
    [apply Qplus_le_compat; apply Qabs_triangle|].
  apply Qle_lteq. right. ring.
Qed.

End StandIns.

Lemma sinuosity_at_least_one_witness :
  (2 <= length short_segment
   /\ 2 <= length (coords (geometry straight_walk))
   /\ sinuosity_ok (analyze_walks.direct_distance short_segment_metrics)
                   (analyze_walks.path_distance short_segment_metrics)
                   (analyze_walks.sinuosity short_segment_metrics)
   /\ sinuosity_ok (direct_distance straight_walk_metrics)
                   (path_distance straight_walk_metrics)
                   (sinuosity straight_walk_metrics))
  /\ (2 <= length Straight.collinear_path
      /\ (PrimFloat.ltb PrimFloat.zero (binary64.direct_distance Straight.collinear_metrics) = false ->
          binary64.sinuosity Straight.collinear_metrics = PrimFloat.one)
      /\ (PrimFloat.ltb PrimFloat.zero (binary64.direct_distance Straight.collinear_metrics) = true ->
          binary64.sinuosity Straight.collinear_metrics
          = PrimFloat.div (binary64.path_distance Straight.collinear_metrics)
                          (binary64.direct_distance Straight.collinear_metrics))).
Proof.
  apply (sinuosity_at_least_one (M:=Meridian.math) (K:=Cells.kernel)
           short_segment short_segment_times short_segment_metrics
           straight_walk "london" straight_walk_metrics
           (Some Straight.ten_minutes) Straight.collinear_path Straight.collinear_metrics).
  - exact meridian_triangle.
  - exact cells_point_triangle.
  - vm_compute. reflexivity.
  - vm_compute. reflexivity.
  - vm_compute. reflexivity.
Defined.

(** ** Absent metrics *)

Lemma geo_utils_metrics_None `{K : Shapely} (path : WalksFrame) (city : string) :
  geo_utils.calculate_path_metrics path city = None.
Proof.
  unfold geo_utils.calculate_path_metrics, geom_crs.
  repeat match goal with
         | |- context [?r ≫= _] =>
             lazymatch r with
             | Raise _ => fail
             | _ => destruct r; simpl
             end
         end; done.
Qed.

Lemma walk_analyzer_never_transit `{K : Shapely}
    (path : WalksFrame) (city : string) (params : CityParams) :
  config.CITY_PARAMS !! city = Some params ->
  walk_analyzer.is_probable_transit path city = Ok false.
Proof.
  intros Hcity%config_city_params_Ok. unfold walk_analyzer.is_probable_transit.
  rewrite Hcity. simpl. by rewrite geo_utils_metrics_None.
Qed.

Lemma walk_analyzer_filter_keeps_all `{K : Shapely}
    (crs : option CRS) (rows : list WalkRow) (city : string) (params : CityParams) :
  config.CITY_PARAMS !! city = Some params ->
  walk_analyzer.filter_valid_walks crs rows city = Ok rows.
Proof.
  intros Hcity. induction rows as [|walk rows IH]; simpl; [done|].
  rewrite (walk_analyzer_never_transit _ _ params Hcity). simpl.
  by rewrite IH.
Qed.

(** C2.  [geo_utils.calculate_path_metrics] returns [None] for every
    GeoDataFrame: reading [.crs] on the shapely geometry raises
    [AttributeError] and the [except] turns every failure into [None].  So,
    for a configured city, [walk_analyzer.is_probable_transit] returns
    [False] for every path, the filter of [walk_analyzer.analyze_walks]
    keeps every walk, and the analysis it returns reports every walk as
    valid. *)
Theorem geo_utils_metrics_always_absent `{K : Shapely}
    (path walks_gdf : WalksFrame) (streets_gdf : StreetsFrame)
    (city : string) (params : CityParams) (res : walk_analyzer.Analysis) :
  config.CITY_PARAMS !! city = Some params ->
  walk_analyzer.analyze_walks walks_gdf streets_gdf city = Ok res ->
  geo_utils.calculate_path_metrics path city = None
  /\ walk_analyzer.is_probable_transit path city = Ok false
  /\ walk_analyzer.filter_valid_walks (walks_crs walks_gdf) (walks_rows walks_gdf) city
     = Ok (walks_rows walks_gdf)
  /\ walk_analyzer.result_valid_walks res = walks_rows walks_gdf
  /\ walk_analyzer.valid_walks (walk_analyzer.result_stats res)
     = walk_analyzer.total_walks (walk_analyzer.result_stats res).
Proof.
  intros Hcity Hres.
  pose proof (walk_analyzer_filter_keeps_all (walks_crs walks_gdf)
                (walks_rows walks_gdf) city params Hcity) as Hfilter.
  split_and!; [apply geo_utils_metrics_None
              | by eapply walk_analyzer_never_transit | done | |].
  all: unfold walk_analyzer.analyze_walks in Hres; rewrite Hfilter in Hres.
  all: apply bind_Ok in Hres as (valid & [= <-] & Hres).
  all: apply bind_Ok in Hres as (frame & ->%frame_of_rows_Ok & Hres).
  all: apply bind_Ok in Hres as (params' & _ & Hres).
  all: apply bind_Ok in Hres as (buffers & _ & Hres).
  all: apply bind_Ok in Hres as (rows & _ & [= <-]); done.
Qed.

Lemma geo_utils_metrics_always_absent_witness :
  geo_utils.calculate_path_metrics (mkWalksFrame (Some "EPSG:4326") [ride]) "london"
  = None
  /\ walk_analyzer.is_probable_transit (mkWalksFrame (Some "EPSG:4326") [ride]) "london"
     = Ok false
  /\ walk_analyzer.filter_valid_walks (walks_crs sample_walks) (walks_rows sample_walks)
       "london"
     = Ok (walks_rows sample_walks)
  /\ walk_analyzer.result_valid_walks sample_analysis = walks_rows sample_walks
  /\ walk_analyzer.valid_walks (walk_analyzer.result_stats sample_analysis)
     = walk_analyzer.total_walks (walk_analyzer.result_stats sample_analysis).
Proof.
  apply (geo_utils_metrics_always_absent
           (mkWalksFrame (Some "EPSG:4326"%string) [ride])
           sample_walks sample_streets "london" london sample_analysis).
  - vm_compute. reflexivity.
  - vm_compute. reflexivity.
Defined.

(** C1 (counterexample).  A walk whose start time cannot be parsed has no
    metrics, and the trajectory-level classifiers return [False] for it:
    the walk is kept, not excluded as transit. *)
Lemma absent_metrics_kept_as_walk :
  city_specific.calculate_path_metrics garbled_walk "london" = Ok None
  /\ city_specific.is_probable_transit garbled_walk "london" = Ok false
  /\ geo_utils.calculate_path_metrics (mkWalksFrame (Some "EPSG:4326") [garbled_walk])
       "london" = None
  /\ walk_analyzer.is_probable_transit (mkWalksFrame (Some "EPSG:4326") [garbled_walk])
       "london" = Ok false.
Proof. split_and!; vm_compute; reflexivity. Qed.

Lemma city_metrics_absent `{K : Shapely}
    (path : WalkRow) (city : string) (params : CityParams) :
  city_specific.CITY_PARAMS !! city = Some params ->
  length (coords (geometry path)) < 2
  \/ to_datetime (start_time path) = Raise ValueError
  \/ to_datetime (end_time path) = Raise ValueError ->
  city_specific.calculate_path_metrics path city = Ok None.
Proof.
  intros Hcity%city_params_Ok Habsent.
  unfold city_specific.calculate_path_metrics. rewrite Hcity. simpl.
  destruct (to_datetime (start_time path)) as [s|] eqn:Hs; [|done].
  destruct (to_datetime (end_time path)) as [e|] eqn:He; [|done].
  simpl. destruct Habsent as [Hlen|[?|?]]; try done.
  apply Nat.ltb_lt in Hlen. by rewrite Hlen.
Qed.

(** C1 (amended).  Absent metrics are classified as transit at segment
    level only: [calculate_segment_metrics] returns [None] for fewer than
    two coordinates and [is_probable_transit_segment] returns [True] for
    [None]; at trajectory level, for a configured city, a walk with fewer
    than two coordinates or a time that cannot be parsed has no metrics and
    [is_probable_transit] returns [False] for it, in both copies of the
    classifier. *)
Theorem absent_metrics_classification `{M : MathLib} `{K : Shapely}
    (points : list Coord) (times : list Timestamp)
    (path : WalkRow) (frame : WalksFrame)
    (city : string) (params params' : CityParams) :
  city_specific.CITY_PARAMS !! city = Some params ->
  config.CITY_PARAMS !! city = Some params' ->
  length points < 2 ->
  length (coords (geometry path)) < 2
  \/ to_datetime (start_time path) = Raise ValueError
  \/ to_datetime (end_time path) = Raise ValueError ->
  analyze_walks.calculate_segment_metrics points times = Ok None
  /\ analyze_walks.is_probable_transit_segment None = true
  /\ city_specific.calculate_path_metrics path city = Ok None
  /\ city_specific.is_probable_transit path city = Ok false
  /\ geo_utils.calculate_path_metrics frame city = None
  /\ walk_analyzer.is_probable_transit frame city = Ok false.
Proof.
  intros Hcity Hcity' Hpoints Habsent.
  pose proof (city_metrics_absent path city params Hcity Habsent) as Hnone.
  split_and!.
  - unfold analyze_walks.calculate_segment_metrics.
    apply Nat.ltb_lt in Hpoints. by rewrite Hpoints.
  - done.
  - done.
  - unfold city_specific.is_probable_transit.
    apply city_params_Ok in Hcity. rewrite Hcity. simpl. by rewrite Hnone.
  - apply geo_utils_metrics_None.
  - by eapply walk_analyzer_never_transit.
Qed.

Lemma absent_metrics_classification_witness :
  analyze_walks.calculate_segment_metrics (M:=Meridian.math) [(0, 0)%Q] [Datetime 0]
  = Ok None
  /\ analyze_walks.is_probable_transit_segment None = true
  /\ city_specific.calculate_path_metrics garbled_walk "london" = Ok None
  /\ city_specific.is_probable_transit garbled_walk "london" = Ok false
  /\ geo_utils.calculate_path_metrics sample_walks "london" = None
  /\ walk_analyzer.is_probable_transit sample_walks "london" = Ok false.
Proof.
  apply (absent_metrics_classification (M:=Meridian.math) (K:=Cells.kernel)
           [(0, 0)%Q] [Datetime 0] garbled_walk sample_walks "london" london london).
  - vm_compute. reflexivity.
  - vm_compute. reflexivity.
  - simpl. lia.
  - right. left. reflexivity.
Defined.

(** ** Distances on degree coordinates *)

(** The city-specific metrics are shapely's planar distances between the
    stored coordinates, whatever reference system the table declares. *)
Lemma city_metrics_planar `{K : Shapely}
    (path : WalkRow) (city : string) (m : PathMetrics) :
  city_specific.calculate_path_metrics path city = Ok (Some m) ->
  exists a z,
    head (coords (geometry path)) = Some a
    /\ last (coords (geometry path)) = Some z
    /\ direct_distance m = point_distance a z
    /\ path_distance m = sum_consecutive point_distance 0%Q (coords (geometry path)).
Proof.
  intros (a & b & rest & z & s & e & Hcs & Hz & _ & _ & Hd & Hp & _)
    %calculate_path_metrics_Some.
  exists a, z. by rewrite Hcs in *.
Qed.

(** C4 (the code at the failing input).  A table in EPSG:4326 holds a trip
    of one degree of longitude along the equator, about 111 km, made in an
    hour.  The metrics report a direct and a path distance of [1] and a
    speed of [1/3600], and with London's thresholds, which are metres and
    metres per second, the trip is classified as a walk and kept. *)
Theorem degrees_taken_as_metres :
  city_specific.calculate_path_metrics degree_walk "london"
  = Ok (Some degree_walk_metrics)
  /\ direct_distance degree_walk_metrics = 1%Q
  /\ path_distance degree_walk_metrics = 1%Q
  /\ avg_speed degree_walk_metrics = (1 # 3600)%Q
  /\ city_specific.is_probable_transit degree_walk "london" = Ok false
  /\ city_specific.filter_valid_walks
       (walks_rows (mkWalksFrame (Some "EPSG:4326") [degree_walk])) "london"
     = Ok [degree_walk].
Proof. split_and!; vm_compute; reflexivity. Qed.

(** ** The coverage engine *)

Section Coverage.
Context `{K : Shapely} {laws : ShapelyLaws K}.
Local Open Scope Q_scope.

Lemma percent_0 : percent 0.
Proof. by split. Qed.

Lemma percent_capped (ratio : Q) : 0 <= ratio -> percent (pymin (ratio * 100) 100).
Proof.
  intros Hr. split; [|apply pymin_le_r].
  apply pymin_glb; [|done]. by apply Qmult_le_0_compat.
Qed.

Lemma percent_capped' (ratio : Q) : 0 <= ratio -> percent (pymin 100 (ratio * 100)).
Proof.
  intros Hr. split; [|apply pymin_le_l].
  apply pymin_glb; [done|]. by apply Qmult_le_0_compat.
Qed.

(** *** [geo_utils.calculate_coverage] *)

Lemma combined_buffer_empty (street : LineString) (others : list Polygon) :
  forall first_buffer,
  is_empty (intersection street (fold_left poly_union others first_buffer))
  = is_empty (intersection street first_buffer)
    && forallb (fun b => is_empty (intersection street b)) others.
Proof using laws.
  induction others as [|b others IH]; intros first_buffer; simpl.
  - by rewrite andb_true_r.
  - by rewrite IH, intersection_union_empty, andb_assoc.
Qed.

Lemma no_hit_empty (street : LineString) (buffers : list Polygon) :
  (forall b, b ∈ buffers -> intersects b street = false) ->
  forallb (fun b => is_empty (intersection street b)) buffers = true.
Proof using laws.
  intros Hmiss. apply forallb_forall. intros b Hb%list_elem_of_In.
  specialize (Hmiss b Hb). rewrite intersects_spec in Hmiss.
  by apply negb_false_iff.
Qed.

Lemma calculate_coverage_range (street : LineString) (buffers : list Polygon) (v : Q) :
  geo_utils.calculate_coverage street buffers = Ok v -> percent v.
Proof using laws.
  unfold geo_utils.calculate_coverage.
  destruct buffers as [|first_buffer others]; [intros [= <-]; apply percent_0|].
  destruct (is_empty _); [intros [= <-]; apply percent_0|].
  intros (ratio & [_ ->]%truediv_Ok & [= <-])%bind_Ok.
  apply percent_capped, Qdiv_nonneg; [apply length_nonneg | apply line_length_nonneg].
Qed.

Lemma calculate_coverage_no_hit (street : LineString) (buffers : list Polygon) :
  (forall b, b ∈ buffers -> intersects b street = false) ->
  geo_utils.calculate_coverage street buffers = Ok 0.
Proof using laws.
  intros Hmiss. unfold geo_utils.calculate_coverage.
  destruct buffers as [|first_buffer others]; [done|].
  pose proof (no_hit_empty street _ Hmiss) as Hempty. simpl in Hempty.
  by rewrite combined_buffer_empty, Hempty.
Qed.

Lemma calculate_coverage_total (street : LineString) (buffers : list Polygon) :
  0 < line_length street -> exists v, geo_utils.calculate_coverage street buffers = Ok v.
Proof.
  intros Hpos. unfold geo_utils.calculate_coverage.
  destruct buffers as [|first_buffer others]; [eauto|].
  destruct (is_empty _); [eauto|].
  rewrite truediv_nonzero; [simpl; eauto|].
  intros Hz. rewrite Hz in Hpos. by apply Qlt_irrefl in Hpos.
Qed.

(** *** [match_walks_to_streets] *)

Lemma match_covered_length_nonneg (street : LineString) (hits : list Polygon) :
  0 <= match_walks.covered_length_of street hits.
Proof using laws.
  unfold match_walks.covered_length_of.
  cut (forall acc, 0 <= acc ->
         0 <= fold_left
                (fun covered_length walk_buffer =>
                   let intersection := intersection street walk_buffer in
                   if negb (is_empty intersection) then
                     if is_lineal intersection
                     then covered_length + geom_length intersection
                     else covered_length
                   else covered_length) hits acc);
    [intros H; by apply H|].
  induction hits as [|b hits IH]; intros acc Hacc; [done|].
  simpl. apply IH. repeat case_match; try done.
  rewrite <- (Qplus_0_l 0). apply Qplus_le_compat; [done | apply length_nonneg].
Qed.

(** The two ways [match_street] returns. *)
Lemma match_street_Ok (buffers : list Polygon) (street street' : StreetRow) :
  match_walks.match_street buffers street = Ok street' ->
  let hits := filter (fun b => intersects b (street_geometry street) = true) buffers in
  (hits = [] /\ street' = street)
  \/ (hits <> [] /\ ~ line_length (street_geometry street) == 0
      /\ street' = set_coverage street true
           (pymin 100 (match_walks.covered_length_of (street_geometry street) hits
                       / line_length (street_geometry street) * 100))).
Proof.
  unfold match_walks.match_street. cbn zeta.
  case_bool_decide as Hhits; simpl.
  - intros [= <-]. by left.
  - intros (ratio & [Hnz ->]%truediv_Ok & [= <-])%bind_Ok. by right.
Qed.

Lemma filter_no_hit (street : LineString) (buffers : list Polygon) :
  (forall b, b ∈ buffers -> intersects b street = false) ->
  filter (fun b => intersects b street = true) buffers = [].
Proof.
  intros Hmiss. induction buffers as [|b buffers IH]; [done|].
  rewrite filter_cons, decide_False.
  - apply IH. intros b' Hb'. apply Hmiss. by right.
  - rewrite (Hmiss b); [done | by left].
Qed.

(** *** The city-specific [analyze_walks] *)

Lemma city_covered_length_nonneg (d : Q) (street : LineString) (walks : list WalkRow) :
  0 <= city_specific.covered_length_of d street walks.
Proof using laws.
  unfold city_specific.covered_length_of.
  cut (forall acc, 0 <= acc ->
         0 <= fold_left
                (fun covered_length walk =>
                   let buffered_walk := buffer (geometry walk) d in
                   let intersection := intersection street buffered_walk in
                   if negb (is_empty intersection)
                   then covered_length + geom_length intersection
                   else covered_length) walks acc);
    [intros H; by apply H|].
  induction walks as [|w walks IH]; intros acc Hacc; [done|].
  simpl. apply IH. case_match; [|done].
  rewrite <- (Qplus_0_l 0). apply Qplus_le_compat; [done | apply length_nonneg].
Qed.

Lemma city_covered_length_no_hit (d : Q) (street : LineString) (walks : list WalkRow) :
  (forall w, w ∈ walks -> intersects (buffer (geometry w) d) street = false) ->
  city_specific.covered_length_of d street walks = 0.
Proof using laws.
  unfold city_specific.covered_length_of. generalize 0.
  induction walks as [|w walks IH]; intros acc Hmiss; [done|].
  simpl. assert (is_empty (intersection street (buffer (geometry w) d)) = true) as ->.
  { specialize (Hmiss w (list_elem_of_here _ _)). rewrite intersects_spec in Hmiss.
    by apply negb_false_iff. }
  simpl. apply IH. intros w' Hw'. apply Hmiss. by right.
Qed.

End Coverage.

Section CoverageEngines.
Context `{K : Shapely} {laws : ShapelyLaws K}.
Local Open Scope Q_scope.

Lemma update_street_percent (d : Q) (walks : list WalkRow) (street : StreetRow) :
  starts_uncovered street ->
  exists v,
    coverage_percent (city_specific.update_street d walks (city_specific.init_columns street))
    = Some v
    /\ percent v.
Proof using laws.
  intros [_ Hzero]. unfold city_specific.update_street. cbn zeta.
  destruct (Qgtb _ 0) eqn:Hlen; simpl.
  - eexists. split; [done|].
    apply percent_capped, Qdiv_nonneg;
      [apply city_covered_length_nonneg | apply line_length_nonneg].
  - eexists. split; [done|]. unfold percent. by rewrite Hzero.
Qed.

Lemma update_street_no_hit (d : Q) (walks : list WalkRow) (street : StreetRow) :
  starts_uncovered street ->
  (forall w, w ∈ walks ->
     intersects (buffer (geometry w) d) (street_geometry street) = false) ->
  exists v,
    coverage_percent (city_specific.update_street d walks (city_specific.init_columns street))
    = Some v
    /\ v == 0.
Proof using laws.
  intros [_ Hzero] Hmiss. unfold city_specific.update_street. cbn zeta.
  destruct (Qgtb _ 0) eqn:Hlen; simpl; [|eauto].
  eexists. split; [done|].
  rewrite city_covered_length_no_hit by done.
  unfold pymin. destruct (Qltb 100 _) eqn:E; [|field].
  - apply Qltb_true in E. exfalso. revert E. apply Qle_not_lt.
    setoid_replace (0 / line_length (street_geometry street) * 100) with 0
      using relation Qeq; [done|].
    unfold Qdiv. ring.
  - apply Qgtb_true in Hlen. intros Hz. rewrite Hz in Hlen. by apply Qlt_irrefl in Hlen.
Qed.

Lemma match_street_percent (buffers : list Polygon) (street street' : StreetRow) :
  match_walks.match_street buffers (set_coverage street false 0) = Ok street' ->
  exists v, coverage_percent street' = Some v /\ percent v.
Proof using laws.
  intros [[_ ->]|(_ & _ & ->)]%match_street_Ok; simpl.
  - eexists. split; [done | apply percent_0].
  - eexists. split; [done|].
    apply percent_capped', Qdiv_nonneg;
      [apply match_covered_length_nonneg | apply line_length_nonneg].
Qed.

End CoverageEngines.

(** C5.  Whatever the street and the walk buffers, the coverage percentage
    that each of the three coverage computations produces lies between 0 and
    100, however many buffers overlap on the street; it is 0 when no buffer
    intersects the street; and a percentage is produced for every street of
    positive length.  The three computations are [calculate_coverage], the
    loop body of [match_walks_to_streets] (on a street with its columns
    initialised) and the loop body of the city-specific [analyze_walks]
    (on a street that comes without coverage or with the initial one). *)
Theorem coverage_percent_in_range `{K : Shapely}
    (street : StreetRow) (buffers : list Polygon)
    (valid_walks : list WalkRow) (d : Q) :
  ShapelyLaws K ->
  starts_uncovered street ->
  let geom := street_geometry street in
  let fresh := set_coverage street false 0 in
  let updated := city_specific.update_street d valid_walks
                   (city_specific.init_columns street) in
  ((forall v, geo_utils.calculate_coverage geom buffers = Ok v -> percent v)
   /\ ((forall b, b ∈ buffers -> intersects b geom = false) ->
       geo_utils.calculate_coverage geom buffers = Ok 0%Q)
   /\ ((0 < line_length geom)%Q ->
       exists v, geo_utils.calculate_coverage geom buffers = Ok v))
  /\ ((forall street', match_walks.match_street buffers fresh = Ok street' ->
         exists v, coverage_percent street' = Some v /\ percent v)
      /\ ((forall b, b ∈ buffers -> intersects b geom = false) ->
          match_walks.match_street buffers fresh = Ok fresh)
      /\ ((0 < line_length geom)%Q ->
          exists street', match_walks.match_street buffers fresh = Ok street'))
  /\ ((exists v, coverage_percent updated = Some v /\ percent v)
      /\ ((forall w, w ∈ valid_walks ->
             intersects (buffer (geometry w) d) geom = false) ->
          exists v, coverage_percent updated = Some v /\ (v == 0)%Q)).
Proof.
  intros laws Hstart geom fresh updated. split_and!.
  - intros v. apply calculate_coverage_range.
  - apply calculate_coverage_no_hit.
  - apply calculate_coverage_total.
  - intros street'. apply match_street_percent.
  - intros Hmiss. unfold match_walks.match_street. cbn zeta.
    change (street_geometry fresh) with geom.
    by rewrite (filter_no_hit geom buffers Hmiss).
  - intros Hpos. unfold match_walks.match_street. cbn zeta.
    case_bool_decide; simpl; [eauto|].
    rewrite truediv_nonzero; [simpl; eauto|].
    intros Hz. apply Qlt_not_eq in Hpos. apply Hpos. symmetry. exact Hz.
  - by apply update_street_percent.
  - by apply update_street_no_hit.
Qed.

(** *** The unit-cell geometry satisfies the laws *)

Lemma polyline_length_nonneg (line : list Z) : (0 <= Cells.polyline_length line)%Z.
Proof. induction line as [|a [|b line] IH]; simpl in *; lia. Qed.

Lemma cells_laws : ShapelyLaws Cells.kernel.
Proof.
  split.
  - intros g. cbn. unfold Qle. simpl. lia.
  - intros s. cbn. unfold Qle. simpl. pose proof (polyline_length_nonneg s). lia.
  - intros p s. cbn. apply bool_decide_not.
  - intros s a b. cbn. rewrite <- bool_decide_and.
    apply bool_decide_ext. rewrite intersection_union_l_L. apply empty_union_L.
Qed.

Lemma coverage_percent_in_range_witness :
  let geom := street_geometry walked_street in
  let fresh := set_coverage walked_street false 0 in
  let updated := city_specific.update_street 8 [stroll; stroll]
                   (city_specific.init_columns walked_street) in
  ((forall v, geo_utils.calculate_coverage geom overlapping_buffers = Ok v -> percent v)
   /\ ((forall b, b ∈ overlapping_buffers -> intersects b geom = false) ->
       geo_utils.calculate_coverage geom overlapping_buffers = Ok 0%Q)
   /\ ((0 < line_length geom)%Q ->
       exists v, geo_utils.calculate_coverage geom overlapping_buffers = Ok v))
  /\ ((forall street', match_walks.match_street overlapping_buffers fresh = Ok street' ->
         exists v, coverage_percent street' = Some v /\ percent v)
      /\ ((forall b, b ∈ overlapping_buffers -> intersects b geom = false) ->
          match_walks.match_street overlapping_buffers fresh = Ok fresh)
      /\ ((0 < line_length geom)%Q ->
          exists street', match_walks.match_street overlapping_buffers fresh = Ok street'))
  /\ ((exists v, coverage_percent updated = Some v /\ percent v)
      /\ ((forall w, w ∈ [stroll; stroll] ->
             intersects (buffer (geometry w) 8) geom = false) ->
          exists v, coverage_percent updated = Some v /\ (v == 0)%Q)).
Proof.
  apply (coverage_percent_in_range (K:=Cells.kernel)
           walked_street overlapping_buffers [stroll; stroll] 8).
  - exact cells_laws.
  - split; reflexivity.
Defined.

(** Two buffers that overlap on the street: the covered lengths add up to
    more than the street, and the percentage is capped at 100. *)
Lemma overlapping_buffers_capped :
  match_walks.covered_length_of (street_geometry walked_street) overlapping_buffers = 20%Q
  /\ line_length (street_geometry walked_street) = 10%Q
  /\ match_walks.match_street overlapping_buffers (set_coverage walked_street false 0)
     = Ok (set_coverage walked_street true 100)
  /\ geo_utils.calculate_coverage (street_geometry walked_street) overlapping_buffers = Ok 100.0%Q.
Proof. split_and!; vm_compute; reflexivity. Qed.

(** ** The covered flag *)

Section CoveredFlag.
Context `{K : Shapely}.
Local Open Scope Q_scope.

Lemma pymin_positive (p : Q) : Qgtb (pymin p 100) 0 = Qgtb p 0.
Proof.
  unfold pymin. destruct (Qltb 100 p) eqn:E; [|done].
  apply Qltb_true in E. symmetry. apply Qgtb_true.
  by apply Qlt_trans with 100.
Qed.

(** Every street row that [walk_analyzer.analyze_walks] returns has its flag
    computed from its percentage. *)
Lemma walk_analyzer_rows (walks_gdf : WalksFrame) (streets_gdf : StreetsFrame)
    (city : string) (res : walk_analyzer.Analysis) (row : StreetRow) :
  walk_analyzer.analyze_walks walks_gdf streets_gdf city = Ok res ->
  row ∈ streets_rows (walk_analyzer.result_streets res) ->
  exists street coverage buffers,
    street ∈ streets_rows streets_gdf
    /\ geo_utils.calculate_coverage (street_geometry street) buffers = Ok coverage
    /\ row = set_coverage street (Qgtb coverage 0) coverage.
Proof.
  unfold walk_analyzer.analyze_walks.
  intros (valid & _ & H)%bind_Ok.
  apply bind_Ok in H as (frame & _ & H).
  apply bind_Ok in H as (params & _ & H).
  apply bind_Ok in H as (buffers & _ & H).
  apply bind_Ok in H as (rows & Hrows%for_each_Ok & [= <-]). simpl.
  intros (i & Hi)%list_elem_of_lookup.
  destruct (Forall2_lookup_r _ _ _ _ _ Hrows Hi) as (street & Hstreet & Hrow).
  apply bind_Ok in Hrow as (coverage & Hcoverage & [= <-]).
  exists street, coverage, buffers. split_and!; [|done..].
  apply list_elem_of_lookup. eauto.
Qed.

Lemma match_street_covered (buffers : list Polygon) (street street' : StreetRow) :
  match_walks.match_street buffers (set_coverage street false 0) = Ok street' ->
  (covered street' = Some true
   <-> exists b, b ∈ buffers /\ intersects b (street_geometry street) = true)
  /\ (covered street' = Some true \/ covered street' = Some false)
  /\ exists v, coverage_percent street' = Some v
               /\ (0 < v -> covered street' = Some true).
Proof.
  intros [[Hhits ->]|(Hhits & _ & ->)]%match_street_Ok; simpl in *.
  - split_and!.
    + split; [done|]. intros (b & Hb & Hhit).
      by destruct (filter_nil_not_elem_of _ _ b Hhits Hhit).
    + by right.
    + exists 0. split; [done|]. intros H. by apply Qlt_irrefl in H.
  - split_and!.
    + split; [|done]. intros _.
      destruct (filter _ buffers) as [|b hits] eqn:E; [done|].
      assert (b ∈ filter (fun b => intersects b (street_geometry street) = true) buffers)
        as [Hhit Hb]%list_elem_of_filter by (rewrite E; left).
      eauto.
    + by left.
    + eauto.
Qed.

Lemma update_street_covered (d : Q) (walks : list WalkRow) (street : StreetRow) :
  starts_uncovered street ->
  let updated := city_specific.update_street d walks (city_specific.init_columns street) in
  exists v, coverage_percent updated = Some v /\ covered updated = Some (Qgtb v 0).
Proof.
  intros [Hflag Hzero] updated. unfold updated, city_specific.update_street. cbn zeta.
  destruct (Qgtb _ 0) eqn:Hlen; simpl.
  - eexists. split; [done|]. by rewrite pymin_positive.
  - eexists. split; [done|]. rewrite Hflag. f_equal. symmetry.
    apply Qgtb_false. rewrite Hzero. apply Qle_refl.
Qed.

End CoveredFlag.

(** *** Whole tables

    The street tables the three functions return: every row carries a
    percentage. *)

Section Tables.
Context `{K : Shapely} {laws : ShapelyLaws K}.
Local Open Scope Q_scope.

Lemma walk_analyzer_table_percent (walks_gdf : WalksFrame) (streets_gdf : StreetsFrame)
    (city : string) (res : walk_analyzer.Analysis) (row : StreetRow) :
  walk_analyzer.analyze_walks walks_gdf streets_gdf city = Ok res ->
  row ∈ streets_rows (walk_analyzer.result_streets res) ->
  exists v, coverage_percent row = Some v /\ percent v.
Proof using laws.
  intros Hres Hrow.
  destruct (walk_analyzer_rows _ _ _ _ _ Hres Hrow) as (s & c & bs & _ & Hc & ->).
  exists c. split; [done|]. by eapply calculate_coverage_range.
Qed.

Lemma match_walks_table_percent (walks_gdf : WalksFrame) (streets_gdf out : StreetsFrame)
    (d : Q) (row : StreetRow) :
  walks_rows walks_gdf <> [] ->
  match_walks.match_walks_to_streets walks_gdf streets_gdf d = Ok out ->
  row ∈ streets_rows out ->
  exists v, coverage_percent row = Some v /\ percent v.
Proof using laws.
  intros Hwalks. unfold match_walks.match_walks_to_streets.
  rewrite (bool_decide_eq_false_2 _ Hwalks). simpl.
  case_bool_decide as Hstreets.
  - intros [= <-]. rewrite Hstreets. by intros ?%elem_of_nil.
  - intros (buffers & _ & H)%bind_Ok.
    apply bind_Ok in H as (rows & Hrows%for_each_Ok & [= <-]). simpl.
    intros (i & Hi)%list_elem_of_lookup.
    destruct (Forall2_lookup_r _ _ _ _ _ Hrows Hi) as (s & Hs & Hrow).
    apply list_lookup_fmap_Some in Hs as (s0 & -> & _).
    by eapply match_street_percent.
Qed.

Lemma city_table_percent (walks_gdf valid : WalksFrame) (streets_gdf out : StreetsFrame)
    (city : string) (row : StreetRow) :
  (forall s, s ∈ streets_rows streets_gdf -> starts_uncovered s) ->
  city_specific.analyze_walks walks_gdf streets_gdf city = Ok (out, valid) ->
  row ∈ streets_rows out ->
  exists v, coverage_percent row = Some v /\ percent v.
Proof using laws.
  intros Hstart. unfold city_specific.analyze_walks.
  intros (params & _ & H)%bind_Ok.
  apply bind_Ok in H as (walks & _ & [= <- <-]). simpl.
  rewrite <- list_fmap_compose.
  intros (s & -> & Hs)%list_elem_of_fmap.
  apply update_street_percent. by apply Hstart.
Qed.

End Tables.

(** C6 (counterexample).  The buffer of the stroll touches a street in one
    point: [match_walks_to_streets] marks the street covered although its
    coverage percentage is 0. *)
Lemma covered_without_coverage :
  match_walks.match_walks_to_streets stroll_only touched_streets 8
  = Ok (mkStreetsFrame (Some "EPSG:4326") [mkStreetRow 3 [18; 19]%Z (Some true) (Some 0%Q)])
  /\ Qgtb 0 0 = false.
Proof. split_and!; vm_compute; reflexivity. Qed.

(** C6 (amended).  In [walk_analyzer.analyze_walks] every street row
    returned has [covered = (coverage_percent > 0)], and so has a street
    updated by the city-specific [analyze_walks] when it starts uncovered.
    In [match_walks_to_streets] a street is covered exactly when some walk
    buffer intersects it; a positive percentage implies the flag, but not
    the other way round. *)
Theorem covered_flag_spec `{K : Shapely}
    (walks_gdf : WalksFrame) (streets_gdf : StreetsFrame) (city : string)
    (res : walk_analyzer.Analysis) (row : StreetRow)
    (buffers : list Polygon) (street street' : StreetRow)
    (d : Q) (valid_walks : list WalkRow) (street0 : StreetRow) :
  walk_analyzer.analyze_walks walks_gdf streets_gdf city = Ok res ->
  row ∈ streets_rows (walk_analyzer.result_streets res) ->
  match_walks.match_street buffers (set_coverage street false 0) = Ok street' ->
  starts_uncovered street0 ->
  (exists v, coverage_percent row = Some v /\ covered row = Some (Qgtb v 0))
  /\ (exists v,
         coverage_percent
           (city_specific.update_street d valid_walks (city_specific.init_columns street0))
         = Some v
         /\ covered
              (city_specific.update_street d valid_walks (city_specific.init_columns street0))
            = Some (Qgtb v 0))
  /\ (covered street' = Some true
      <-> exists b, b ∈ buffers /\ intersects b (street_geometry street) = true)
  /\ (covered street' = Some true \/ covered street' = Some false)
  /\ (exists v, coverage_percent street' = Some v
                /\ ((0 < v)%Q -> covered street' = Some true)).
Proof.
  intros Hres Hrow Hmatch Hstart.
  destruct (walk_analyzer_rows _ _ _ _ _ Hres Hrow) as (s & c & _ & _ & _ & ->).
  split; [by exists c|].
  split; [by apply update_street_covered|].
  by apply match_street_covered.
Qed.

Lemma covered_flag_spec_witness :
  let row := mkStreetRow 1 [0; 10]%Z (Some true) (Some 100.0%Q) in
  let street' := set_coverage touched_street true 0 in
  (exists v, coverage_percent row = Some v /\ covered row = Some (Qgtb v 0))
  /\ (exists v,
         coverage_percent
           (city_specific.update_street 8 [stroll] (city_specific.init_columns touched_street))
         = Some v
         /\ covered
              (city_specific.update_street 8 [stroll] (city_specific.init_columns touched_street))
            = Some (Qgtb v 0))
  /\ (covered street' = Some true
      <-> exists b, b ∈ [stroll_buffer]
                    /\ intersects b (street_geometry touched_street) = true)
  /\ (covered street' = Some true \/ covered street' = Some false)
  /\ (exists v, coverage_percent street' = Some v
                /\ ((0 < v)%Q -> covered street' = Some true)).
Proof.
  apply (covered_flag_spec (K:=Cells.kernel)
           sample_walks sample_streets "london" sample_analysis
           (mkStreetRow 1 [0; 10]%Z (Some true) (Some 100.0%Q))
           [stroll_buffer] touched_street (set_coverage touched_street true 0)
           8 [stroll] touched_street).
  - vm_compute. reflexivity.
  - left.
  - vm_compute. reflexivity.
  - split; reflexivity.
Defined.

(** ** Streets of length zero *)

(** Without a guard, a street of length zero that a buffer intersects makes
    [match_street] divide by zero. *)
Lemma match_street_zero_length `{K : Shapely}
    (buffers : list Polygon) (street : StreetRow) (b : Polygon) :
  (line_length (street_geometry street) == 0)%Q ->
  b ∈ buffers -> intersects b (street_geometry street) = true ->
  match_walks.match_street buffers street = Raise ZeroDivisionError.
Proof.
  intros Hzero Hb Hhit. unfold match_walks.match_street. cbn zeta.
  case_bool_decide as Hhits; simpl.
  - by destruct (filter_nil_not_elem_of _ _ b Hhits Hhit).
  - by rewrite truediv_zero.
Qed.

(** C7 (the code at the failing input).  A street of length zero lies under
    the buffer of the stroll.  [match_walks_to_streets] and
    [calculate_coverage] both raise [ZeroDivisionError] on it; the
    city-specific [analyze_walks], which has the guard, leaves it at
    [covered = False] and [coverage_percent = 0]. *)
Theorem zero_length_street_raises :
  line_length (street_geometry point_street) = 0%Q
  /\ intersects stroll_buffer (street_geometry point_street) = true
  /\ match_walks.match_walks_to_streets stroll_only point_streets 8
     = Raise ZeroDivisionError
  /\ geo_utils.calculate_coverage (street_geometry point_street) [stroll_buffer]
     = Raise ZeroDivisionError
  /\ city_specific.analyze_walks stroll_only point_streets "london"
     = Ok (mkStreetsFrame (Some "EPSG:4326")
             [mkStreetRow 5 [5; 5]%Z (Some false) (Some 0%Q)],
           stroll_only).
Proof. split_and!; vm_compute; reflexivity. Qed.

(** * Further properties *)

(** ** The segment splitter at its edges *)

Section SplitterEdges.
Context {A T : Type}.
Import analyze_walks.
Implicit Types (st : split_state (A:=A) (T:=T)) (item : A * T)
  (items : list (A * T)) (coords : list A) (timestamps : list T).

Lemma split_step_small (N : Z) st item :
  (N <= 2)%Z -> in_step st -> split_step N st item = split_step 2 st item.
Proof.
  intros HN [_ Hstep]. destruct item as [c t]. unfold split_step.
  destruct (current_segment st) as [|c0 cur]; simpl.
  - destruct (current_timestamps st); [|done].
    by destruct (N <=? Z.of_nat 1)%Z.
  - rewrite length_app. simpl.
    destruct (Z.leb_spec N (Z.of_nat (S (length cur + 1)))); [|lia].
    destruct (Z.leb_spec 2 (Z.of_nat (S (length cur + 1)))); [done | lia].
Qed.

Lemma split_loop_small (N : Z) items : forall st,
  (N <= 2)%Z -> in_step st ->
  fold_left (split_step N) items st = fold_left (split_step 2) items st.
Proof.
  induction items as [|item items IH]; intros st HN Hstep; [done|].
  simpl. rewrite split_step_small by done. apply IH; [done|].
  by apply split_step_in_step.
Qed.

Lemma last_cons_default {X} (x y : X) (l : list X) :
  default x (last (y :: l)) = default y (last l).
Proof.
  destruct l as [|z l]; [done|]. change (last (y :: z :: l)) with (last (z :: l)).
  destruct (last (z :: l)) eqn:E; [done|]. by apply last_None in E.
Qed.

Lemma split_step_pair (c c' : A) (t t' : T) segs tsegs :
  split_step 2 (mkSplit segs tsegs [c] [t]) (c', t')
  = mkSplit (segs ++ [[c; c']]) (tsegs ++ [[t; t']]) [c'] [t'].
Proof. reflexivity. Qed.

Lemma split_loop_pairs items : forall (c : A) (t : T) segs tsegs,
  fold_left (split_step 2) items (mkSplit segs tsegs [c] [t])
  = mkSplit (segs ++ pairs (c :: items.*1)) (tsegs ++ pairs (t :: items.*2))
            [default c (last items.*1)] [default t (last items.*2)].
Proof.
  induction items as [|[c' t'] items IH]; intros c t segs tsegs.
  - simpl. by rewrite !app_nil_r.
  - cbn [fold_left]. rewrite split_step_pair, IH.
    rewrite <- !(assoc_L (++)). cbn [fmap list_fmap fst snd].
    rewrite !last_cons_default.
    change (pairs (c :: c' :: items.*1)) with ([c; c'] :: pairs (c' :: items.*1)).
    change (pairs (t :: t' :: items.*2)) with ([t; t'] :: pairs (t' :: items.*2)).
    done.
Qed.

Lemma split_loop_below (N : Z) items : forall st,
  (Z.of_nat (length (current_segment st) + length items) < N)%Z ->
  fold_left (split_step N) items st
  = mkSplit (segments st) (segment_timestamps st)
            (current_segment st ++ items.*1) (current_timestamps st ++ items.*2).
Proof.
  induction items as [|[c t] items IH]; intros st Hlen.
  - simpl. rewrite !app_nil_r. by destruct st.
  - cbn [fold_left]. simpl in Hlen. rewrite IH.
    + unfold split_step. rewrite length_app. simpl.
      destruct (Z.leb_spec N (Z.of_nat (length (current_segment st) + 1))); [lia|].
      simpl. by rewrite <- !(assoc_L (++)).
    + unfold split_step. rewrite length_app. simpl.
      destruct (Z.leb_spec N (Z.of_nat (length (current_segment st) + 1))); [lia|].
      simpl. rewrite length_app. simpl. lia.
Qed.

End SplitterEdges.

(** X1.  With a segment size of 2 or less (1, 0 and negative sizes
    included) the splitter returns the pairs of neighbouring points: every
    segment has two points and there is one per step of the path. *)
Theorem split_small_segment_size {A T : Type}
    (coords : list A) (timestamps : list T) (N : Z) :
  (N <= 2)%Z ->
  length timestamps = length coords ->
  analyze_walks.split_path_into_segments coords timestamps N
  = (pairs coords, pairs timestamps).
Proof.
  intros HN Hlen. unfold analyze_walks.split_path_into_segments, analyze_walks.split_loop.
  rewrite split_loop_small by (done || (split; [constructor | done])).
  destruct coords as [|c coords], timestamps as [|t timestamps]; try done.
  cbn [zip zip_with fold_left].
  change (analyze_walks.split_step 2 (analyze_walks.mkSplit [] [] [] []) (c, t))
    with (analyze_walks.mkSplit (A:=A) (T:=T) [] [] [c] [t]).
  rewrite split_loop_pairs. cbn.
  injection Hlen as Hlen.
  by rewrite fst_zip, snd_zip by lia.
Qed.

Lemma split_small_segment_size_witness :
  analyze_walks.split_path_into_segments [1; 2; 3; 4] [10; 20; 30; 40] (-7)
  = ([[1; 2]; [2; 3]; [3; 4]], [[10; 20]; [20; 30]; [30; 40]]).
Proof.
  apply (split_small_segment_size [1; 2; 3; 4] [10; 20; 30; 40] (-7)).
  - lia.
  - reflexivity.
Defined.

(** X2.  When there are fewer than two points, or fewer than two
    timestamps, the splitter returns no segment, whatever the segment
    size. *)
Theorem split_too_short {A T : Type}
    (coords : list A) (timestamps : list T) (N : Z) :
  length coords < 2 \/ length timestamps < 2 ->
  analyze_walks.split_path_into_segments coords timestamps N = ([], []).
Proof.
  intros Hshort.
  unfold analyze_walks.split_path_into_segments, analyze_walks.split_loop.
  destruct coords as [|c [|c' coords]], timestamps as [|t [|t' timestamps]];
    simpl in Hshort; try lia; try done.
  all: cbn [zip zip_with fold_left]; unfold analyze_walks.split_step; cbn.
  all: try done; by destruct (N <=? Z.of_nat 1)%Z.
Qed.

Lemma split_too_short_witness :
  analyze_walks.split_path_into_segments [1; 2; 3] [10] 5 = ([], []).
Proof.
  apply (split_too_short [1; 2; 3] [10] 5). right. simpl. lia.
Defined.

(** X3.  A path of at least two points that is shorter than the segment
    size comes back as one segment, the whole path. *)
Theorem split_single_segment {A T : Type}
    (coords : list A) (timestamps : list T) (N : Z) :
  2 <= length coords ->
  (Z.of_nat (length coords) < N)%Z ->
  length timestamps = length coords ->
  analyze_walks.split_path_into_segments coords timestamps N
  = ([coords], [timestamps]).
Proof.
  intros HL HN Hlen.
  unfold analyze_walks.split_path_into_segments, analyze_walks.split_loop.
  rewrite split_loop_below by (simpl; rewrite length_zip; lia).
  cbn [analyze_walks.current_segment analyze_walks.current_timestamps
       analyze_walks.segments analyze_walks.segment_timestamps app].
  rewrite fst_zip, snd_zip by lia.
  by destruct (Nat.leb_spec 2 (length coords)); [|lia].
Qed.

Lemma split_single_segment_witness :
  analyze_walks.split_path_into_segments [1; 2; 3] [10; 20; 30] 5
  = ([[1; 2; 3]], [[10; 20; 30]]).
Proof.
  apply (split_single_segment [1; 2; 3] [10; 20; 30] 5).
  - simpl. lia.
  - simpl. lia.
  - reflexivity.
Defined.

Section SplitterCount.
Context {A T : Type}.
Import analyze_walks.

(** The state the loop ends in, in the terms of the invariant: the segments
    returned are the full runs and, when it has two points, the partial
    run. *)
Lemma split_result_inv (coords : list A) (timestamps : list T) (n : nat) :
  2 <= n ->
  exists full partial,
    split_inv n (zip coords timestamps).*1 (full, partial)
    /\ (split_path_into_segments coords timestamps (Z.of_nat n)).1
       = if (2 <=? length partial)%nat then full ++ [partial] else full.
Proof.
  intros Hn. unfold split_path_into_segments.
  set (st := split_loop (Z.of_nat n) (zip coords timestamps)).
  pose proof (split_loop_coords (Z.of_nat n) (zip coords timestamps)
                (mkSplit [] [] [] [])) as Hfst.
  cbn zeta in Hfst. fold (split_loop (Z.of_nat n) (zip coords timestamps)) in Hfst.
  fold st in Hfst. cbn [segments current_segment] in Hfst.
  pose proof (split_inv_fold n (zip coords timestamps).*1 [] _ Hn (split_inv_init n Hn))
    as Hinv.
  rewrite <- Hfst, app_nil_l in Hinv.
  exists (segments st), (current_segment st). split; [done|].
  by destruct (2 <=? length (current_segment st))%nat.
Qed.

Lemma split_result_in_step (coords : list A) (timestamps : list T) (N : Z) :
  Forall2 (fun s t => length s = length t)
    (split_path_into_segments coords timestamps N).1
    (split_path_into_segments coords timestamps N).2.
Proof.
  unfold split_path_into_segments.
  set (st := split_loop N (zip coords timestamps)).
  assert (in_step st) as [Hsegs Hcur].
  { apply split_loop_in_step. split; [constructor | done]. }
  destruct (2 <=? length (current_segment st))%nat; simpl; [|done].
  apply Forall2_app; [done|]. by constructor.
Qed.

Lemma join_runs_length (n : nat) (full : list (list A)) (partial : list A) :
  Forall (fun run => length run = n) full ->
  (partial = [] -> full = []) ->
  1 <= n ->
  length (join (full ++ [partial])) = length full * (n - 1) + length partial.
Proof.
  intros Hfull Hne Hn. destruct full as [|s full]; simpl.
  - by rewrite app_nil_r.
  - apply Forall_cons in Hfull as [Hs Hfull]. rewrite length_app, Hs.
    assert (length (concat (map (drop 1) (full ++ [partial])))
            = length full * (n - 1) + (length partial - 1)) as ->.
    { clear Hs Hne. induction Hfull as [|r full Hr _ IH]; simpl.
      - rewrite app_nil_r, length_drop. lia.
      - rewrite length_app, length_drop, IH, Hr. lia. }
    destruct partial; [by specialize (Hne eq_refl)|]. simpl. lia.
Qed.

End SplitterCount.

(** X4.  For at least two points, as many timestamps and a segment size
    [N >= 2], the splitter returns [ceil((L - 1) / (N - 1))] segments, where
    [L] is the number of points; and as many timestamp segments. *)
Theorem split_segment_count {A T : Type}
    (coords : list A) (timestamps : list T) (N : Z) :
  2 <= length coords ->
  length timestamps = length coords ->
  (2 <= N)%Z ->
  Z.of_nat (length (analyze_walks.split_path_into_segments coords timestamps N).1)
  = ((Z.of_nat (length coords) + N - 3) / (N - 1))%Z
  /\ length (analyze_walks.split_path_into_segments coords timestamps N).2
     = length (analyze_walks.split_path_into_segments coords timestamps N).1.
Proof.
  intros HL Hlen HN.
  split; [|symmetry; eapply Forall2_length, split_result_in_step].
  assert (exists n, N = Z.of_nat n /\ 2 <= n) as (n & -> & Hn)
    by (exists (Z.to_nat N); lia).
  destruct (split_result_inv coords timestamps n Hn)
    as (full & partial & [Hfull Hshort Hne _ Hjoin] & ->).
  cbn [fst snd] in *. rewrite fst_zip in Hjoin by lia.
  pose proof (join_runs_length n full partial Hfull Hne ltac:(lia)) as Hcount.
  rewrite Hjoin in Hcount.
  destruct (Nat.leb_spec 2 (length partial)) as [Hp|Hp].
  - rewrite length_app. simpl.
    apply Z.div_unique with (Z.of_nat (length partial) - 2)%Z; nia.
  - assert (length partial = 1) as Hone.
    { destruct partial; [|simpl in *; lia].
      rewrite (Hne eq_refl) in Hcount. simpl in *. lia. }
    apply Z.div_unique with (Z.of_nat n - 2)%Z; nia.
Qed.

Lemma split_segment_count_witness :
  Z.of_nat (length (analyze_walks.split_path_into_segments
                      [1; 2; 3; 4; 5; 6; 7; 8; 9; 10]
                      [1; 2; 3; 4; 5; 6; 7; 8; 9; 10] 5).1)
  = ((Z.of_nat (length [1; 2; 3; 4; 5; 6; 7; 8; 9; 10]) + 5 - 3) / (5 - 1))%Z
  /\ length (analyze_walks.split_path_into_segments
               [1; 2; 3; 4; 5; 6; 7; 8; 9; 10]
               [1; 2; 3; 4; 5; 6; 7; 8; 9; 10] 5).2
     = length (analyze_walks.split_path_into_segments
                 [1; 2; 3; 4; 5; 6; 7; 8; 9; 10]
                 [1; 2; 3; 4; 5; 6; 7; 8; 9; 10] 5).1.
Proof.
  apply (split_segment_count [1; 2; 3; 4; 5; 6; 7; 8; 9; 10]
           [1; 2; 3; 4; 5; 6; 7; 8; 9; 10] 5).
  - simpl. lia.
  - reflexivity.
  - lia.
Defined.

Section SplitterElements.
Context {A T : Type}.
Import analyze_walks.
Variables (P : A -> Prop) (R : T -> Prop).
Local Abbreviation all_from := (all_from P R).

Lemma split_step_from (N : Z) (st : split_state) (item : A * T) :
  all_from st -> P item.1 -> R item.2 -> all_from (split_step N st item).
Proof.
  intros (Hs & Ht & Hc & Hct) HP HR. destruct item as [c t]. simpl in *.
  assert (Forall P (current_segment st ++ [c])) by (apply Forall_app; auto).
  assert (Forall R (current_timestamps st ++ [t])) by (apply Forall_app; auto).
  unfold split_step. repeat case_match; repeat split; simpl; auto.
  all: apply Forall_app; auto.
Qed.

Lemma split_loop_from (N : Z) (items : list (A * T)) : forall st,
  all_from st -> Forall (fun item => P item.1 /\ R item.2) items ->
  all_from (fold_left (split_step N) items st).
Proof.
  induction items as [|item items IH]; intros st Hst Hitems; [done|].
  apply Forall_cons in Hitems as [[HP HR] Hitems].
  simpl. apply IH; [|done]. by apply split_step_from.
Qed.

Lemma split_result_from (coords : list A) (timestamps : list T) (N : Z) :
  Forall P coords -> Forall R timestamps ->
  Forall (Forall P) (split_path_into_segments coords timestamps N).1
  /\ Forall (Forall R) (split_path_into_segments coords timestamps N).2.
Proof.
  intros HP HR. unfold split_path_into_segments.
  assert (all_from (split_loop N (zip coords timestamps))) as (Hs & Ht & Hc & Hct).
  { apply split_loop_from; [by repeat split|].
    apply Forall_forall. intros [c t] Hin. simpl.
    rewrite Forall_forall in HP. rewrite Forall_forall in HR.
    split; [apply HP | apply HR].
    - by eapply elem_of_zip_l.
    - by eapply elem_of_zip_r. }
  destruct (2 <=? length _)%nat; simpl; [|done].
  split; apply Forall_app; auto.
Qed.

End SplitterElements.

(** X5.  The splitter invents nothing: every point of every segment is a
    point of the input, and every timestamp of every timestamp segment is a
    timestamp of the input, whatever the segment size. *)
Theorem split_segments_from_input {A T : Type}
    (coords : list A) (timestamps : list T) (N : Z) :
  Forall (fun seg => seg ⊆ coords)
    (analyze_walks.split_path_into_segments coords timestamps N).1
  /\ Forall (fun tseg => tseg ⊆ timestamps)
       (analyze_walks.split_path_into_segments coords timestamps N).2.
Proof.
  destruct (split_result_from (fun c => c ∈ coords) (fun t => t ∈ timestamps)
              coords timestamps N) as [Hs Ht].
  - by apply Forall_forall.
  - by apply Forall_forall.
  - split; (eapply Forall_impl; [eassumption|]); intros seg Hseg x Hx;
      rewrite Forall_forall in Hseg; by apply Hseg.
Qed.

(** ** Segment metrics and the segment pipeline *)


Lemma item_last_cons {X} (x : X) (l : list X) : exists z, item_last (x :: l) = Ok z.
Proof.
  unfold item_last. destruct (last (x :: l)) eqn:E; [eauto|].
  by apply last_None in E.
Qed.

Section SegmentMetrics.
Context `{M : MathLib}.
Import analyze_walks.
Local Open Scope Q_scope.

Lemma fromisoformat_malformed (ts : list Timestamp) :
  Forall (fun t => is_str t = true) ts -> IsoString None ∈ ts ->
  for_each fromisoformat ts = Raise ValueError.
Proof.
  induction 1 as [|t ts Ht _ IH]; intros Hin; [by apply elem_of_nil in Hin|].
  destruct t as [s|[s|]]; simpl in *; try done.
  apply elem_of_cons in Hin as [?|Hin]; [done|]. by rewrite IH.
Qed.




End SegmentMetrics.

(** X6.  Given at least two coordinates, [calculate_segment_metrics] never
    returns [None]: it returns metrics or raises.  It raises [IndexError]
    on an empty timestamp list, and [ValueError] when the timestamps are
    strings one of which is malformed. *)
Theorem segment_metrics_raises `{M : MathLib}
    (points : list Coord) (times : list Timestamp) :
  2 <= length points ->
  analyze_walks.calculate_segment_metrics points times <> Ok None
  /\ (times = [] ->
      analyze_walks.calculate_segment_metrics points times = Raise IndexError)
  /\ (Forall (fun t => analyze_walks.is_str t = true) times ->
      IsoString None ∈ times ->
      analyze_walks.calculate_segment_metrics points times = Raise ValueError).
Proof.
  intros Hlen. unfold analyze_walks.calculate_segment_metrics.
  destruct (Nat.ltb_spec (length points) 2) as [?|_]; [lia|].
  split_and!.
  - intros H. repeat (apply bind_Ok in H as (? & _ & H)). done.
  - by intros ->.
  - intros Hstr Hbad. destruct times as [|t0 times]; [by apply elem_of_nil in Hbad|].
    cbn [item_first mbind result_bind].
    apply Forall_cons in Hstr as Hstr'. destruct Hstr' as [-> _].
    by rewrite fromisoformat_malformed.
Qed.

Lemma segment_metrics_raises_witness :
  analyze_walks.calculate_segment_metrics (M:=Meridian.math)
    short_segment [IsoString (Some 0%Q); IsoString None] <> Ok None
  /\ ([IsoString (Some 0%Q); IsoString None] = [] ->
      analyze_walks.calculate_segment_metrics (M:=Meridian.math)
        short_segment [IsoString (Some 0%Q); IsoString None] = Raise IndexError)
  /\ (Forall (fun t => analyze_walks.is_str t = true)
             [IsoString (Some 0%Q); IsoString None] ->
      IsoString None ∈ [IsoString (Some 0%Q); IsoString None] ->
      analyze_walks.calculate_segment_metrics (M:=Meridian.math)
        short_segment [IsoString (Some 0%Q); IsoString None] = Raise ValueError).
Proof.
  apply (segment_metrics_raises (M:=Meridian.math) short_segment
           [IsoString (Some 0%Q); IsoString None]).
  simpl. lia.
Defined.


Lemma Forall_concat_intro {X} (P : X -> Prop) (ls : list (list X)) :
  Forall (Forall P) ls -> Forall P (concat ls).
Proof. induction 1; simpl; [done|]. by apply Forall_app. Qed.

Section SegmentPipeline.
Context `{M : MathLib} `{K : Shapely}.
Import analyze_walks.
Local Open Scope Q_scope.

(** What [walking_segments_of] keeps: segments of the split whose metrics
    are computed and not classified as transit. *)
Lemma walking_segments_spec (row : WalkRow)
    (kept : list (list Coord * SegmentMetrics)) :
  walking_segments_of row = Ok kept ->
  Forall
    (fun sm =>
       exists tseg,
         (sm.1, tseg) ∈ zip
           (split_path_into_segments (coords (geometry row)) (row_timestamps row)
              default_segment_size).1
           (split_path_into_segments (coords (geometry row)) (row_timestamps row)
              default_segment_size).2
         /\ calculate_segment_metrics sm.1 tseg = Ok (Some sm.2)
         /\ is_probable_transit_segment (Some sm.2) = false)
    kept.
Proof.
  unfold walking_segments_of. fold (row_timestamps row).
  destruct (split_path_into_segments _ _ _) as [segs tsegs]. cbn [fst snd].
  intros (lists & Hlists%for_each_Ok & [= <-])%bind_Ok.
  apply Forall_concat_intro, Forall_forall.
  intros l (i & Hi)%list_elem_of_lookup.
  destruct (Forall2_lookup_r _ _ _ _ _ Hlists Hi) as ([seg tseg] & Hitem & Hl).
  apply bind_Ok in Hl as (metrics & Hm & Hl).
  destruct metrics as [m|]; [|by injection Hl as <-].
  destruct (is_probable_transit_segment (Some m)) eqn:Ht; simpl in Hl;
    injection Hl as <-; [done|].
  constructor; [|done]. exists tseg. split_and!; [|done..].
  apply list_elem_of_lookup. eauto.
Qed.

End SegmentPipeline.

Lemma segment_size_bound {A T : Type} (coords : list A) (timestamps : list T) (n : nat) :
  2 <= n ->
  Forall (fun seg => length seg <= n)
    (analyze_walks.split_path_into_segments coords timestamps (Z.of_nat n)).1.
Proof.
  intros Hn.
  destruct (split_result_inv coords timestamps n Hn)
    as (full & partial & [Hfull Hshort _ _ _] & ->).
  cbn [fst snd] in *.
  assert (Forall (fun seg : list A => length seg <= n) full)
    by (eapply Forall_impl; [exact Hfull|]; simpl; lia).
  destruct (2 <=? length partial)%nat; [|done].
  apply Forall_app. split; [done|]. constructor; [lia | done].
Qed.



(** X8.  Every segment that the analysis of a row keeps has been given
    metrics, is not classified as transit, has between 2 and 5 points, and
    consists of points of the row's geometry. *)
Theorem kept_segments_are_walking `{M : MathLib} `{K : Shapely}
    (row : WalkRow) (kept : list (list Coord * analyze_walks.SegmentMetrics)) :
  analyze_walks.walking_segments_of row = Ok kept ->
  Forall
    (fun sm =>
       analyze_walks.is_probable_transit_segment (Some sm.2) = false
       /\ 2 <= length sm.1 <= 5
       /\ sm.1 ⊆ coords (geometry row)
       /\ exists tseg,
            analyze_walks.calculate_segment_metrics sm.1 tseg = Ok (Some sm.2))
    kept.
Proof.
  intros Hkept%walking_segments_spec.
  eapply Forall_impl; [exact Hkept|].
  intros [seg m] (tseg & Hin & Hm & Hwalk). cbn [fst snd] in *.
  apply elem_of_zip_l in Hin.
  split_and!.
  - done.
  - apply calculate_segment_metrics_Some in Hm as (a & b & rest & _ & -> & _).
    simpl. lia.
  - pose proof (segment_size_bound (coords (geometry row)) (row_timestamps row) 5
                  ltac:(lia)) as Hbound.
    rewrite Forall_forall in Hbound. by apply Hbound.
  - destruct (split_result_from (fun c => c ∈ coords (geometry row)) (fun _ => True)
                (coords (geometry row)) (row_timestamps row)
                analyze_walks.default_segment_size) as [Hfrom _];
      [by apply Forall_forall.. |].
    rewrite Forall_forall in Hfrom. specialize (Hfrom seg Hin).
    rewrite Forall_forall in Hfrom. exact Hfrom.
  - eauto.
Qed.

Lemma kept_segments_are_walking_witness :
  Forall
    (fun sm =>
       analyze_walks.is_probable_transit_segment (Some sm.2) = false
       /\ 2 <= length sm.1 <= 5
       /\ sm.1 ⊆ coords (geometry straight_walk)
       /\ exists tseg,
            analyze_walks.calculate_segment_metrics (M:=Meridian.math) sm.1 tseg
            = Ok (Some sm.2))
    [([(0, 0); (3000, 0)]%Q,
      analyze_walks.mkSegmentMetrics (0 # 4) (0 # 4) (0 # 3600) 0 1 Inf)].
Proof.
  apply (kept_segments_are_walking (M:=Meridian.math) (K:=Cells.kernel) straight_walk).
  vm_compute. reflexivity.
Defined.

(** X9.  The summary at the end of the segment-level [analyze_walks]
    divides by the number of steps of the input paths.  A table whose paths
    have no step in total never gets a result, and on an empty table the
    function raises [ZeroDivisionError]. *)
Theorem analyze_walks_without_steps `{M : MathLib} `{K : Shapely}
    (walks_gdf : WalksFrame) :
  analyze_walks.count_steps (map (fun r => coords (geometry r)) (walks_rows walks_gdf))
  = 0%Z ->
  (exists e, analyze_walks.analyze_walks walks_gdf = Raise e)
  /\ (walks_rows walks_gdf = [] ->
      analyze_walks.analyze_walks walks_gdf = Raise ZeroDivisionError).
Proof.
  intros Hsteps. unfold analyze_walks.analyze_walks. rewrite Hsteps. split.
  - destruct (for_each _ _); simpl; eauto.
  - by intros ->.
Qed.

Lemma analyze_walks_without_steps_witness :
  (exists e, analyze_walks.analyze_walks (M:=Meridian.math) (K:=Cells.kernel)
               (mkWalksFrame (Some "EPSG:4326") []) = Raise e)
  /\ (walks_rows (mkWalksFrame (G:=list Z) (Some "EPSG:4326") []) = [] ->
      analyze_walks.analyze_walks (M:=Meridian.math) (K:=Cells.kernel)
        (mkWalksFrame (Some "EPSG:4326") []) = Raise ZeroDivisionError).
Proof.
  apply (analyze_walks_without_steps (M:=Meridian.math) (K:=Cells.kernel)
           (mkWalksFrame (Some "EPSG:4326"%string) [])).
  reflexivity.
Defined.

(** ** The trajectory rule and the city tables *)

Lemma city_tables_agree : config.CITY_PARAMS = city_specific.CITY_PARAMS.
Proof. reflexivity. Qed.

Lemma configured_direct_distance (city : string) (params : CityParams) :
  city_specific.CITY_PARAMS !! city = Some params ->
  (5000 <= max_direct_distance params)%Q.
Proof.
  unfold city_specific.CITY_PARAMS.
  rewrite !lookup_insert_Some, lookup_singleton_Some.
  intros [[_ <-]|[_ [[_ <-]|[_ [_ <-]]]]]; done.
Qed.

(** X10.  For a configured city a trip whose start and end are at most
    500 m apart is classified as transit exactly when its average speed
    exceeds 1.2 times the city's maximum walking speed: the three distance
    conditions of the rule cannot hold for it. *)
Theorem short_trip_speed_only (city : string) (params : CityParams) (m : PathMetrics) :
  city_specific.CITY_PARAMS !! city = Some params ->
  (direct_distance m <= 500)%Q ->
  city_specific.transit_rule params (Some m)
  = Qgtb (avg_speed m) (max_walking_speed params * 1.2)
  /\ walk_analyzer.transit_rule params (Some m)
     = Qgtb (avg_speed m) (max_walking_speed params * 1.2).
Proof.
  intros Hcity%configured_direct_distance Hshort.
  assert (Qgtb (direct_distance m) (max_direct_distance params) = false) as E1.
  { apply Qgtb_false. apply Qle_trans with 500%Q; [done|].
    by apply Qle_trans with 5000%Q. }
  assert (Qgtb (direct_distance m) 2000 = false) as E2.
  { apply Qgtb_false. by apply Qle_trans with 500%Q. }
  assert (Qgtb (direct_distance m) 500 = false) as E3 by by apply Qgtb_false.
  unfold city_specific.transit_rule, walk_analyzer.transit_rule.
  rewrite E1, E2, E3, andb_false_r. simpl.
  by destruct (Qgtb (avg_speed m) _).
Qed.

Lemma short_trip_speed_only_witness :
  city_specific.transit_rule london (Some degree_walk_metrics)
  = Qgtb (avg_speed degree_walk_metrics) (max_walking_speed london * 1.2)
  /\ walk_analyzer.transit_rule london (Some degree_walk_metrics)
     = Qgtb (avg_speed degree_walk_metrics) (max_walking_speed london * 1.2).
Proof.
  apply (short_trip_speed_only "london" london degree_walk_metrics).
  - vm_compute. reflexivity.
  - vm_compute. discriminate.
Defined.

(** X11.  The parameter table of [config.py] and the one of
    [analyze_walks_city_specific.py] hold the same thresholds for the same
    cities, and the two copies of the trajectory rule give the same verdict
    on all parameters and metrics. *)
Theorem classifier_copies_agree (params : CityParams) (metrics : option PathMetrics)
    (city : string) :
  config.CITY_PARAMS !! city = city_specific.CITY_PARAMS !! city
  /\ config.city_params city = city_specific.city_params city
  /\ walk_analyzer.transit_rule params metrics = city_specific.transit_rule params metrics.
Proof.
  split_and!; [by rewrite city_tables_agree | | done].
  unfold config.city_params, city_specific.city_params. by rewrite city_tables_agree.
Qed.

(** X12.  The verdict of the trajectory rule depends on three thresholds of
    the city only: the maximum direct distance and the maximum and minimum
    walking speed.  The configured [max_sinuosity] and [buffer_distance]
    have no influence on it. *)
Theorem rule_ignores_max_sinuosity (p q : CityParams) (metrics : option PathMetrics) :
  rule_thresholds p = rule_thresholds q ->
  city_specific.transit_rule p metrics = city_specific.transit_rule q metrics
  /\ walk_analyzer.transit_rule p metrics = walk_analyzer.transit_rule q metrics.
Proof.
  unfold rule_thresholds. intros [= Hd Hmax Hmin].
  unfold city_specific.transit_rule, walk_analyzer.transit_rule.
  destruct metrics as [m|]; [|done]. by rewrite Hd, Hmax, Hmin.
Qed.

Lemma rule_ignores_max_sinuosity_witness :
  city_specific.transit_rule london (Some straight_walk_metrics)
  = city_specific.transit_rule (mkCityParams 80 2.5 0.2 1.0 8000) (Some straight_walk_metrics)
  /\ walk_analyzer.transit_rule london (Some straight_walk_metrics)
     = walk_analyzer.transit_rule (mkCityParams 80 2.5 0.2 1.0 8000)
         (Some straight_walk_metrics).
Proof.
  apply (rule_ignores_max_sinuosity london (mkCityParams 80 2.5 0.2 1.0 8000)
           (Some straight_walk_metrics)).
  reflexivity.
Defined.

(** ** Unknown cities *)

(** X13.  For a city that is not in the parameter table, every function
    that looks the city up first raises [KeyError], whatever the tables
    hold: the classifier of [walk_analyzer.py], and the metrics, the
    classifier and the analysis of [analyze_walks_city_specific.py].
    [walk_analyzer.analyze_walks] raises [KeyError] too, from its
    classifier when there is a walk and from its own lookup when the walks
    table is empty and has no reference system; for an empty walks table
    with a reference system it raises [ValueError] before it reaches the
    lookup, when it builds the table of the valid walks.
    [geo_utils.calculate_path_metrics], which never reads the parameter
    table, returns [None]. *)
Theorem unknown_city_raises `{K : Shapely}
    (city : string) (path : WalkRow) (walks_gdf : WalksFrame)
    (streets_gdf : StreetsFrame) :
  config.CITY_PARAMS !! city = None ->
  walk_analyzer.is_probable_transit walks_gdf city = Raise KeyError
  /\ (walks_rows walks_gdf <> [] \/ walks_crs walks_gdf = None ->
      walk_analyzer.analyze_walks walks_gdf streets_gdf city = Raise KeyError)
  /\ (walks_rows walks_gdf = [] -> is_Some (walks_crs walks_gdf) ->
      walk_analyzer.analyze_walks walks_gdf streets_gdf city = Raise ValueError)
  /\ city_specific.calculate_path_metrics path city = Raise KeyError
  /\ city_specific.is_probable_transit path city = Raise KeyError
  /\ city_specific.analyze_walks walks_gdf streets_gdf city = Raise KeyError
  /\ geo_utils.calculate_path_metrics walks_gdf city = None.
Proof.
  intros Hcity.
  assert (config.city_params city = Raise KeyError) as Hconfig
    by (unfold config.city_params; by rewrite Hcity).
  assert (city_specific.city_params city = Raise KeyError) as Hscript
    by (unfold city_specific.city_params; by rewrite <- city_tables_agree, Hcity).
  assert (forall path, walk_analyzer.is_probable_transit path city = Raise KeyError)
    as Htransit
    by (intros ?; unfold walk_analyzer.is_probable_transit; by rewrite Hconfig).
  split_and!.
  - apply Htransit.
  - unfold walk_analyzer.analyze_walks.
    destruct (walks_rows walks_gdf) as [|walk rows]; simpl.
    + intros [?| ->]; [done|]. simpl. by rewrite Hconfig.
    + by rewrite Htransit.
  - unfold walk_analyzer.analyze_walks. by intros -> [crs ->].
  - unfold city_specific.calculate_path_metrics. by rewrite Hscript.
  - unfold city_specific.is_probable_transit. by rewrite Hscript.
  - unfold city_specific.analyze_walks. by rewrite Hscript.
  - apply geo_utils_metrics_None.
Qed.

Lemma unknown_city_raises_witness :
  walk_analyzer.is_probable_transit sample_walks "paris" = Raise KeyError
  /\ (walks_rows sample_walks <> [] \/ walks_crs sample_walks = None ->
      walk_analyzer.analyze_walks sample_walks sample_streets "paris" = Raise KeyError)
  /\ (walks_rows sample_walks = [] -> is_Some (walks_crs sample_walks) ->
      walk_analyzer.analyze_walks sample_walks sample_streets "paris" = Raise ValueError)
  /\ city_specific.calculate_path_metrics stroll "paris" = Raise KeyError
  /\ city_specific.is_probable_transit stroll "paris" = Raise KeyError
  /\ city_specific.analyze_walks sample_walks sample_streets "paris" = Raise KeyError
  /\ geo_utils.calculate_path_metrics sample_walks "paris" = None.
Proof.
  apply (unknown_city_raises (K:=Cells.kernel) "paris" stroll sample_walks sample_streets).
  vm_compute. reflexivity.
Defined.

(** ** The street table through the three coverage functions *)

Import Outputs.

Lemma for_each_map {A B C} (f : A -> result B) (g : B -> C) (h : A -> C)
    (xs : list A) (ys : list B) :
  (forall x y, f x = Ok y -> g y = h x) ->
  for_each f xs = Ok ys -> map g ys = map h xs.
Proof.
  intros Hf Hys%for_each_Ok.
  induction Hys as [|x y xs ys Hy _ IH]; [done|].
  simpl. f_equal; [by apply Hf | done].
Qed.

Section TableShape.
Context `{K : Shapely}.
Local Open Scope Q_scope.

Lemma walk_analyzer_same_streets (walks_gdf : WalksFrame) (streets_gdf : StreetsFrame)
    (city : string) (res : walk_analyzer.Analysis) :
  walk_analyzer.analyze_walks walks_gdf streets_gdf city = Ok res ->
  same_streets (walk_analyzer.result_streets res) streets_gdf.
Proof.
  unfold walk_analyzer.analyze_walks.
  intros (valid & _ & H)%bind_Ok.
  apply bind_Ok in H as (frame & _ & H).
  apply bind_Ok in H as (params & _ & H).
  apply bind_Ok in H as (buffers & _ & H).
  apply bind_Ok in H as (rows & Hrows & [= <-]). simpl.
  split_and!; [done|..]; simpl.
  - eapply for_each_map; [|exact Hrows].
    by intros street row (coverage & _ & [= <-])%bind_Ok.
  - eapply for_each_map; [|exact Hrows].
    by intros street row (coverage & _ & [= <-])%bind_Ok.
Qed.

Lemma match_street_same (buffers : list Polygon) (street street' : StreetRow) :
  match_walks.match_street buffers street = Ok street' ->
  street_id street' = street_id street
  /\ street_geometry street' = street_geometry street.
Proof. by intros [[_ ->]|(_ & _ & ->)]%match_street_Ok. Qed.

Lemma match_walks_same_streets (walks_gdf : WalksFrame) (streets_gdf out : StreetsFrame)
    (d : Q) :
  match_walks.match_walks_to_streets walks_gdf streets_gdf d = Ok out ->
  same_streets out streets_gdf.
Proof.
  unfold match_walks.match_walks_to_streets.
  destruct (_ || _); [by intros [= <-]|].
  intros (buffers & _ & H)%bind_Ok.
  apply bind_Ok in H as (rows & Hrows & [= <-]).
  split_and!; [done|..]; simpl.
  - rewrite (for_each_map _ street_id street_id _ _ (fun s s' H =>
               proj1 (match_street_same buffers s s' H)) Hrows).
    by rewrite <- list_fmap_compose.
  - rewrite (for_each_map _ street_geometry street_geometry _ _ (fun s s' H =>
               proj2 (match_street_same buffers s s' H)) Hrows).
    by rewrite <- list_fmap_compose.
Qed.

Lemma update_street_same (d : Q) (walks : list WalkRow) (street : StreetRow) :
  street_id (city_specific.update_street d walks street) = street_id street
  /\ street_geometry (city_specific.update_street d walks street) = street_geometry street.
Proof. unfold city_specific.update_street. cbn zeta. by destruct (Qgtb _ 0). Qed.

Lemma city_same_streets (walks_gdf valid : WalksFrame) (streets_gdf out : StreetsFrame)
    (city : string) :
  city_specific.analyze_walks walks_gdf streets_gdf city = Ok (out, valid) ->
  same_streets out streets_gdf.
Proof.
  unfold city_specific.analyze_walks.
  intros (params & _ & H)%bind_Ok.
  apply bind_Ok in H as (walks & _ & [= <- <-]).
  split_and!; [done|..]; simpl; rewrite <- !list_fmap_compose;
    apply list_fmap_ext; intros i s _; simpl;
    destruct (update_street_same (buffer_distance params) walks
                (city_specific.init_columns s)) as [Hid Hgeom];
    by rewrite ?Hid, ?Hgeom.
Qed.

End TableShape.

(** X14.  Each of the three coverage functions returns the street table it
    was given with only the two coverage columns changed: the reference
    system, the identifiers and the geometries of the rows, and their
    order, are those of the input. *)
Theorem engines_keep_street_table `{K : Shapely}
    (walks_gdf valid : WalksFrame) (streets_gdf out out' : StreetsFrame)
    (city : string) (d : Q) (res : walk_analyzer.Analysis) :
  walk_analyzer.analyze_walks walks_gdf streets_gdf city = Ok res ->
  match_walks.match_walks_to_streets walks_gdf streets_gdf d = Ok out ->
  city_specific.analyze_walks walks_gdf streets_gdf city = Ok (out', valid) ->
  same_streets (walk_analyzer.result_streets res) streets_gdf
  /\ same_streets out streets_gdf
  /\ same_streets out' streets_gdf.
Proof.
  intros Hres Hout Hout'. split_and!.
  - by eapply walk_analyzer_same_streets.
  - by eapply match_walks_same_streets.
  - by eapply city_same_streets.
Qed.

Lemma engines_keep_street_table_witness :
  same_streets (walk_analyzer.result_streets touched_analysis) touched_streets
  /\ same_streets touched_matched touched_streets
  /\ same_streets touched_updated touched_streets.
Proof.
  apply (engines_keep_street_table (K:=Cells.kernel) stroll_only stroll_only
           touched_streets touched_matched touched_updated "london" 8 touched_analysis).
  - vm_compute. reflexivity.
  - vm_compute. reflexivity.
  - vm_compute. reflexivity.
Defined.

(** ** The statistics of [walk_analyzer.analyze_walks] *)

Section Stats.
Context `{K : Shapely} {laws : ShapelyLaws K}.
Local Open Scope Q_scope.


Lemma Qplus_le_r_nonneg (a b c : Q) : 0 <= a -> b <= c -> b <= a + c.
Proof.
  intros Ha Hb. apply Qle_trans with (0 + b); [rewrite Qplus_0_l; apply Qle_refl|].
  by apply Qplus_le_compat.
Qed.





End Stats.



(** ** The city-specific analysis *)

Section CityAnalysis.
Context `{K : Shapely}.
Local Open Scope Q_scope.

Lemma city_metrics_total (path : WalkRow) (city : string) (params : CityParams) :
  city_specific.CITY_PARAMS !! city = Some params ->
  exists metrics, city_specific.calculate_path_metrics path city = Ok metrics.
Proof.
  intros Hcity%city_params_Ok. unfold city_specific.calculate_path_metrics.
  rewrite Hcity. simpl.
  destruct (to_datetime (start_time path)) as [s|]; simpl; [|eauto].
  destruct (to_datetime (end_time path)) as [e|]; simpl; [|eauto].
  destruct (coords (geometry path)) as [|a [|b rest]]; simpl; [eauto..|].
  destruct (item_last_cons a (b :: rest)) as [z ->]. simpl. eauto.
Qed.

Lemma city_transit_total (path : WalkRow) (city : string) (params : CityParams) :
  city_specific.CITY_PARAMS !! city = Some params ->
  exists transit, city_specific.is_probable_transit path city = Ok transit.
Proof.
  intros Hcity. unfold city_specific.is_probable_transit.
  destruct (city_metrics_total path city params Hcity) as [metrics ->].
  apply city_params_Ok in Hcity as ->. simpl. eauto.
Qed.

Lemma city_filter_spec (rows : list WalkRow) (city : string) (params : CityParams) :
  city_specific.CITY_PARAMS !! city = Some params ->
  city_specific.filter_valid_walks rows city
  = Ok (filter (fun walk => is_walk city walk = true) rows).
Proof.
  intros Hcity. induction rows as [|walk rows IH]; [done|].
  destruct (city_transit_total walk city params Hcity) as [transit Ht].
  assert (is_walk city walk = negb transit) as Hwalk
    by (unfold is_walk; rewrite Ht; by destruct transit).
  cbn [city_specific.filter_valid_walks]. rewrite IH, Ht, filter_cons. simpl.
  destruct transit; simpl in Hwalk.
  - rewrite decide_False; [done | by rewrite Hwalk].
  - by rewrite decide_True.
Qed.

Lemma update_init_fixed (d : Q) (walks : list WalkRow) (street : StreetRow) :
  let updated := city_specific.update_street d walks (city_specific.init_columns street) in
  city_specific.update_street d walks (city_specific.init_columns updated) = updated.
Proof.
  unfold city_specific.update_street. cbn zeta.
  destruct (Qgtb (line_length (street_geometry (city_specific.init_columns street))) 0)
    eqn:E; simpl in *; by rewrite E.
Qed.

End CityAnalysis.

(** X16.  When the city-specific [analyze_walks] returns, the table of
    valid walks it returns has the reference system of the input, and its
    rows carry the start time, end time, source file and geometry of
    exactly the walks that [is_probable_transit] answers [False] for, in
    the order of the input: no walk is dropped for another reason, none is
    added, and none is reordered. *)
Theorem city_valid_walks `{K : Shapely}
    (walks_gdf valid : WalksFrame) (streets_gdf out : StreetsFrame) (city : string) :
  city_specific.analyze_walks walks_gdf streets_gdf city = Ok (out, valid) ->
  walks_crs valid = walks_crs walks_gdf
  /\ map walk_columns (walks_rows valid)
     = map walk_columns
         (filter (fun walk => is_walk city walk = true) (walks_rows walks_gdf))
  /\ Forall (fun walk => city_specific.is_probable_transit walk city = Ok false)
            (walks_rows valid).
Proof.
  unfold city_specific.analyze_walks.
  intros (params & Hcity%city_params_Ok & H)%bind_Ok.
  rewrite (city_filter_spec _ _ params Hcity) in H.
  injection H as <- <-. split_and!; [done..|].
  apply Forall_forall. intros walk [Hwalk _]%list_elem_of_filter.
  unfold is_walk in Hwalk.
  by destruct (city_specific.is_probable_transit walk city) as [[]|].
Qed.

Lemma city_valid_walks_witness :
  walks_crs stroll_only = walks_crs sample_walks
  /\ map walk_columns (walks_rows stroll_only)
     = map walk_columns
         (filter (fun walk => is_walk "london" walk = true) (walks_rows sample_walks))
  /\ Forall (fun walk => city_specific.is_probable_transit walk "london" = Ok false)
            (walks_rows stroll_only).
Proof.
  apply (city_valid_walks (K:=Cells.kernel) sample_walks stroll_only sample_streets
           sample_updated "london").
  vm_compute. reflexivity.
Defined.

(** X17.  The city-specific [analyze_walks] is stable on its own output:
    run again with the same walks on the street table it returned, it
    returns the same street table and the same valid walks. *)
Theorem city_analysis_idempotent `{K : Shapely}
    (walks_gdf valid : WalksFrame) (streets_gdf out : StreetsFrame) (city : string) :
  city_specific.analyze_walks walks_gdf streets_gdf city = Ok (out, valid) ->
  city_specific.analyze_walks walks_gdf out city = Ok (out, valid).
Proof.
  unfold city_specific.analyze_walks.
  intros (params & -> & H)%bind_Ok.
  apply bind_Ok in H as (walks & -> & [= <- <-]). simpl.
  do 3 f_equal. rewrite <- !list_fmap_compose.
  apply list_fmap_ext. intros i street _. simpl. apply update_init_fixed.
Qed.

Lemma city_analysis_idempotent_witness :
  city_specific.analyze_walks stroll_only touched_updated "london"
  = Ok (touched_updated, stroll_only).
Proof.
  apply (city_analysis_idempotent (K:=Cells.kernel) stroll_only stroll_only
           touched_streets touched_updated "london").
  vm_compute. reflexivity.
Defined.

(** ** Incoming coverage columns *)

Section Overwrite.
Context `{K : Shapely}.
Local Open Scope Q_scope.

Lemma for_each_same_rows {B} (f : StreetRow -> result B) (rows rows' : list StreetRow) :
  (forall s s', street_id s = street_id s' -> street_geometry s = street_geometry s' ->
                f s = f s') ->
  map street_id rows = map street_id rows' ->
  map street_geometry rows = map street_geometry rows' ->
  for_each f rows = for_each f rows'.
Proof.
  intros Hf. revert rows'.
  induction rows as [|s rows IH]; intros [|s' rows']; simpl; try done.
  intros [= Hid Hids] [= Hgeom Hgeoms].
  by rewrite (Hf s s' Hid Hgeom), (IH rows' Hids Hgeoms).
Qed.

Lemma set_coverage_same (s s' : StreetRow) (c : bool) (p : Q) :
  street_id s = street_id s' -> street_geometry s = street_geometry s' ->
  set_coverage s c p = set_coverage s' c p.
Proof. unfold set_coverage. by intros -> ->. Qed.

Lemma walk_analyzer_overwrites (walks_gdf : WalksFrame) (streets streets' : StreetsFrame)
    (city : string) :
  same_streets streets streets' ->
  walk_analyzer.analyze_walks walks_gdf streets city
  = walk_analyzer.analyze_walks walks_gdf streets' city.
Proof.
  intros (Hcrs & Hids & Hgeoms). unfold walk_analyzer.analyze_walks.
  destruct (walk_analyzer.filter_valid_walks _ _ _) as [valid|]; simpl; [|done].
  destruct (config.city_params city) as [params|]; simpl; [|done].
  destruct (for_each _ valid) as [buffers|]; simpl; [|done].
  rewrite Hcrs.
  match goal with
  | |- context [for_each ?f (streets_rows streets)] =>
      rewrite (for_each_same_rows f (streets_rows streets) (streets_rows streets'))
  end; try done.
  intros s s' Hid Hgeom. rewrite Hgeom.
  destruct (geo_utils.calculate_coverage _ _); simpl; [|done].
  by rewrite (set_coverage_same s s').
Qed.

Lemma match_walks_overwrites (walks_gdf : WalksFrame) (streets streets' : StreetsFrame)
    (d : Q) :
  same_streets streets streets' ->
  walks_rows walks_gdf <> [] ->
  match_walks.match_walks_to_streets walks_gdf streets d
  = match_walks.match_walks_to_streets walks_gdf streets' d.
Proof.
  intros (Hcrs & Hids & Hgeoms) Hwalks. unfold match_walks.match_walks_to_streets.
  rewrite (bool_decide_eq_false_2 _ Hwalks). simpl.
  destruct streets as [crs rows], streets' as [crs' rows']. simpl in *. subst crs'.
  destruct rows as [|s rows], rows' as [|s' rows']; try done.
  rewrite !bool_decide_eq_false_2 by done.
  destruct (match_walks.make_buffers _ _ _) as [buffers|]; simpl; [|done].
  injection Hids as Hid Hids. injection Hgeoms as Hgeom Hgeoms.
  rewrite (set_coverage_same s s') by done.
  assert (map (fun s => set_coverage s false 0) rows
          = map (fun s => set_coverage s false 0) rows') as ->; [|done].
  clear -Hids Hgeoms. revert rows' Hids Hgeoms.
  induction rows as [|r rows IH]; intros [|r' rows']; simpl; try done.
  intros [= Hid Hids] [= Hgeom Hgeoms].
  by rewrite (set_coverage_same r r'), (IH rows').
Qed.

End Overwrite.

(** X18.  [walk_analyzer.analyze_walks] and, for a walks table that is not
    empty, [match_walks_to_streets] overwrite the two coverage columns:
    their result (value or exception) is the same for two street tables
    that differ in the incoming [covered] and [coverage_percent] cells
    only. *)
Theorem coverage_columns_overwritten `{K : Shapely}
    (walks_gdf : WalksFrame) (streets streets' : StreetsFrame) (city : string) (d : Q) :
  same_streets streets streets' ->
  walks_rows walks_gdf <> [] ->
  walk_analyzer.analyze_walks walks_gdf streets city
  = walk_analyzer.analyze_walks walks_gdf streets' city
  /\ match_walks.match_walks_to_streets walks_gdf streets d
     = match_walks.match_walks_to_streets walks_gdf streets' d.
Proof.
  intros Hsame Hwalks. split.
  - by apply walk_analyzer_overwrites.
  - by apply match_walks_overwrites.
Qed.

Lemma coverage_columns_overwritten_witness :
  walk_analyzer.analyze_walks stroll_only touched_streets "london"
  = walk_analyzer.analyze_walks stroll_only touched_matched "london"
  /\ match_walks.match_walks_to_streets stroll_only touched_streets 8
     = match_walks.match_walks_to_streets stroll_only touched_matched 8.
Proof.
  apply (coverage_columns_overwritten (K:=Cells.kernel) stroll_only
           touched_streets touched_matched "london" 8).
  - split_and!; reflexivity.
  - discriminate.
Defined.

(** ** The covered length *)

Section CoveredLength.
Context `{K : Shapely}.
Local Open Scope Q_scope.

(** The loop bodies of the two functions that add up intersections. *)
Local Abbreviation match_step street :=
  (fun (covered_length : Q) (walk_buffer : Polygon) =>
     let intersection := intersection street walk_buffer in
     if negb (is_empty intersection) then
       if is_lineal intersection
       then covered_length + geom_length intersection
       else covered_length
     else covered_length).

Local Abbreviation city_step d street :=
  (fun (covered_length : Q) (walk : WalkRow) =>
     let buffered_walk := buffer (geometry walk) d in
     let intersection := intersection street buffered_walk in
     if negb (is_empty intersection)
     then covered_length + geom_length intersection
     else covered_length).

Lemma match_fold_shift (street : LineString) (buffers : list Polygon) : forall acc,
  fold_left (match_step street) buffers acc
  == acc + fold_left (match_step street) buffers 0.
Proof.
  induction buffers as [|b buffers IH]; intros acc; simpl.
  - by rewrite Qplus_0_r.
  - set (hit := intersection street b).
    rewrite (IH (if negb (is_empty hit)
                 then if is_lineal hit then acc + geom_length hit else acc
                 else acc)).
    rewrite (IH (if negb (is_empty hit)
                 then if is_lineal hit then 0 + geom_length hit else 0
                 else 0)).
    destruct (is_empty hit); simpl; [|destruct (is_lineal hit)]; ring.
Qed.

Lemma city_fold_shift (d : Q) (street : LineString) (walks : list WalkRow) : forall acc,
  fold_left (city_step d street) walks acc
  == acc + fold_left (city_step d street) walks 0.
Proof.
  induction walks as [|w walks IH]; intros acc; simpl.
  - by rewrite Qplus_0_r.
  - set (hit := intersection street (buffer (geometry w) d)).
    rewrite (IH (if negb (is_empty hit) then acc + geom_length hit else acc)).
    rewrite (IH (if negb (is_empty hit) then 0 + geom_length hit else 0)).
    destruct (is_empty hit); simpl; ring.
Qed.

Lemma match_fold_filter {laws : ShapelyLaws K} (street : LineString)
    (buffers : list Polygon) : forall acc,
  fold_left (match_step street)
    (filter (fun b => intersects b street = true) buffers) acc
  = fold_left (match_step street) buffers acc.
Proof.
  induction buffers as [|b buffers IH]; intros acc; [done|].
  rewrite filter_cons. case_decide as Hhit; simpl; [done|].
  rewrite IH. apply not_true_is_false in Hhit.
  rewrite intersects_spec in Hhit. apply negb_false_iff in Hhit.
  by rewrite Hhit.
Qed.

Lemma engines_fold_le {laws : ShapelyLaws K} (d : Q) (street : LineString)
    (walks : list WalkRow) : forall acc acc',
  acc <= acc' ->
  fold_left (match_step street) (map (fun w => buffer (geometry w) d) walks) acc
  <= fold_left (city_step d street) walks acc'.
Proof.
  induction walks as [|w walks IH]; intros acc acc' Hacc; [done|].
  simpl. apply IH.
  destruct (negb _); [|done]. destruct (is_lineal _).
  - apply Qplus_le_compat; [done | apply Qle_refl].
  - apply Qle_trans with (acc' + 0); [by rewrite Qplus_0_r|].
    apply Qplus_le_compat; [apply Qle_refl | apply length_nonneg].
Qed.

Lemma engines_fold_eq (d : Q) (street : LineString) (walks : list WalkRow) : forall acc,
  Forall (fun w => let hit := intersection street (buffer (geometry w) d) in
                   is_empty hit = false -> is_lineal hit = true) walks ->
  fold_left (match_step street) (map (fun w => buffer (geometry w) d) walks) acc
  = fold_left (city_step d street) walks acc.
Proof.
  induction walks as [|w walks IH]; intros acc Hlineal; [done|].
  apply Forall_cons in Hlineal as [Hw Hlineal]. simpl in *.
  rewrite <- (IH _ Hlineal). f_equal.
  destruct (is_empty _); simpl; [done|]. by rewrite Hw.
Qed.

End CoveredLength.

(** X19.  In [match_walks_to_streets] the selection of the buffers that
    intersect the street changes nothing in the covered length: the loop
    over the selected buffers adds up the same length as a loop over all
    the buffers would. *)
Theorem prefilter_keeps_covered_length `{K : Shapely}
    (street : LineString) (buffers : list Polygon) :
  ShapelyLaws K ->
  match_walks.covered_length_of street
    (filter (fun b => intersects b street = true) buffers)
  = match_walks.covered_length_of street buffers.
Proof. intros laws. apply match_fold_filter. Qed.

Lemma prefilter_keeps_covered_length_witness :
  match_walks.covered_length_of (street_geometry walked_street)
    (filter (fun b => intersects b (street_geometry walked_street) = true)
            (buffer (geometry ride) 8 :: overlapping_buffers))
  = match_walks.covered_length_of (street_geometry walked_street)
      (buffer (geometry ride) 8 :: overlapping_buffers).
Proof.
  apply (prefilter_keeps_covered_length (K:=Cells.kernel) (street_geometry walked_street)
           (buffer (geometry ride) 8 :: overlapping_buffers)).
  exact cells_laws.
Defined.

Section Accumulation.
Context `{K : Shapely} {laws : ShapelyLaws K}.
Local Open Scope Q_scope.

Lemma match_covered_append (street : LineString) (buffers buffers' : list Polygon) :
  match_walks.covered_length_of street buffers
  <= match_walks.covered_length_of street (buffers ++ buffers')
  /\ match_walks.covered_length_of street buffers'
     <= match_walks.covered_length_of street (buffers ++ buffers').
Proof using laws.
  pose proof (match_covered_length_nonneg street buffers) as Hfirst.
  pose proof (match_covered_length_nonneg street buffers') as Hsecond.
  unfold match_walks.covered_length_of in *. rewrite fold_left_app.
  split.
  - eapply Qle_trans; [|apply Qle_lteq; right; symmetry; apply match_fold_shift].
    eapply Qle_trans; [apply Qle_lteq; right; symmetry; apply Qplus_0_r|].
    by apply Qplus_le_compat; [apply Qle_refl|].
  - eapply Qle_trans; [|apply Qle_lteq; right; symmetry; apply match_fold_shift].
    by apply Qplus_le_r_nonneg; [|apply Qle_refl].
Qed.

Lemma city_covered_append (d : Q) (street : LineString) (walks walks' : list WalkRow) :
  city_specific.covered_length_of d street walks
  <= city_specific.covered_length_of d street (walks ++ walks')
  /\ city_specific.covered_length_of d street walks'
     <= city_specific.covered_length_of d street (walks ++ walks').
Proof using laws.
  pose proof (city_covered_length_nonneg d street walks) as Hfirst.
  pose proof (city_covered_length_nonneg d street walks') as Hsecond.
  unfold city_specific.covered_length_of in *. rewrite fold_left_app.
  split.
  - eapply Qle_trans; [|apply Qle_lteq; right; symmetry; apply city_fold_shift].
    eapply Qle_trans; [apply Qle_lteq; right; symmetry; apply Qplus_0_r|].
    by apply Qplus_le_compat; [apply Qle_refl|].
  - eapply Qle_trans; [|apply Qle_lteq; right; symmetry; apply city_fold_shift].
    by apply Qplus_le_r_nonneg; [|apply Qle_refl].
Qed.

Lemma match_covered_twice (street : LineString) (b : Polygon) :
  match_walks.covered_length_of street [b; b]
  == 2 * match_walks.covered_length_of street [b].
Proof.
  unfold match_walks.covered_length_of. simpl.
  destruct (is_empty _); simpl; [done|]. destruct (is_lineal _); [ring | done].
Qed.

Lemma city_covered_twice (d : Q) (street : LineString) (walk : WalkRow) :
  city_specific.covered_length_of d street [walk; walk]
  == 2 * city_specific.covered_length_of d street [walk].
Proof.
  unfold city_specific.covered_length_of. simpl.
  destruct (is_empty _); simpl; [done | ring].
Qed.

End Accumulation.

(** X20.  The two loops that add up intersections count every buffer on
    its own.  The covered length never goes down when buffers (or walks)
    are added to the list, in front or behind: for two lists put
    together it is at least the covered length for each of them.  And
    ground walked twice is counted twice before the percentage is capped:
    a buffer (or walk) listed twice gives twice the covered length it
    gives alone. *)
Theorem covered_length_accumulates `{K : Shapely}
    (street : LineString) (buffers buffers' : list Polygon) (b : Polygon)
    (d : Q) (walks walks' : list WalkRow) (walk : WalkRow) :
  ShapelyLaws K ->
  ((match_walks.covered_length_of street buffers
    <= match_walks.covered_length_of street (buffers ++ buffers'))%Q
   /\ (match_walks.covered_length_of street buffers'
       <= match_walks.covered_length_of street (buffers ++ buffers'))%Q
   /\ (match_walks.covered_length_of street [b; b]
       == 2 * match_walks.covered_length_of street [b])%Q)
  /\ ((city_specific.covered_length_of d street walks
       <= city_specific.covered_length_of d street (walks ++ walks'))%Q
      /\ (city_specific.covered_length_of d street walks'
          <= city_specific.covered_length_of d street (walks ++ walks'))%Q
      /\ (city_specific.covered_length_of d street [walk; walk]
          == 2 * city_specific.covered_length_of d street [walk])%Q).
Proof.
  intros laws. split.
  - destruct (match_covered_append street buffers buffers') as [Hfirst Hsecond].
    split_and!; [done..|]. apply match_covered_twice.
  - destruct (city_covered_append d street walks walks') as [Hfirst Hsecond].
    split_and!; [done..|]. apply city_covered_twice.
Qed.

Lemma covered_length_accumulates_witness :
  let street := street_geometry walked_street in
  ((match_walks.covered_length_of street [stroll_buffer]
    <= match_walks.covered_length_of street ([stroll_buffer] ++ overlapping_buffers))%Q
   /\ (match_walks.covered_length_of street overlapping_buffers
       <= match_walks.covered_length_of street ([stroll_buffer] ++ overlapping_buffers))%Q
   /\ (match_walks.covered_length_of street [stroll_buffer; stroll_buffer]
       == 2 * match_walks.covered_length_of street [stroll_buffer])%Q)
  /\ ((city_specific.covered_length_of 8 street [stroll]
       <= city_specific.covered_length_of 8 street ([stroll] ++ [ride; stroll]))%Q
      /\ (city_specific.covered_length_of 8 street [ride; stroll]
          <= city_specific.covered_length_of 8 street ([stroll] ++ [ride; stroll]))%Q
      /\ (city_specific.covered_length_of 8 street [stroll; stroll]
          == 2 * city_specific.covered_length_of 8 street [stroll])%Q).
Proof.
  apply (covered_length_accumulates (K:=Cells.kernel) (street_geometry walked_street)
           [stroll_buffer] overlapping_buffers stroll_buffer
           8 [stroll] [ride; stroll] stroll).
  exact cells_laws.
Defined.

(** X21.  On the same street and the same walks, buffered without any
    change of reference system, the covered length of
    [match_walks_to_streets] is at most that of the city-specific
    [analyze_walks], and the two are equal when every intersection that is
    not empty is a line: the only difference between the two loops is the
    test on the type of the intersection. *)
Theorem covered_length_engines `{K : Shapely}
    (d : Q) (street : LineString) (walks : list WalkRow) :
  ShapelyLaws K ->
  let buffers := map (fun w => buffer (geometry w) d) walks in
  (match_walks.covered_length_of street buffers
   <= city_specific.covered_length_of d street walks)%Q
  /\ (Forall (fun w => let hit := intersection street (buffer (geometry w) d) in
                       is_empty hit = false -> is_lineal hit = true) walks ->
      match_walks.covered_length_of street buffers
      = city_specific.covered_length_of d street walks).
Proof.
  intros laws buffers. split.
  - apply engines_fold_le. apply Qle_refl.
  - apply engines_fold_eq.
Qed.

Lemma covered_length_engines_witness :
  let street := street_geometry touched_street in
  let buffers := map (fun w => buffer (geometry w) 8) [stroll; ride] in
  (match_walks.covered_length_of street buffers
   <= city_specific.covered_length_of 8 street [stroll; ride])%Q
  /\ (Forall (fun w => let hit := intersection street (buffer (geometry w) 8) in
                       is_empty hit = false -> is_lineal hit = true) [stroll; ride] ->
      match_walks.covered_length_of street buffers
      = city_specific.covered_length_of 8 street [stroll; ride]).
Proof.
  apply (covered_length_engines (K:=Cells.kernel) 8 (street_geometry touched_street)
           [stroll; ride]).
  exact cells_laws.
Defined.

(** ** Exceptions of the coverage functions *)

Lemma for_each_only {A B} (f : A -> result B) (xs : list A) (e : exn) :
  (forall x, x ∈ xs -> (exists y, f x = Ok y) \/ f x = Raise e) ->
  (exists ys, for_each f xs = Ok ys) \/ for_each f xs = Raise e.
Proof.
  induction xs as [|x xs IH]; intros Hf; simpl; [eauto|].
  destruct (Hf x) as [[y ->]| ->]; [left| |by right]. simpl.
  destruct IH as [[ys ->]| ->]; [intros; apply Hf; by right|..]; simpl; eauto.
Qed.

Lemma for_each_raises {A B} (f : A -> result B) (xs : list A) (e : exn) (x : A) :
  (forall x, x ∈ xs -> (exists y, f x = Ok y) \/ f x = Raise e) ->
  x ∈ xs -> f x = Raise e -> for_each f xs = Raise e.
Proof.
  induction xs as [|x' xs IH]; intros Hf Hx Hraise; [by apply elem_of_nil in Hx|].
  simpl. apply elem_of_cons in Hx as [<-|Hx]; [by rewrite Hraise|].
  destruct (Hf x') as [[y ->]| ->]; [left| |done]. simpl.
  rewrite IH; [done| |done..]. intros; apply Hf; by right.
Qed.

Section Exceptions.
Context `{K : Shapely}.
Local Open Scope Q_scope.

Lemma truediv_cases (a b : Q) :
  (exists q, truediv a b = Ok q) \/ truediv a b = Raise ZeroDivisionError.
Proof. unfold truediv. destruct (Qeq_bool b 0); eauto. Qed.

Lemma make_buffers_no_crs (walks_gdf : WalksFrame) (crs : option CRS) (d : Q) :
  walks_crs walks_gdf = None \/ crs = None ->
  match_walks.make_buffers walks_gdf crs d = Raise ValueError.
Proof.
  unfold match_walks.make_buffers, walks_to_crs.
  destruct (walks_crs walks_gdf) as [src|] eqn:Hsrc, crs as [dst|];
    intros [?|?]; try done; case_bool_decide; simpl; try done; by rewrite Hsrc.
Qed.

Lemma make_buffers_total (walks_gdf : WalksFrame) (src dst : CRS) (d : Q) :
  walks_crs walks_gdf = Some src ->
  exists buffers, match_walks.make_buffers walks_gdf (Some dst) d = Ok buffers.
Proof.
  intros Hsrc. unfold match_walks.make_buffers, walks_to_crs.
  case_bool_decide; rewrite ?Hsrc; simpl; rewrite ?Hsrc; simpl; eauto.
Qed.

Lemma match_street_cases (buffers : list Polygon) (street : StreetRow) :
  (exists street', match_walks.match_street buffers street = Ok street')
  \/ match_walks.match_street buffers street = Raise ZeroDivisionError.
Proof.
  unfold match_walks.match_street. cbn zeta.
  destruct (negb _); [|eauto].
  destruct (truediv_cases (match_walks.covered_length_of (street_geometry street)
                             (filter (fun b => intersects b (street_geometry street) = true)
                                     buffers))
              (line_length (street_geometry street))) as [[q ->]| ->]; simpl; eauto.
Qed.

Lemma match_street_total (buffers : list Polygon) (street : StreetRow) :
  ((exists b, b ∈ buffers /\ intersects b (street_geometry street) = true) ->
   ~ line_length (street_geometry street) == 0) ->
  exists street', match_walks.match_street buffers street = Ok street'.
Proof.
  intros Hlen. unfold match_walks.match_street. cbn zeta.
  case_bool_decide as Hhits; simpl; [eauto|].
  rewrite truediv_nonzero; [simpl; eauto|].
  apply Hlen.
  destruct (filter _ buffers) as [|b hits] eqn:E; [done|].
  assert (b ∈ filter (fun b => intersects b (street_geometry street) = true) buffers)
    as [Hhit Hb]%list_elem_of_filter by (rewrite E; left).
  eauto.
Qed.

Lemma calculate_coverage_cases (street : LineString) (buffers : list Polygon) :
  (exists v, geo_utils.calculate_coverage street buffers = Ok v)
  \/ geo_utils.calculate_coverage street buffers = Raise ZeroDivisionError.
Proof.
  unfold geo_utils.calculate_coverage.
  destruct buffers as [|first_buffer others]; [eauto|].
  set (hit := intersection street _).
  destruct (is_empty hit); [eauto|].
  destruct (truediv_cases (geom_length hit) (line_length street)) as [[q ->]| ->];
    simpl; eauto.
Qed.

Lemma create_buffers_no_crs (walk : WalkRow) (walks : list WalkRow) (d : Q) :
  for_each (fun walk => geo_utils.create_buffer (geometry walk) d None) (walk :: walks)
  = Raise CRSError.
Proof. done. Qed.

Lemma create_buffers_total (walks : list WalkRow) (d : Q) (crs : option CRS) :
  walks = [] \/ is_Some crs ->
  exists buffers,
    for_each (fun walk => geo_utils.create_buffer (geometry walk) d crs) walks = Ok buffers.
Proof.
  intros [->|[src ->]]; [simpl; eauto|].
  apply for_each_total. intros walk _. simpl. eauto.
Qed.

End Exceptions.

(** X22.  With two tables that are not empty, [match_walks_to_streets]
    raises [ValueError] when the walks or the streets have no reference
    system; when both have one the buffers are built, and then the function
    raises [ZeroDivisionError] if some street of length zero is met by a
    buffer and returns a table if no such street exists.  It raises no
    other exception. *)
Theorem match_walks_exceptions `{K : Shapely}
    (walks_gdf : WalksFrame) (streets_gdf : StreetsFrame) (d : Q) :
  walks_rows walks_gdf <> [] ->
  streets_rows streets_gdf <> [] ->
  let outcome := match_walks.match_walks_to_streets walks_gdf streets_gdf d in
  let met buffers street :=
    exists b, b ∈ buffers /\ intersects b (street_geometry street) = true in
  (walks_crs walks_gdf = None \/ streets_crs streets_gdf = None ->
   outcome = Raise ValueError)
  /\ (is_Some (walks_crs walks_gdf) -> is_Some (streets_crs streets_gdf) ->
      exists buffers,
        match_walks.make_buffers walks_gdf (streets_crs streets_gdf) d = Ok buffers
        /\ ((exists out, outcome = Ok out) \/ outcome = Raise ZeroDivisionError)
        /\ ((exists street, street ∈ streets_rows streets_gdf
                            /\ (line_length (street_geometry street) == 0)%Q
                            /\ met buffers street) ->
            outcome = Raise ZeroDivisionError)
        /\ ((forall street, street ∈ streets_rows streets_gdf -> met buffers street ->
                            ~ (line_length (street_geometry street) == 0)%Q) ->
            exists out, outcome = Ok out)).
Proof.
  intros Hwalks Hstreets outcome met. subst outcome.
  unfold match_walks.match_walks_to_streets.
  rewrite (bool_decide_eq_false_2 _ Hwalks), (bool_decide_eq_false_2 _ Hstreets). simpl.
  split.
  - intros Hcrs. by rewrite make_buffers_no_crs.
  - intros [src Hsrc] [dst Hdst]. rewrite Hdst.
    destruct (make_buffers_total walks_gdf src dst d Hsrc) as [buffers Hbuffers].
    exists buffers. rewrite Hbuffers. simpl.
    pose proof (fun rows => for_each_only (match_walks.match_street buffers) rows
                  ZeroDivisionError
                  (fun s _ => match_street_cases buffers s)) as Hcases.
    split_and!.
    + done.
    + destruct (Hcases (map (fun s => set_coverage s false 0) (streets_rows streets_gdf)))
        as [[rows ->]| ->]; simpl; eauto.
    + intros (street & Hstreet & Hzero & b & Hb & Hhit).
      rewrite (for_each_raises (match_walks.match_street buffers) _ ZeroDivisionError
                 (set_coverage street false 0)); [done|..].
      * intros s _. apply match_street_cases.
      * apply list_elem_of_fmap. eauto.
      * by eapply match_street_zero_length.
    + intros Hlen.
      destruct (for_each_total (match_walks.match_street buffers)
                  (map (fun s => set_coverage s false 0) (streets_rows streets_gdf)))
        as [rows ->]; [|simpl; eauto].
      intros s' (s & -> & Hs)%list_elem_of_fmap.
      apply match_street_total. simpl. by apply Hlen.
Qed.

Lemma match_walks_exceptions_witness :
  let outcome := match_walks.match_walks_to_streets stroll_only point_streets 8 in
  let met buffers street :=
    exists b, b ∈ buffers /\ intersects b (street_geometry street) = true in
  (walks_crs stroll_only = None \/ streets_crs point_streets = None ->
   outcome = Raise ValueError)
  /\ (is_Some (walks_crs stroll_only) -> is_Some (streets_crs point_streets) ->
      exists buffers,
        match_walks.make_buffers stroll_only (streets_crs point_streets) 8 = Ok buffers
        /\ ((exists out, outcome = Ok out) \/ outcome = Raise ZeroDivisionError)
        /\ ((exists street, street ∈ streets_rows point_streets
                            /\ (line_length (street_geometry street) == 0)%Q
                            /\ met buffers street) ->
            outcome = Raise ZeroDivisionError)
        /\ ((forall street, street ∈ streets_rows point_streets -> met buffers street ->
                            ~ (line_length (street_geometry street) == 0)%Q) ->
            exists out, outcome = Ok out)).
Proof.
  apply (match_walks_exceptions (K:=Cells.kernel) stroll_only point_streets 8).
  - discriminate.
  - discriminate.
Defined.

(** X23.  For a configured city, what [walk_analyzer.analyze_walks] raises
    is decided by the walks table.  An empty walks table with a reference
    system makes it raise [ValueError], when it builds the table of the
    valid walks; an empty one without a reference system gives an analysis
    for every street table, since without buffers no division takes place.
    A walks table with rows and no reference system makes it raise
    [CRSError]; with rows and a reference system the only exception it can
    raise is [ZeroDivisionError], and it returns an analysis whenever every
    street has a positive length. *)
Theorem walk_analyzer_exceptions `{K : Shapely}
    (walks_gdf : WalksFrame) (streets_gdf : StreetsFrame)
    (city : string) (params : CityParams) :
  config.CITY_PARAMS !! city = Some params ->
  let outcome := walk_analyzer.analyze_walks walks_gdf streets_gdf city in
  (walks_rows walks_gdf = [] -> is_Some (walks_crs walks_gdf) ->
   outcome = Raise ValueError)
  /\ (walks_rows walks_gdf = [] -> walks_crs walks_gdf = None ->
      exists res, outcome = Ok res)
  /\ (walks_rows walks_gdf <> [] -> walks_crs walks_gdf = None ->
      outcome = Raise CRSError)
  /\ (walks_rows walks_gdf <> [] -> is_Some (walks_crs walks_gdf) ->
      ((exists res, outcome = Ok res) \/ outcome = Raise ZeroDivisionError)
      /\ ((forall street, street ∈ streets_rows streets_gdf ->
                          (0 < line_length (street_geometry street))%Q) ->
          exists res, outcome = Ok res)).
Proof.
  intros Hcity outcome. subst outcome. unfold walk_analyzer.analyze_walks.
  rewrite (walk_analyzer_filter_keeps_all _ _ _ _ Hcity).
  apply config_city_params_Ok in Hcity. cbn [mbind result_bind].
  split_and!.
  - by intros -> [crs ->].
  - intros -> ->. cbn. rewrite Hcity. cbn.
    destruct (for_each_total
                (fun street : StreetRow => Ok (set_coverage street (Qgtb 0 0) 0))
                (streets_rows streets_gdf)) as [rows ->]; [|simpl; eauto].
    intros street _. eauto.
  - intros Hwalks ->. destruct (walks_rows walks_gdf) as [|walk walks]; [done|].
    cbn. rewrite Hcity. cbn. done.
  - intros Hwalks Hcrs.
    assert (frame_of_rows (walks_rows walks_gdf) (walks_crs walks_gdf)
            = Ok (mkWalksFrame (walks_crs walks_gdf) (walks_rows walks_gdf))) as ->
      by by destruct (walks_rows walks_gdf), (walks_crs walks_gdf).
    cbn [mbind result_bind]. rewrite Hcity. cbn [mbind result_bind].
    destruct (create_buffers_total (walks_rows walks_gdf) (buffer_distance params)
                (walks_crs walks_gdf) (or_intror Hcrs)) as [buffers ->].
    cbn [mbind result_bind]. split.
    + destruct (for_each_only
                  (fun street =>
                     coverage ← geo_utils.calculate_coverage (street_geometry street) buffers;
                     Ok (set_coverage street (Qgtb coverage 0) coverage))
                  (streets_rows streets_gdf) ZeroDivisionError) as [[rows ->]| ->];
        simpl; eauto.
      intros street _.
      destruct (calculate_coverage_cases (street_geometry street) buffers)
        as [[v ->]| ->]; simpl; eauto.
    + intros Hlen.
      destruct (for_each_total
                  (fun street =>
                     coverage ← geo_utils.calculate_coverage (street_geometry street) buffers;
                     Ok (set_coverage street (Qgtb coverage 0) coverage))
                  (streets_rows streets_gdf)) as [rows ->]; [|simpl; eauto].
      intros street Hstreet.
      destruct (calculate_coverage_total (street_geometry street) buffers
                  (Hlen street Hstreet)) as [v ->].
      simpl. eauto.
Qed.

Lemma walk_analyzer_exceptions_witness :
  let outcome := walk_analyzer.analyze_walks sample_walks sample_streets "london" in
  (walks_rows sample_walks = [] -> is_Some (walks_crs sample_walks) ->
   outcome = Raise ValueError)
  /\ (walks_rows sample_walks = [] -> walks_crs sample_walks = None ->
      exists res, outcome = Ok res)
  /\ (walks_rows sample_walks <> [] -> walks_crs sample_walks = None ->
      outcome = Raise CRSError)
  /\ (walks_rows sample_walks <> [] -> is_Some (walks_crs sample_walks) ->
      ((exists res, outcome = Ok res) \/ outcome = Raise ZeroDivisionError)
      /\ ((forall street, street ∈ streets_rows sample_streets ->
                          (0 < line_length (street_geometry street))%Q) ->
          exists res, outcome = Ok res)).
Proof.
  apply (walk_analyzer_exceptions (K:=Cells.kernel) sample_walks sample_streets
           "london" london).
  vm_compute. reflexivity.
Defined.

(** ** TCX files *)

Import Tracks.

Lemma for_each_app {A B} (f : A -> result B) (xs xs' : list A) :
  for_each f (xs ++ xs')
  = (ys ← for_each f xs; ys' ← for_each f xs'; Ok (ys ++ ys')).
Proof.
  induction xs as [|x xs IH]; simpl.
  - by destruct (for_each f xs').
  - destruct (f x) as [y|]; simpl; [|done]. rewrite IH.
    destruct (for_each f xs) as [ys|]; simpl; [|done].
    by destruct (for_each f xs').
Qed.

Lemma item_first_map {A B} (f : A -> B) (l : list A) :
  item_first (map f l) = f <$> item_first l.
Proof. by destruct l. Qed.

Lemma item_last_map {A B} (f : A -> B) (l : list A) :
  item_last (map f l) = f <$> item_last l.
Proof. unfold item_last. rewrite fmap_last. by destruct (last l). Qed.

Section TcxFiles.
Import tcx_processor.
Context `{K : Shapely} (make_line : list Coord -> LineString).
Local Open Scope Q_scope.

Lemma read_incomplete (trackpoint : Trackpoint) :
  incomplete trackpoint -> read_trackpoint trackpoint = Ok [].
Proof.
  unfold read_trackpoint.
  intros [->|[->|(p & -> & [->| ->])]]; repeat case_match; done.
Qed.

Lemma read_malformed (trackpoint : Trackpoint) :
  malformed trackpoint -> read_trackpoint trackpoint = Raise ValueError.
Proof.
  unfold read_trackpoint.
  intros (time & p & lat & lon & -> & -> & -> & -> & Hbad).
  destruct time as [?|], lat as [?|], lon as [?|]; simpl; try done.
  by destruct Hbad as [|[|]].
Qed.

Lemma read_fix (trackpoint : Trackpoint) (read : list (Moment * Q * Q)) :
  read_trackpoint trackpoint = Ok read ->
  read = option_list (fix_of trackpoint) /\ ~ malformed trackpoint.
Proof.
  intros Hread. split.
  - revert Hread. unfold read_trackpoint, fix_of.
    destruct (Time trackpoint) as [[time|]|], (position trackpoint) as [[[[lat|]|] [[lon|]|]]|];
      simpl; congruence.
  - intros Hbad%read_malformed. congruence.
Qed.

Lemma read_fixes (trackpoints : list Trackpoint) (read : list (list (Moment * Q * Q))) :
  for_each read_trackpoint trackpoints = Ok read ->
  concat read = omap fix_of trackpoints /\ Forall (fun tp => ~ malformed tp) trackpoints.
Proof.
  intros Hread%for_each_Ok.
  induction Hread as [|tp r tps rs [-> Hgood]%read_fix _ [IH IH']]; [done|].
  split; [|by constructor].
  simpl. rewrite IH. by destruct (fix_of tp).
Qed.

Lemma parse_tcx_file_Some (name : string) (file : option Document) (walk_data : WalkData) :
  parse_tcx_file make_line name file = Some walk_data ->
  exists root first_fix last_fix,
    file = Some root
    /\ activity root = Some (Some "Walking"%string)
    /\ Forall (fun tp => ~ malformed tp) (trackpoints root)
    /\ (2 <= length (omap fix_of (trackpoints root)))%nat
    /\ head (omap fix_of (trackpoints root)) = Some first_fix
    /\ last (omap fix_of (trackpoints root)) = Some last_fix
    /\ walk_data
       = mkWalkData
           (make_line (map (fun tp => (tp.2, tp.1.2)) (omap fix_of (trackpoints root))))
           first_fix.1.1 last_fix.1.1 name.
Proof.
  unfold parse_tcx_file.
  destruct file as [root|]; simpl; [|done].
  destruct (activity root) as [sport|] eqn:Hactivity; [|done].
  case_bool_decide as Hsport; [done|]. subst sport.
  destruct (for_each read_trackpoint (trackpoints root)) as [read|] eqn:Hread;
    simpl; [|done].
  apply read_fixes in Hread as [-> Hgood].
  destruct (Nat.ltb_spec (length (omap fix_of (trackpoints root))) 2) as [|Hlen];
    [done|].
  rewrite item_first_map, item_last_map. unfold item_first, item_last.
  destruct (omap fix_of (trackpoints root)) as [|first_fix fixes] eqn:Hfixes;
    [simpl in Hlen; lia|].
  destruct (last (first_fix :: fixes)) as [last_fix|] eqn:Hlast; simpl; [|done].
  intros [= <-]. exists root, first_fix, last_fix. rewrite Hfixes. by split_and!.
Qed.

Lemma keep_walk_cases (entry : string * option Document) :
  (exists kept, keep_walk make_line entry = Ok kept)
  \/ keep_walk make_line entry = Raise TypeError.
Proof.
  unfold keep_walk, seconds_from.
  destruct (parse_tcx_file _ _ _) as [walk_data|]; [|eauto].
  destruct (eqb _ _); simpl; [|eauto].
  destruct (_ && _); eauto.
Qed.

Lemma keep_walk_aware (entry : string * option Document) :
  all_aware entry.2 -> exists kept, keep_walk make_line entry = Ok kept.
Proof.
  intros Haware. unfold keep_walk.
  destruct (parse_tcx_file _ _ _) as [walk_data|] eqn:Hparse; [|eauto].
  apply parse_tcx_file_Some in Hparse
    as (root & first_fix & last_fix & Hfile & _ & _ & _ & Hfirst & Hlast & ->).
  assert (forall read, read ∈ omap fix_of (trackpoints root) -> aware read.1.1 = true)
    as Hfixes.
  { intros read (tp & Htp & Hfix)%list_elem_of_omap.
    apply (Haware root tp); [done..|].
    revert Hfix. unfold fix_of.
    destruct (Time tp) as [[time|]|], (position tp) as [[[[lat|]|] [[lon|]|]]|];
      simpl; try done. by intros [= <-]. }
  unfold seconds_from. simpl.
  rewrite (Hfixes first_fix), (Hfixes last_fix); simpl.
  - destruct (_ && _); eauto.
  - by apply last_Some_elem_of.
  - by apply head_Some_elem_of.
Qed.

Lemma read_well_formed (trackpoint : Trackpoint) :
  ~ malformed trackpoint ->
  read_trackpoint trackpoint = Ok (option_list (fix_of trackpoint)).
Proof.
  intros Hgood. unfold read_trackpoint, fix_of.
  destruct (Time trackpoint) as [time|] eqn:Htime; [|done].
  destruct (position trackpoint) as [[[lat|] [lon|]]|] eqn:Hposition; try done.
  destruct time as [time|], lat as [lat|], lon as [lon|]; try done;
    destruct Hgood; do 4 eexists; split_and!; try done; auto.
Qed.

Lemma read_all_well_formed (trackpoints : list Trackpoint) :
  Forall (fun tp => ~ malformed tp) trackpoints ->
  exists read,
    for_each read_trackpoint trackpoints = Ok read
    /\ concat read = omap fix_of trackpoints.
Proof.
  intros Hgood.
  destruct (for_each_total read_trackpoint trackpoints) as [read Hread].
  { rewrite Forall_forall in Hgood. intros tp Htp.
    rewrite read_well_formed by by apply Hgood. eauto. }
  exists read. split; [done|]. by apply read_fixes in Hread as [-> _].
Qed.

Lemma keep_walk_shape (entry : string * option Document) (kept : list WalkData) :
  keep_walk make_line entry = Ok kept ->
  match parse_tcx_file make_line entry.1 entry.2 with
  | Some walk_data =>
      (kept = [walk_data] /\ long_enough walk_data)
      \/ (kept = [] /\ ~ long_enough walk_data)
  | None => kept = []
  end.
Proof.
  unfold keep_walk, seconds_from, long_enough,
    config.MIN_WALK_DURATION, config.MIN_WALK_DISTANCE.
  destruct (parse_tcx_file _ _ _) as [walk_data|]; [|by intros [= <-]].
  destruct (eqb _ _); simpl; [|done].
  destruct (Qle_bool 60 _) eqn:Hduration; simpl;
    [destruct (Qle_bool 100 _) eqn:Hdistance|]; intros [= <-].
  - apply Qle_bool_iff in Hduration, Hdistance. by left.
  - right. split; [done|]. intros [_ Hlong%Qle_bool_iff]. congruence.
  - right. split; [done|]. intros [Hlong%Qle_bool_iff _]. congruence.
Qed.

Lemma kept_walks (files : list (string * option Document)) (kept : list (list WalkData)) :
  Forall2 (fun entry k => keep_walk make_line entry = Ok k) files kept ->
  let parsed := omap (fun entry => parse_tcx_file make_line entry.1 entry.2) files in
  concat kept `sublist_of` parsed
  /\ forall walk_data, walk_data ∈ parsed ->
       (walk_data ∈ concat kept <-> long_enough walk_data).
Proof.
  induction 1 as [|entry k files kept Hk%keep_walk_shape _ [IHsub IH]]; simpl.
  - split; [done|]. by intros ? ?%elem_of_nil.
  - destruct (parse_tcx_file _ _ _) as [walk_data|].
    + destruct Hk as [[-> Hlong]|[-> Hshort]]; simpl.
      * split; [by apply sublist_skip|].
        intros wd [->|Hwd]%elem_of_cons; [split; [done | left]|].
        rewrite elem_of_cons, <- (IH wd Hwd). split; [|auto].
        intros [->|]; [|done]. by apply IH.
      * split; [by apply sublist_cons|].
        intros wd [->|Hwd]%elem_of_cons; [|by apply IH].
        split; [|done]. intros Hin.
        pose proof (elem_of_sublist _ _ _ Hin IHsub) as Hparsed.
        by apply (IH walk_data Hparsed).
    + by subst k.
Qed.

End TcxFiles.

Lemma for_each_Raise {A B} (f : A -> result B) (xs : list A) (e : exn) :
  for_each f xs = Raise e -> exists x, x ∈ xs /\ f x = Raise e.
Proof.
  induction xs as [|x xs IH]; simpl; [done|].
  destruct (f x) as [y|e'] eqn:Hx; simpl.
  - destruct (for_each f xs) as [ys|e']; simpl; [done|].
    intros [= ->]. destruct IH as (x' & Hx' & Hraise); [done|].
    exists x'. split; [by right | done].
  - intros [= ->]. exists x. split; [left | done].
Qed.

(** X24.  [parse_tcx_file] skips a trackpoint that lacks its time, its
    position or one of the two coordinates: the file gives the same result
    as without that trackpoint. *)
Theorem incomplete_trackpoint_skipped `{K : Shapely} (make_line : list Coord -> LineString)
    (name : string) (sport : option (option string))
    (before after : list tcx_processor.Trackpoint) (trackpoint : tcx_processor.Trackpoint) :
  incomplete trackpoint ->
  tcx_processor.parse_tcx_file make_line name
    (Some (tcx_processor.mkDocument sport (before ++ trackpoint :: after)))
  = tcx_processor.parse_tcx_file make_line name
      (Some (tcx_processor.mkDocument sport (before ++ after))).
Proof.
  intros Hskip%read_incomplete. unfold tcx_processor.parse_tcx_file. simpl.
  destruct sport as [sport|]; [|done]. case_bool_decide; [done|].
  rewrite !for_each_app. simpl. rewrite Hskip. simpl.
  destruct (for_each _ before) as [read|]; simpl; [|done].
  destruct (for_each _ after) as [read'|]; simpl; [|done].
  by rewrite !concat_app.
Qed.

Lemma incomplete_trackpoint_skipped_witness :
  tcx_processor.parse_tcx_file (K:=Cells.kernel) axis_line "long.tcx" (Some long_walk)
  = tcx_processor.parse_tcx_file (K:=Cells.kernel) axis_line "long.tcx" (Some long_walk_fixes).
Proof.
  apply (incomplete_trackpoint_skipped (K:=Cells.kernel) axis_line "long.tcx"
           (Some (Some "Walking"%string)) [fix_at 0 0] [fix_at 120 150] no_position).
  right. left. reflexivity.
Defined.

(** X25.  A trackpoint that has its time, its position and both
    coordinates, one of which does not convert, makes [parse_tcx_file]
    return [None] for the whole file, whatever the other trackpoints
    hold. *)
Theorem malformed_trackpoint_voids_file `{K : Shapely}
    (make_line : list Coord -> LineString)
    (name : string) (root : tcx_processor.Document)
    (trackpoint : tcx_processor.Trackpoint) :
  trackpoint ∈ tcx_processor.trackpoints root ->
  malformed trackpoint ->
  tcx_processor.parse_tcx_file make_line name (Some root) = None.
Proof.
  intros Hin Hbad. unfold tcx_processor.parse_tcx_file. simpl.
  destruct (tcx_processor.activity root) as [sport|]; [|done].
  case_bool_decide; [done|].
  destruct (for_each _ _) as [read|] eqn:Hread; simpl; [|done].
  apply read_fixes in Hread as [_ Hgood]. rewrite Forall_forall in Hgood.
  by destruct (Hgood trackpoint Hin).
Qed.

Lemma malformed_trackpoint_voids_file_witness :
  tcx_processor.parse_tcx_file (K:=Cells.kernel) axis_line "long.tcx"
    (Some (tcx_processor.mkDocument (Some (Some "Walking"))
             [fix_at 0 0; bad_latitude; fix_at 120 150]))
  = None.
Proof.
  apply (malformed_trackpoint_voids_file (K:=Cells.kernel) axis_line "long.tcx"
           (tcx_processor.mkDocument (Some (Some "Walking"%string))
              [fix_at 0 0; bad_latitude; fix_at 120 150])
           bad_latitude).
  - right. left.
  - do 4 eexists. split_and!; [reflexivity..|]. right. left. reflexivity.
Defined.

(** X26.  [parse_tcx_file] returns a walk exactly for a document that can
    be read, whose first activity has the sport [Walking], that has no
    trackpoint with a value that does not convert, and that has at least
    two complete trackpoints.  The line of the walk then goes through the
    complete trackpoints in document order, each as (longitude, latitude);
    its start and end times are the times of the first and the last of
    them; and its source is the name of the file. *)
Theorem parse_tcx_file_walk `{K : Shapely} (make_line : list Coord -> LineString)
    (name : string) (file : option tcx_processor.Document)
    (walk_data : tcx_processor.WalkData) :
  tcx_processor.parse_tcx_file make_line name file = Some walk_data
  <-> exists root first_fix last_fix,
        file = Some root
        /\ tcx_processor.activity root = Some (Some "Walking"%string)
        /\ Forall (fun tp => ~ malformed tp) (tcx_processor.trackpoints root)
        /\ 2 <= length (omap fix_of (tcx_processor.trackpoints root))
        /\ head (omap fix_of (tcx_processor.trackpoints root)) = Some first_fix
        /\ last (omap fix_of (tcx_processor.trackpoints root)) = Some last_fix
        /\ walk_data
           = tcx_processor.mkWalkData
               (make_line (map (fun tp => (tp.2, tp.1.2))
                               (omap fix_of (tcx_processor.trackpoints root))))
               first_fix.1.1 last_fix.1.1 name.
Proof.
  split; [apply parse_tcx_file_Some|].
  intros (root & first_fix & last_fix & -> & Hsport & Hgood & Hlen & Hfirst & Hlast & ->).
  unfold tcx_processor.parse_tcx_file. simpl. rewrite Hsport.
  rewrite bool_decide_eq_false_2 by (by intros []).
  destruct (read_all_well_formed _ Hgood) as (read & -> & Hread). simpl.
  rewrite Hread.
  apply Nat.ltb_ge in Hlen. rewrite Hlen.
  rewrite item_first_map, item_last_map. unfold item_first, item_last.
  rewrite Hlast.
  by destruct (omap fix_of (tcx_processor.trackpoints root)); simplify_eq/=.
Qed.

(** X27.  The table that [process_tcx_files] returns holds, in the order
    of the listing, exactly the walks parsed from the files that last at
    least [MIN_WALK_DURATION] seconds and whose line has a length of at
    least [MIN_WALK_DISTANCE] in the units of its coordinates.  The table
    has the reference system [DEFAULT_CRS] when it has a row, and none
    when it is empty. *)
Theorem processed_walks_are_long `{K : Shapely} (make_line : list Coord -> LineString)
    (tcx_files : list (string * option tcx_processor.Document)) (gdf : WalksFrame) :
  tcx_processor.process_tcx_files make_line tcx_files = Ok gdf ->
  let parsed :=
    omap (fun entry => tcx_processor.parse_tcx_file make_line entry.1 entry.2) tcx_files in
  exists walks,
    walks_rows gdf = map tcx_processor.walk_row walks
    /\ walks `sublist_of` parsed
    /\ (forall walk_data, walk_data ∈ parsed ->
          (walk_data ∈ walks <-> long_enough walk_data))
    /\ ((walks = [] /\ walks_crs gdf = None)
        \/ (walks <> [] /\ walks_crs gdf = Some config.DEFAULT_CRS)).
Proof.
  unfold tcx_processor.process_tcx_files.
  intros (kept & Hkept%for_each_Ok & Hgdf)%bind_Ok.
  destruct (kept_walks make_line tcx_files kept Hkept) as [Hsub Hlong].
  exists (concat kept). case_bool_decide as Hnone; injection Hgdf as <-; simpl.
  - split_and!; [by rewrite Hnone | done.. | by left].
  - split_and!; [done.. | by right].
Qed.

Lemma processed_walks_are_long_witness :
  let parsed :=
    omap (fun entry => tcx_processor.parse_tcx_file (K:=Cells.kernel) axis_line entry.1 entry.2) tcx_files in
  exists walks,
    walks_rows processed = map tcx_processor.walk_row walks
    /\ walks `sublist_of` parsed
    /\ (forall walk_data, walk_data ∈ parsed ->
          (walk_data ∈ walks <-> long_enough walk_data))
    /\ ((walks = [] /\ walks_crs processed = None)
        \/ (walks <> [] /\ walks_crs processed = Some config.DEFAULT_CRS)).
Proof.
  apply (processed_walks_are_long (K:=Cells.kernel) axis_line tcx_files processed).
  vm_compute. reflexivity.
Defined.

(** X28.  The only exception [process_tcx_files] raises is [TypeError],
    and it takes a file in which some time carries no time zone:
    documents that cannot be read, other sports, short walks and values
    that do not convert are passed over in silence. *)
Theorem process_tcx_files_raises `{K : Shapely} (make_line : list Coord -> LineString)
    (tcx_files : list (string * option tcx_processor.Document)) (e : exn) :
  tcx_processor.process_tcx_files make_line tcx_files = Raise e ->
  e = TypeError
  /\ exists entry, entry ∈ tcx_files /\ ~ all_aware entry.2.
Proof.
  unfold tcx_processor.process_tcx_files.
  destruct (for_each _ tcx_files) as [kept|e'] eqn:Hkept; simpl;
    [by case_bool_decide|].
  intros [= ->]. apply for_each_Raise in Hkept as (entry & Hentry & Hraise).
  split.
  - destruct (keep_walk_cases make_line entry) as [[kept Hkept]|Hkept]; congruence.
  - exists entry. split; [done|]. intros Haware.
    destruct (keep_walk_aware make_line entry Haware) as [kept Hkept]. congruence.
Qed.

Lemma process_tcx_files_raises_witness :
  TypeError = TypeError
  /\ exists entry, entry ∈ [("mixed.tcx"%string, Some mixed_walk)] /\ ~ all_aware entry.2.
Proof.
  apply (process_tcx_files_raises (K:=Cells.kernel) axis_line
           [("mixed.tcx"%string, Some mixed_walk)] TypeError).
  vm_compute. reflexivity.
Defined.
